(** * Frame dispatcher, pointer tracker, event bus and component manager

    A shallow embedding of the runtime pieces of the site:
    - [reference.js]: [Emitter], [RAFCollection], [ComponentManager],
      [InputManager] and the [bootRuntime] loop;
    - [RuntimeProvider.tsx]: the [onRaf] priority queue, the pointer
      spaces written by [onMove] and the [requestAnimationFrame] loop.

    JavaScript numbers are modelled by exact rationals ([Q], compared with
    [==]) for coordinates and times, and by [Z] for the integer priorities.
    The code computes in floating point: a bound or a sign that every
    rounding step preserves holds of the code as it holds of the model,
    while an equation between two differently computed expressions holds
    of the code only up to rounding, and a theorem that states one says
    that it is read over the rationals.  Division by zero gives 0 in [Q]
    where the code gives an infinity or NaN, which matters only for a
    viewport of width or height 0.
    A callback is known to the runtime only through the calls it makes back
    into it, so a callback body is modelled by the list of those calls
    (possibly ended by a [throw]); callbacks and handlers are named by
    natural numbers, which stand for function identity ([===]). *)

From Stdlib Require Import ZArith QArith Qminmax Qabs Lqa Lia Ascii String.
From stdpp Require Import base list sorting gmap strings.

Local Open Scope Z_scope.

(** ** [Array.prototype.sort]

    The engine's sort is not part of the repository.  It is modelled after
    V8's TimSort (array-sort.tq) on the path every array shorter than 64
    elements takes, where the minimal run length is the array length: the
    leading run is counted (and reversed when it is descending), then the
    remaining elements are placed by binary insertion.  The comparator is
    passed in, and it is called with the arguments in the order V8 uses.
    On longer arrays V8 merges several such runs, which is not modelled:
    with a comparator that orders the entries the outcome is the same, the
    stable order being unique; with another comparator the language leaves
    the outcome to the engine. *)

Module JsArray.
Section Sort.
Context {A : Type}.
Variable comparefn : A -> A -> Z.

(** The loop of [CountAndMakeRun]: how many elements after [prev]
    continue the run. *)
Fixpoint run_tail (isDescending : bool) (prev : A) (l : list A) : nat :=
  match l with
  | [] => 0%nat
  | cur :: l' =>
      let order := comparefn cur prev in
      if isDescending
      then (if 0 <=? order then 0%nat else S (run_tail isDescending cur l'))
      else (if order <? 0 then 0%nat else S (run_tail isDescending cur l'))
  end.

(** [CountAndMakeRun(0, length)]: the array after the optional
    [ReverseRange], and the run length. *)
Definition CountAndMakeRun (a : list A) : list A * nat :=
  match a with
  | [] => ([], 0%nat)
  | [_] => (a, 1%nat)
  | elementHigh :: elementLow :: rest =>
      let isDescending := comparefn elementLow elementHigh <? 0 in
      let runLength := (2 + run_tail isDescending elementLow rest)%nat in
      (if isDescending
       then reverse (take runLength a) ++ drop runLength a
       else a, runLength)
  end.

(** The inner [while (left < right)] of [BinaryInsertionSort]. *)
Fixpoint find_insertion_point (fuel : nat) (pivot : A) (a : list A)
    (left right : nat) : nat :=
  match fuel with
  | O => left
  | S fuel' =>
      if (left <? right)%nat then
        let mid := (left + (right - left) / 2)%nat in
        match a !! mid with
        | Some e =>
            if comparefn pivot e <? 0
            then find_insertion_point fuel' pivot a left mid
            else find_insertion_point fuel' pivot a (S mid) right
        | None => left
        end
      else left
  end.

(** One round of the outer loop: [a[start]] is moved to its insertion
    point and the elements in between shift right by one. *)
Definition insert_pivot (a : list A) (start : nat) : list A :=
  match a !! start with
  | None => a
  | Some pivot =>
      let left := find_insertion_point start pivot a 0 start in
      take left a ++ pivot :: drop left (take start a) ++ drop (S start) a
  end.

Fixpoint insertion_rounds (n start : nat) (a : list A) : list A :=
  match n with
  | O => a
  | S n' => insertion_rounds n' (S start) (insert_pivot a start)
  end.

(** [BinaryInsertionSort(0, startArg, high)]. *)
Definition BinaryInsertionSort (a : list A) (startArg high : nat) : list A :=
  let start := if (startArg =? 0)%nat then S startArg else startArg in
  insertion_rounds (high - start) start a.

Definition sort (a : list A) : list A :=
  if (length a <? 2)%nat then a
  else
    let '(a1, currentRunLength) := CountAndMakeRun a in
    if (currentRunLength <? length a)%nat
    then BinaryInsertionSort a1 currentRunLength (length a)
    else a1.
End Sort.

(** What the outer loop of the insertion sort maintains, for an input in
    the order [Rin] and an output claimed in the order [Rout]: the first
    [start] elements are in the output order, the others still in the
    input order and after them in that order. *)
Definition insertion_inv {A} (Rin Rout : relation A) (start : nat)
    (a : list A) : Prop :=
  StronglySorted Rout (take start a) /\
  StronglySorted Rin (drop start a) /\
  (forall x y, x ∈ take start a -> y ∈ drop start a -> Rin x y).
End JsArray.

(** ** Callbacks

    How an invocation of a callback ends. *)
Inductive outcome := Returned | Threw.

(** The callbacks called in a loop that a throw leaves: all up to the
    first one that throws, that one included. *)
Fixpoint until_throw (throws : nat -> bool) (cs : list nat) : list nat :=
  match cs with
  | [] => []
  | c :: cs' => c :: (if throws c then [] else until_throw throws cs')
  end.

(** ** [RAFCollection] (reference.js) *)

Module RAFCollection.
(** An element of [this.callbacks]: [{ cb, index }]. *)
Record item := Item { cb : nat; index : Z }.

(** The comparator of [add]: [(a, b) => (a.index > b.index ? 1 : -1)]. *)
Definition compare (a b : item) : Z :=
  if index a >? index b then 1 else -1.

(** What a callback can do to the collection while it runs. *)
Inductive call :=
| Add (c : nat) (i : Z)
| Remove (c : nat)
| Throw.

Record state := State {
  callbacks : list item;
  invoked : list (nat * Q)   (* the callbacks called so far, with [t] *)
}.

Definition empty : state := State [] [].

(** [add(cb, index = 0)]: push, then sort in place. *)
Definition add (c : nat) (i : Z) (st : state) : state :=
  State (JsArray.sort compare (callbacks st ++ [Item c i])) (invoked st).

(** [remove(cb)]: [this.callbacks.filter(item => item.cb !== cb)]. *)
Definition remove (c : nat) (st : state) : state :=
  State (List.filter (fun it => negb (cb it =? c)%nat) (callbacks st))
        (invoked st).

Definition record (c : nat) (t : Q) (st : state) : state :=
  State (callbacks st) (invoked st ++ [(c, t)]).

Fixpoint run (cs : list call) (st : state) : state * outcome :=
  match cs with
  | [] => (st, Returned)
  | Add c i :: cs' => run cs' (add c i st)
  | Remove c :: cs' => run cs' (remove c st)
  | Throw :: _ => (st, Threw)
  end.

Section Tick.
(** The body of each callback, given the timestamp it receives. *)
Variable body : nat -> Q -> list call.

(** [_onRAF(t)]: [for (let i = 0; i < this.callbacks.length; i++)]
    with the call wrapped in [try { } catch (e) { }].  The loop reads
    [this.callbacks] again at every round.  [None]: the loop has not
    ended within [fuel] rounds. *)
Fixpoint _onRAF_from (fuel i : nat) (t : Q) (st : state) : option state :=
  match fuel with
  | O => None
  | S fuel' =>
      match callbacks st !! i with
      | None => Some st
      | Some it =>
          let '(st', _) := run (body (cb it) t) (record (cb it) t st) in
          _onRAF_from fuel' (S i) t st'
      end
  end.

Definition _onRAF (fuel : nat) (t : Q) (st : state) : option state :=
  _onRAF_from fuel 0 t st.

(** The loop of [bootRuntime]: [Emitter.emit(G.events.RAF, t)], which
    calls [_onRAF], then [window.requestAnimationFrame(loop)].  The
    boolean tells that the next frame has been requested. *)
Definition loop (fuel : nat) (t : Q) (st : state) : option (state * bool) :=
  match _onRAF fuel t st with
  | None => None
  | Some st' => Some (st', true)
  end.
End Tick.

(** The callbacks after a sequence of [add] calls. *)
Definition add_all (regs : list (nat * Z)) : state :=
  foldl (fun st r => add r.1 r.2 st) empty regs.

(** Callbacks that make no call into the collection; those picked by
    [throws] throw. *)
Definition throwing (throws : nat -> bool) (c : nat) (t : Q) : list call :=
  if throws c then [Throw] else [].
End RAFCollection.

(** ** The frame queue of [RuntimeProvider] (RuntimeProvider.tsx) *)

Module RuntimeProvider.
(** [type Entry = { index, cb }].  Entries are compared by identity
    ([x !== e]); [eid] is that identity: the rank of the [onRaf] call
    that made the object. *)
Record Entry := MkEntry { eid : nat; index : Z; cb : nat }.

(** The comparator of [onRaf]: [(a, b) => a.index - b.index]. *)
Definition compare (a b : Entry) : Z := index a - index b.

Inductive call :=
| OnRaf (c : nat) (i : Z)
| Unsubscribe (handle : nat)
| Throw.

(** [subs.current] is a reference to an array; [push] and [sort] change
    the array it points to, [filter] makes a new one.  [arrays] holds the
    array objects, a reference is a position in it. *)
Record state := State {
  arrays : list (list Entry);
  subs_current : nat;
  next_eid : nat;
  invoked : list (nat * Q)
}.

Definition initial : state := State [[]] 0 0 [].

Definition array_at (r : nat) (st : state) : list Entry :=
  default [] (arrays st !! r).

(** The array [subs.current] points to. *)
Definition subs (st : state) : list Entry := array_at (subs_current st) st.

(** [onRaf(cb, index = 2)]; the closure it returns is named by the
    identity of the entry it closes over, given back second. *)
Definition onRaf (c : nat) (i : Z) (st : state) : state * nat :=
  let e := MkEntry (next_eid st) i c in
  (State (<[subs_current st := JsArray.sort compare (subs st ++ [e])]>
            (arrays st))
         (subs_current st) (S (next_eid st)) (invoked st),
   next_eid st).

(** The closure returned by [onRaf]:
    [subs.current = subs.current.filter(x => x !== e)]. *)
Definition unsubscribe (handle : nat) (st : state) : state :=
  State (arrays st ++
           [List.filter (fun x => negb (eid x =? handle)%nat) (subs st)])
        (length (arrays st)) (next_eid st) (invoked st).

Definition record (c : nat) (t : Q) (st : state) : state :=
  State (arrays st) (subs_current st) (next_eid st) (invoked st ++ [(c, t)]).

Fixpoint run (cs : list call) (st : state) : state * outcome :=
  match cs with
  | [] => (st, Returned)
  | OnRaf c i :: cs' => run cs' (onRaf c i st).1
  | Unsubscribe h :: cs' => run cs' (unsubscribe h st)
  | Throw :: _ => (st, Threw)
  end.

Section Tick.
Variable body : nat -> Q -> list call.

(** [for (const e of subs.current) e.cb(t)]: the iterator keeps the
    array it was made for ([r]) and a position, and reads the array's
    present length and element at every step.  A throw leaves the
    loop. *)
Fixpoint for_of (fuel r i : nat) (t : Q) (st : state)
    : option (state * outcome) :=
  match fuel with
  | O => None
  | S fuel' =>
      match array_at r st !! i with
      | None => Some (st, Returned)
      | Some e =>
          match run (body (cb e) t) (record (cb e) t st) with
          | (st', Threw) => Some (st', Threw)
          | (st', Returned) => for_of fuel' r (S i) t st'
          end
      end
  end.

(** [loop(t)]: [raf = requestAnimationFrame(loop)] comes first, then
    the callbacks.  The boolean tells that the next frame has been
    requested. *)
Definition loop (fuel : nat) (t : Q) (st : state)
    : option (state * outcome * bool) :=
  match for_of fuel (subs_current st) 0 t st with
  | None => None
  | Some (st', o) => Some (st', o, true)
  end.
End Tick.

(** The state after a sequence of [onRaf] calls. *)
Definition onRaf_all (regs : list (nat * Z)) : state :=
  foldl (fun st r => (onRaf r.1 r.2 st).1) initial regs.

(** The entries made by a sequence of [onRaf] calls, in the order of the
    calls. *)
Fixpoint entries_from (n : nat) (regs : list (nat * Z)) : list Entry :=
  match regs with
  | [] => []
  | r :: regs' => MkEntry n r.2 r.1 :: entries_from (S n) regs'
  end.

(** Lower priority first, and among equal priorities the entry
    registered first. *)
Definition runs_before (a b : Entry) : Prop :=
  index a < index b \/ (index a = index b /\ (eid a < eid b)%nat).

(** Entries of equal priority are in the order of their registration. *)
Definition ties_in_order (a b : Entry) : Prop :=
  index a = index b -> (eid a < eid b)%nat.

(** What [onRaf] and the returned closures keep true of the queue. *)
Definition queue_ok (st : state) : Prop :=
  (subs_current st < length (arrays st))%nat /\
  StronglySorted runs_before (subs st) /\
  Forall (fun e => (eid e < next_eid st)%nat) (subs st).

(** Callbacks that make no call into the queue; those picked by [throws]
    throw. *)
Definition throwing (throws : nat -> bool) (c : nat) (t : Q) : list call :=
  if throws c then [Throw] else [].

(** Callbacks that only call closures returned by [onRaf]: [handles c t]
    are the closures callback [c] calls at time [t]. *)
Definition unsubscribing (handles : nat -> Q -> list nat) (c : nat) (t : Q)
    : list call :=
  Unsubscribe <$> handles c t.
(** The queue is in order and no two of its entries are the same object. *)
Definition queue_wf (st : state) : Prop :=
  queue_ok st /\ NoDup (eid <$> subs st).

End RuntimeProvider.

(** ** Pointer spaces

    Coordinates and times are exact rationals.  Where a viewport size is
    divided by, the statements below take it positive: there the rational
    quotient is the number JavaScript computes, up to rounding, while for a
    size of 0 JavaScript yields [Infinity] or [NaN]. *)

(** [{ x, y }]. *)
Record Vec2 := Vec { x : Q; y : Q }.

(** Two vectors hold the same numbers. *)
Definition vec_eq (a b : Vec2) : Prop := (x a == x b /\ y a == y b)%Q.

(** The pointer tracker of [RuntimeProvider] (RuntimeProvider.tsx). *)
Module RuntimePointer.
Local Open Scope Q_scope.

(** [type PointerSpaces]. *)
Record PointerSpaces := Spaces {
  px : Vec2;       (* pixels *)
  screen : Vec2;   (* [0..1] *)
  ndc : Vec2;      (* [-1..1] *)
  gl : Vec2;       (* centered pixels *)
  v : Vec2         (* velocity estimate *)
}.

(** [last = { x, y, t }]. *)
Record Last := MkLast { last_x : Q; last_y : Q; last_t : Q }.

Record state := State { pointer : PointerSpaces; last : Last }.

(** The value [useRef] is given for [pointer]. *)
Definition initial_pointer : PointerSpaces :=
  Spaces (Vec 0 0) (Vec 0 0) (Vec (-1) (-1)) (Vec 0 0) (Vec 0 0).

(** The state when the effect has run: [last = { x: 0, y: 0, t:
    performance.now() }]. *)
Definition mounted (now : Q) : state :=
  State initial_pointer (MkLast 0 0 now).

(** [onMove(e)], for [clientX], [clientY] of the event, the window's
    [innerWidth] and [innerHeight] and the value of [performance.now()]
    when it runs. *)
Definition onMove (clientX clientY innerWidth innerHeight now : Q)
    (st : state) : state :=
  let x := clientX in
  let y := clientY in
  let w := innerWidth in
  let h := innerHeight in
  let dt := Qmax 1 (now - last_t (last st)) in
  State
    (Spaces (Vec x y)
            (Vec (x / w) (y / h))
            (Vec ((x / w) * 2 - 1) (- ((y / h) * 2 - 1)))
            (Vec (x - w / 2) (- (y - h / 2)))
            (Vec ((x - last_x (last st)) / dt) ((y - last_y (last st)) / dt)))
    (MkLast x y now).

(** The coordinate spaces as the specification writes them. *)
Definition screenNormalized (x y w h : Q) : Vec2 := Vec (x / w) (y / h).
Definition deviceNormalized (x y w h : Q) : Vec2 :=
  Vec (2 * x / w - 1) (- (2 * y / h - 1)).
Definition centeredPixels (x y w h : Q) : Vec2 :=
  Vec (x - w / 2) (- (y - h / 2)).
Definition velocity (x0 y0 t0 x1 y1 t1 : Q) : Vec2 :=
  Vec ((x1 - x0) / Qmax 1 (t1 - t0)) ((y1 - y0) / Qmax 1 (t1 - t0)).

(** Every space agrees with the pixel sample for the viewport [w], [h]. *)
Definition consistent (w h : Q) (p : PointerSpaces) : Prop :=
  vec_eq (screen p) (screenNormalized (x (px p)) (y (px p)) w h) /\
  vec_eq (ndc p) (deviceNormalized (x (px p)) (y (px p)) w h) /\
  vec_eq (gl p) (centeredPixels (x (px p)) (y (px p)) w h).
End RuntimePointer.

(** ** [InputManager] and the global [G] (reference.js) *)

Module InputManager.
Local Open Scope Q_scope.

(** [G.window]: the viewport kept by [_onResize]. *)
Record Window := MkWindow { w : Q; h : Q }.

(** [G.mouse].  The vectors have no [x], [y] before their first
    [set]. *)
Record Mouse := MkMouse {
  mouse_x : Q;
  mouse_y : Q;
  gl : option Vec2;
  glNormalized : option Vec2;
  glScreenSpace : option Vec2;
  smooth_glNormalized : option Vec2
}.

Record Global := MkG { window : Window; mouse : Mouse }.

(** The manager, and the bus it emits on.  [Emitter.emit] does not catch:
    it throws when a subscriber does.  [bus k] is how the emit number [k]
    made by the manager ends, and [emits] counts the emits made so far.
    Subscribers are taken not to write to the manager or to [G]. *)
Record state := State {
  dragging : bool;
  mousePos : Vec2;
  prevMousePos : Vec2;
  origMousePos : Vec2;
  bus : nat -> outcome;
  emits : nat
}.

(** What is handed to [Emitter.emit]. *)
Inductive emitted :=
| MOUSEMOVE (mousePos : Vec2)
| MOUSEDRAG (ox px x oy py y : Q)
| MOUSEDOWN (mousePos : Vec2)
| MOUSEUP
| RESIZE.

(** The fields the constructor sets, for a manager that emits on [b]. *)
Definition initial_on (b : nat -> outcome) : state :=
  State false (Vec 0 0) (Vec 0 0) (Vec 0 0) b 0.

(** The manager on a bus none of whose subscribers throws. *)
Definition initial : state := initial_on (fun _ => Returned).

(** One [Emitter.emit(...)] made by the manager: how it ends. *)
Definition emit (st : state) : state * outcome :=
  (State (dragging st) (mousePos st) (prevMousePos st) (origMousePos st)
         (bus st) (S (emits st)),
   bus st (emits st)).

Definition initial_mouse : Mouse := MkMouse 0 0 None None None None.

(** [_onResize()], for the window's [innerWidth] and [innerHeight].  The
    emit is its last statement. *)
Definition _onResize (innerWidth innerHeight : Q) (g : Global)
    : Global * list emitted :=
  (MkG (MkWindow innerWidth innerHeight) (mouse g), [RESIZE]).

(** The three [set] calls shared by [_onPointerMove] and
    [_onPointerDown]. *)
Definition set_mouse (x y : Q) (g : Global) : Global :=
  MkG (window g)
      (MkMouse x y
         (Some (Vec (x - w (window g) / 2) (- (y - h (window g) / 2))))
         (Some (Vec ((x / w (window g)) * 2 - 1)
                    (- (y / h (window g)) * 2 + 1)))
         (Some (Vec (x / w (window g)) (1 - y / h (window g))))
         (smooth_glNormalized (mouse g))).

(** [_onPointerMove(e)], for the [clientX], [clientY] of the event.
    Given back: [G], the manager, and what was handed to [Emitter.emit],
    the last of which may have thrown; a throw ends the handler. *)
Definition _onPointerMove (x y : Q) (g : Global) (st : state)
    : Global * state * list emitted :=
  let mousePos := Vec x y in
  let g' := set_mouse x y g in
  let 'Vec ox oy := origMousePos st in
  let 'Vec px py := prevMousePos st in
  let st1 := State (dragging st) mousePos (prevMousePos st) (origMousePos st)
                   (bus st) (emits st) in
  match emit st1 with
  | (st2, Threw) => (g', st2, [MOUSEMOVE mousePos])
  | (st2, Returned) =>
      if dragging st2 then
        match emit st2 with
        | (st3, Threw) =>
            (g', st3, [MOUSEMOVE mousePos; MOUSEDRAG ox px x oy py y])
        | (st3, Returned) =>
            (g',
             State (dragging st3) mousePos mousePos (origMousePos st3)
                   (bus st3) (emits st3),
             [MOUSEMOVE mousePos; MOUSEDRAG ox px x oy py y])
        end
      else (g', st2, [MOUSEMOVE mousePos])
  end.

(** [_onPointerDown(e)]. *)
Definition _onPointerDown (x y : Q) (g : Global) (st : state)
    : Global * state * list emitted :=
  let st1 := State (dragging st) (Vec x y) (Vec x y) (Vec x y)
                   (bus st) (emits st) in
  match emit st1 with
  | (st2, Threw) => (set_mouse x y g, st2, [MOUSEDOWN (Vec x y)])
  | (st2, Returned) =>
      (set_mouse x y g,
       State true (mousePos st2) (prevMousePos st2) (origMousePos st2)
             (bus st2) (emits st2),
       [MOUSEDOWN (Vec x y)])
  end.

(** [_onPointerUp(e)]. *)
Definition _onPointerUp (g : Global) (st : state)
    : Global * state * list emitted :=
  match emit st with
  | (st1, Threw) => (g, st1, [MOUSEUP])
  | (st1, Returned) =>
      (g,
       State false (mousePos st1) (prevMousePos st1) (origMousePos st1)
             (bus st1) (emits st1),
       [MOUSEUP])
  end.
(** The events the manager listens to. *)
Inductive event :=
| Move (x y : Q)                        (* mousemove, touchmove *)
| Down (x y : Q)                        (* mousedown, touchstart *)
| Up                                    (* mouseup, dragend, contextmenu, touchend *)
| Resize (innerWidth innerHeight : Q).  (* resize *)

Definition handle (e : event) (g : Global) (st : state)
    : Global * state * list emitted :=
  match e with
  | Move x y => _onPointerMove x y g st
  | Down x y => _onPointerDown x y g st
  | Up => _onPointerUp g st
  | Resize innerWidth innerHeight =>
      let '(g', out) := _onResize innerWidth innerHeight g in
      (g', (emit st).1, out)
  end.

(** The events in the order the host delivers them; what is emitted is
    collected in order. *)
Fixpoint handle_all (es : list event) (g : Global) (st : state)
    : Global * state * list emitted :=
  match es with
  | [] => (g, st, [])
  | e :: es' =>
      let '(g1, st1, out1) := handle e g st in
      let '(g2, st2, out2) := handle_all es' g1 st1 in
      (g2, st2, out1 ++ out2)
  end.

(** What a subscriber of the bus can check of what it receives: a
    [MOUSEDRAG] comes only while the pointer is down ([down] is where it
    went down), right after the [MOUSEMOVE] of the same sample ([cur]),
    and it carries the place the pointer went down, the previous sample of
    the drag ([prev]) and the present one. *)
Fixpoint drags_ok (down : option Vec2) (prev cur : Vec2) (out : list emitted)
    : Prop :=
  match out with
  | [] => True
  | MOUSEMOVE p :: out' => drags_ok down prev p out'
  | MOUSEDRAG ox px x oy py y :: out' =>
      down = Some (Vec ox oy) /\ prev = Vec px py /\ cur = Vec x y /\
      drags_ok down cur cur out'
  | MOUSEDOWN p :: out' => drags_ok (Some p) p p out'
  | MOUSEUP :: out' => drags_ok None prev cur out'
  | RESIZE :: out' => drags_ok down prev cur out'
  end.

(** The number of drags reported. *)
Definition drags (out : list emitted) : nat :=
  length (List.filter (fun o => match o with MOUSEDRAG _ _ _ _ _ _ => true
                                           | _ => false end) out).

(** The number of moves made while the pointer is down, [pressed] telling
    whether it is down at first. *)
Fixpoint moves_while_down (pressed : bool) (es : list event) : nat :=
  match es with
  | [] => 0
  | Move _ _ :: es' =>
      ((if pressed then 1 else 0) + moves_while_down pressed es')%nat
  | Down _ _ :: es' => moves_while_down true es'
  | Up :: es' => moves_while_down false es'
  | Resize _ _ :: es' => moves_while_down pressed es'
  end.

End InputManager.

(** ** [Emitter] (reference.js) *)

Module Emitter.
(** A [Set] of handlers as the language defines it: the list of its
    entries in insertion order, where [delete] leaves an empty slot
    ([None]) in place of the entry and [add] appends an entry that is not
    there yet.  An iterator is a position in that list. *)
Definition SetData := list (option nat).

Definition set_add (c : nat) (d : SetData) : SetData :=
  if bool_decide (Some c ∈ d) then d else d ++ [Some c].

Definition set_delete (c : nat) (d : SetData) : SetData :=
  (fun e => if bool_decide (e = Some c) then None else e) <$> d.

(** The entries of a set, in the order of iteration. *)
Definition members (d : SetData) : list nat := omap id d.

Inductive call :=
| On (evt : string) (c : nat)
| Off (evt : string) (c : nat)
| Throw.

Section WithPayload.
Context {Payload : Type}.

Record state := State {
  handlers : gmap string SetData;
  delivered : list (nat * Payload)  (* the handlers called so far *)
}.

Definition initial : state := State ∅ [].

(** [on(evt, cb)]. *)
Definition on (evt : string) (c : nat) (st : state) : state :=
  State (<[evt := set_add c (default [] (handlers st !! evt))]>
           (handlers st))
        (delivered st).

(** [off(evt, cb)]. *)
Definition off (evt : string) (c : nat) (st : state) : state :=
  match handlers st !! evt with
  | Some d => State (<[evt := set_delete c d]> (handlers st)) (delivered st)
  | None => st
  end.

(** The handlers registered for [evt], in the order of registration. *)
Definition registered (evt : string) (st : state) : list nat :=
  members (default [] (handlers st !! evt)).

(** Every set of the registry lists a handler at most once. *)
Definition sets_ok (st : state) : Prop :=
  forall evt d, handlers st !! evt = Some d -> NoDup (members d).

Definition record (c : nat) (payload : Payload) (st : state) : state :=
  State (handlers st) (delivered st ++ [(c, payload)]).

Fixpoint run (cs : list call) (st : state) : state * outcome :=
  match cs with
  | [] => (st, Returned)
  | On evt c :: cs' => run cs' (on evt c st)
  | Off evt c :: cs' => run cs' (off evt c st)
  | Throw :: _ => (st, Threw)
  end.

Variable body : nat -> Payload -> list call.

(** [for (const cb of handlers.get(evt)) cb(payload)], from position
    [i] of the set on. *)
Fixpoint deliver (fuel : nat) (evt : string) (i : nat) (payload : Payload)
    (st : state) : option (state * outcome) :=
  match fuel with
  | O => None
  | S fuel' =>
      match default [] (handlers st !! evt) !! i with
      | None => Some (st, Returned)
      | Some None => deliver fuel' evt (S i) payload st
      | Some (Some c) =>
          match run (body c payload) (record c payload st) with
          | (st', Threw) => Some (st', Threw)
          | (st', Returned) => deliver fuel' evt (S i) payload st'
          end
      end
  end.

(** [emit(evt, payload)]. *)
Definition emit (fuel : nat) (evt : string) (payload : Payload)
    (st : state) : option (state * outcome) :=
  match handlers st !! evt with
  | None => Some (st, Returned)
  | Some _ => deliver fuel evt 0 payload st
  end.

(** The calls of a handler that do not disturb an [emit] of [evt] that
    has come to position [i] of the set: [on] and [off] for another
    topic, [on] for a handler that is registered for [evt] at that
    moment, and [off] for a handler that is not among those still to be
    called (the entries after position [i]).  A throw disturbs it. *)
Fixpoint calls_harmless (evt : string) (i : nat) (cs : list call)
    (st : state) : bool :=
  match cs with
  | [] => true
  | On e c :: cs' =>
      (bool_decide (e <> evt) || bool_decide (c ∈ registered evt st))
      && calls_harmless evt i cs' (on e c st)
  | Off e c :: cs' =>
      (bool_decide (e <> evt)
       || bool_decide (Some c ∉ drop (S i) (default [] (handlers st !! evt))))
      && calls_harmless evt i cs' (off e c st)
  | Throw :: _ => false
  end.

(** Whether every call made by the handlers during the [emit] of [evt],
    from position [i] on, is harmless at the moment it is made. *)
Fixpoint quiet (fuel : nat) (evt : string) (i : nat) (payload : Payload)
    (st : state) : bool :=
  match fuel with
  | O => true
  | S fuel' =>
      match default [] (handlers st !! evt) !! i with
      | None => true
      | Some None => quiet fuel' evt (S i) payload st
      | Some (Some c) =>
          calls_harmless evt i (body c payload) (record c payload st)
          && quiet fuel' evt (S i) payload
               (run (body c payload) (record c payload st)).1
      end
  end.

(** The handlers [cs] called one after the other. *)
Definition handled (payload : Payload) (cs : list nat) (st : state) : state :=
  foldl (fun s c => (run (body c payload) (record c payload s)).1) st cs.
End WithPayload.
Arguments state : clear implicits.
(** Handlers that make no call into the emitter; those picked by [throws]
    throw. *)
Definition throwing {Payload : Type} (throws : nat -> bool) (c : nat)
    (p : Payload) : list call :=
  if throws c then [Throw] else [].

(** Handlers that only call [off] for the topic [evt]: [hs c] are the
    handlers that handler [c] removes when it runs. *)
Definition removing {Payload : Type} (evt : string) (hs : nat -> list nat)
    (c : nat) (p : Payload) : list call :=
  Off evt <$> hs c.

(** A set after the handlers [rs] have been deleted from it. *)
Definition without (rs : list nat) (d : SetData) : SetData :=
  (fun e => match e with
            | Some c => if bool_decide (c ∈ rs) then None else Some c
            | None => None
            end) <$> d.

(** The handlers an iteration over the set calls when handler [c] removes
    the handlers [hs c] as it runs and [rs] have been removed already. *)
Fixpoint called_removing (hs : nat -> list nat) (rs : list nat) (d : SetData)
    : list nat :=
  match d with
  | [] => []
  | None :: d' => called_removing hs rs d'
  | Some c :: d' =>
      if bool_decide (c ∈ rs) then called_removing hs rs d'
      else c :: called_removing hs (reverse (hs c) ++ rs) d'
  end.

End Emitter.

(** ** [ComponentManager] (reference.js) *)

Module ComponentManager.
Definition dquote : string := String "034"%char EmptyString.

(** The message of the error thrown by the constructor. *)
Definition selector_message (name : string) : string :=
  ("Component " ++ dquote ++ name ++ dquote
     ++ " must define a static 'selector'.")%string.

Inductive error :=
| Error (message : string)   (* [throw new Error(...)] of the constructor *)
| SyntaxError                (* thrown by [querySelectorAll] *)
| ComponentThrew.            (* thrown by [new Component(node)] *)

Section WithDom.
Context {Element Instance : Type}.

(** A component class: its [name], its static [selector] ([None] when
    the class defines none, so that [typeof Component.selector] is
    ["undefined"]) and its constructor, which may throw ([None]). *)
Record Component := MkComponent {
  name : string;
  selector : option string;
  construct : Element -> option Instance
}.

(** [$all(sel, parentEl)] for the [parentEl] given to the constructor;
    [None] when the selector is not valid. *)
Variable all : string -> option (list Element).

(** [for (const node of nodes) this.components.push(new Component(node))]:
    the elements the constructor was called on, and the instances, or
    [None] if a constructor threw. *)
Fixpoint make_each (C : Component) (nodes : list Element)
    : list Element * option (list Instance) :=
  match nodes with
  | [] => ([], Some [])
  | node :: nodes' =>
      match construct C node with
      | None => ([node], None)
      | Some c =>
          let '(called, r) := make_each C nodes' in
          (node :: called, option_map (cons c) r)
      end
  end.

(** [new ComponentManager(Component, parentEl)]: the elements a
    component constructor was called on, and either the error thrown or
    [this.components]. *)
Definition new (C : Component) : list Element * (error + list Instance) :=
  match selector C with
  | None => ([], inl (Error (selector_message (name C))))
  | Some sel =>
      match all sel with
      | None => ([], inl SyntaxError)
      | Some nodes =>
          match make_each C nodes with
          | (called, None) => (called, inl ComponentThrew)
          | (called, Some components) => (called, inr components)
          end
      end
  end.
End WithDom.
Section Lifecycle.
Context {Element Instance : Type}.

(** [c?.[method]?.(...args)] for a component instance: [None] when the
    instance has no such method, so that nothing is called, else how the
    call ends.  The methods are taken not to reach back into the
    manager. *)
Variable invoke : Instance -> string -> option outcome.

(** A manager: [this.components], and the method calls made so far. *)
Record manager := Manager {
  components : list Instance;
  calls : list (Instance * string)
}.

(** [this.components.forEach(c => c?.[method]?.(...args))]: a throw
    leaves the loop. *)
Fixpoint call_each (method : string) (cs : list Instance)
    (log : list (Instance * string)) : list (Instance * string) * outcome :=
  match cs with
  | [] => (log, Returned)
  | c :: cs' =>
      match invoke c method with
      | None => call_each method cs' log
      | Some Returned => call_each method cs' (log ++ [(c, method)])
      | Some Threw => (log ++ [(c, method)], Threw)
      end
  end.

(** [callAll(method, ...args)]. *)
Definition callAll (method : string) (m : manager) : manager * outcome :=
  let '(log, o) := call_each method (components m) (calls m) in
  (Manager (components m) log, o).

(** [destroy()]: [this.callAll("destroy"); this.components = []]. *)
Definition destroy (m : manager) : manager * outcome :=
  match callAll "destroy" m with
  | (m', Returned) => (Manager [] (calls m'), Returned)
  | (m', Threw) => (m', Threw)
  end.

(** [make(el)]: [this.components.push(new this.Component(el))]. *)
Definition make (C : @Component Element Instance) (el : Element) (m : manager)
    : manager * outcome :=
  match construct C el with
  | Some c => (Manager (components m ++ [c]) (calls m), Returned)
  | None => (m, Threw)
  end.

(** The instances among [cs] that have the method. *)
Definition having (method : string) (cs : list Instance) : list Instance :=
  List.filter (fun c => match invoke c method with Some _ => true | None => false end) cs.
End Lifecycle.

End ComponentManager.

(** ** [FileLoader] and [GLTFLoader] (reference.js)

    A request goes through two waits: for the response of [fetch], then
    for its body.  The host settles them in any order it likes, one step at
    a time ([respond], [body]). *)

Module FileLoader.
(** What [onLoad] is handed: the body as an [ArrayBuffer] or as text. *)
Inductive data := ArrayBuffer (raw : string) | Text (raw : string).

(** What [onError] is handed: the [Error] for a response that is not ok,
    the rejection of [fetch] or of the body, or what a callback threw. *)
Inductive error :=
| HTTP (status : nat)
| NetworkError
| BodyError
| Thrown (callback : nat).

Inductive payload := Data (d : data) | Scene.

(** The [onLoad] callbacks given to [load] in the repository: a callback of
    the caller, or the closure [GLTFLoader.load] makes around the caller's
    [onLoad] and [onError]. *)
Inductive onload :=
| UserOnLoad (id : nat)
| GltfOnLoad (onLoad onError : option nat).

(** What the loader does that can be seen from outside. *)
Inductive entry :=
| Fetch (url : string) (headers : list (string * string)) (credentials : string)
| OnLoad (id : nat) (p : payload)
| OnError (id : nat) (e : error).

Inductive stage := Fetching | Reading (arraybuffer : bool).

Record request := Request {
  url : string;
  onLoad : option onload;
  onError : option nat;
  waiting : stage
}.

Record loader := Loader {
  responseType : string;
  mimeType : option string;
  requestHeader : list (string * string);
  withCredentials : bool;
  _cache : gmap string data;
  pending : list request;
  log : list entry
}.

(** [new FileLoader()]. *)
Definition create : loader :=
  Loader "arraybuffer" None [] false ∅ [] [].

Definition setResponseType (rt : string) (st : loader) : loader :=
  Loader rt (mimeType st) (requestHeader st) (withCredentials st)
         (_cache st) (pending st) (log st).

Definition setMimeType (mt : string) (st : loader) : loader :=
  Loader (responseType st) (Some mt) (requestHeader st) (withCredentials st)
         (_cache st) (pending st) (log st).

(** [setRequestHeader(h)]: [h || {}], [None] standing for a missing [h]. *)
Definition setRequestHeader (h : option (list (string * string))) (st : loader)
    : loader :=
  Loader (responseType st) (mimeType st) (default [] h) (withCredentials st)
         (_cache st) (pending st) (log st).

Definition setWithCredentials (v : bool) (st : loader) : loader :=
  Loader (responseType st) (mimeType st) (requestHeader st) v
         (_cache st) (pending st) (log st).

Section Callbacks.
(** The callbacks that throw when they are called.  Callbacks are taken
    not to call the loader themselves. *)
Variable throws : nat -> bool.

(** [onLoad?.(data)]: the log, and what was thrown if anything. *)
Definition call_onLoad (cb : option onload) (d : data) (l : list entry)
    : list entry * option error :=
  match cb with
  | None => (l, None)
  | Some (UserOnLoad id) =>
      (l ++ [OnLoad id (Data d)], if throws id then Some (Thrown id) else None)
  | Some (GltfOnLoad None _) => (l, None)
  | Some (GltfOnLoad (Some id) onError) =>
      (* try { onLoad?.({ ... }) } catch (e) { onError?.(e) } *)
      if throws id then
        match onError with
        | None => (l ++ [OnLoad id Scene], None)
        | Some eid =>
            (l ++ [OnLoad id Scene; OnError eid (Thrown id)],
             if throws eid then Some (Thrown eid) else None)
        end
      else (l ++ [OnLoad id Scene], None)
  end.

(** [.catch((err) => onError?.(err))]: what [onError] throws is lost. *)
Definition call_onError (cb : option nat) (e : error) (l : list entry)
    : list entry :=
  match cb with
  | None => l
  | Some id => l ++ [OnError id e]
  end.

Definition with_log (l : list entry) (st : loader) : loader :=
  Loader (responseType st) (mimeType st) (requestHeader st) (withCredentials st)
         (_cache st) (pending st) l.

(** [load(url, onLoad, onProgress, onError)]; [onProgress] is not used. *)
Definition load (u : string) (onLoad : option onload) (onError : option nat)
    (st : loader) : loader * outcome :=
  match _cache st !! u with
  | Some d =>
      let '(l, thrown) := call_onLoad onLoad d (log st) in
      (with_log l st, match thrown with Some _ => Threw | None => Returned end)
  | None =>
      (Loader (responseType st) (mimeType st) (requestHeader st)
              (withCredentials st) (_cache st)
              (pending st ++ [Request u onLoad onError Fetching])
              (log st ++ [Fetch u (requestHeader st)
                            (if withCredentials st then "include"
                             else "same-origin")]),
       Returned)
  end.

(** The [fetch] of the [k]-th request in flight settles: it rejects
    ([None]) or gives a response with its [ok] and [status]. *)
Definition respond (k : nat) (res : option (bool * nat)) (st : loader) : loader :=
  match pending st !! k with
  | Some (Request u onLoad onError Fetching) =>
      match res with
      | None =>
          Loader (responseType st) (mimeType st) (requestHeader st)
                 (withCredentials st) (_cache st) (delete k (pending st))
                 (call_onError onError NetworkError (log st))
      | Some (false, status) =>
          Loader (responseType st) (mimeType st) (requestHeader st)
                 (withCredentials st) (_cache st) (delete k (pending st))
                 (call_onError onError (HTTP status) (log st))
      | Some (true, _) =>
          Loader (responseType st) (mimeType st) (requestHeader st)
                 (withCredentials st) (_cache st)
                 (<[k := Request u onLoad onError
                           (Reading (String.eqb (responseType st) "arraybuffer"))]>
                    (pending st))
                 (log st)
      end
  | _ => st
  end.

(** The body of the [k]-th request in flight settles: it rejects ([None])
    or gives the bytes. *)
Definition body (k : nat) (raw : option string) (st : loader) : loader :=
  match pending st !! k with
  | Some (Request u onLoad onError (Reading arraybuffer)) =>
      match raw with
      | None =>
          Loader (responseType st) (mimeType st) (requestHeader st)
                 (withCredentials st) (_cache st) (delete k (pending st))
                 (call_onError onError BodyError (log st))
      | Some raw =>
          let d := if arraybuffer then ArrayBuffer raw else Text raw in
          let '(l, thrown) := call_onLoad onLoad d (log st) in
          Loader (responseType st) (mimeType st) (requestHeader st)
                 (withCredentials st) (<[u := d]> (_cache st))
                 (delete k (pending st))
                 (match thrown with
                  | Some e => call_onError onError e l
                  | None => l
                  end)
      end
  | _ => st
  end.
End Callbacks.

(** The requests sent so far. *)
Definition fetches (l : list entry) : list string :=
  omap (fun e => match e with Fetch u _ _ => Some u | _ => None end) l.
End FileLoader.

Module GLTFLoader.
(** [load(url, onLoad, onProgress, onError)]:
    [new FileLoader().setResponseType("arraybuffer").load(url, ..., onError)]
    where the [onLoad] given to the file loader is the closure around the
    caller's callbacks.  The state is the file loader made for the call. *)
Definition load (throws : nat -> bool) (u : string) (onLoad onError : option nat)
    : FileLoader.loader * outcome :=
  FileLoader.load throws u (Some (FileLoader.GltfOnLoad onLoad onError)) onError
    (FileLoader.setResponseType "arraybuffer" FileLoader.create).
End GLTFLoader.

(** ** [IntroLoader]: the eyes that follow the pointer (reference.js) *)

Module IntroLoader.
Local Open Scope Q_scope.

(** The part of the loader that [onPointerMove], [onRAF] and
    [getBtnCenter] work on.  [left] and [right] are the transforms
    written to the two eye elements, when the elements exist. *)
Record state := State {
  has_left : bool;
  has_right : bool;
  left : option Vec2;
  right : option Vec2;
  btnCenterX : Q;
  btnCenterY : Q;
  maxMovementX : Q;
  maxMovementY : Q;
  current : Vec2;
  mouse : Vec2;
  currentDist : Q
}.

(** The values the constructor gives. *)
Definition create (has_left has_right : bool) : state :=
  State has_left has_right None None 0 0 8 12 (Vec 0 0) (Vec 0 0) 0.

(** [getBtnCenter()], for the bounding rectangle of the enter button
    ([None] when there is no button). *)
Definition getBtnCenter (r : option (Q * Q * Q * Q)) (st : state) : state :=
  match r with
  | None => st
  | Some (rleft, rtop, rwidth, rheight) =>
      State (has_left st) (has_right st) (left st) (right st)
            (rleft + rwidth / 2) (rtop + rheight / 2)
            (maxMovementX st) (maxMovementY st)
            (current st) (mouse st) (currentDist st)
  end.

(** [onPointerMove()], for [G.mouse.x], [G.mouse.y], [G.window.w] and
    [G.window.h]. *)
Definition onPointerMove (gx gy w h : Q) (st : state) : state :=
  State (has_left st) (has_right st) (left st) (right st)
        (btnCenterX st) (btnCenterY st) (maxMovementX st) (maxMovementY st)
        (current st)
        (Vec ((gx - btnCenterX st) / w * 2) ((gy - btnCenterY st) / h * 2))
        (currentDist st).

(** [const lerp = (a, b, t) => a + (b - a) * t]. *)
Definition lerp (a b t : Q) : Q := a + (b - a) * t.

Section Frame.
(** [Math.hypot]. *)
Variable hypot : Q -> Q -> Q.

(** [onRAF()].  On a number of the model [v || 0] is [v]. *)
Definition onRAF (st : state) : state :=
  let e := Qmin (y (mouse st)) 3 in
  let cx := lerp (x (current st)) (x (mouse st)) (1 # 10) in
  let cy := lerp (y (current st)) e (1 # 10) in
  let dist := hypot (x (mouse st)) (y (mouse st)) in
  let dx := cx * maxMovementX st in
  let dy := cy * maxMovementY st in
  State (has_left st) (has_right st)
        (if has_left st then Some (Vec dx dy) else left st)
        (if has_right st then Some (Vec dx dy) else right st)
        (btnCenterX st) (btnCenterY st) (maxMovementX st) (maxMovementY st)
        (Vec cx cy) (mouse st)
        (lerp (currentDist st) dist (9 # 100)).

(** [n] frames in a row. *)
Fixpoint frames (n : nat) (st : state) : state :=
  match n with
  | O => st
  | S n' => frames n' (onRAF st)
  end.
End Frame.

(** The part of the way left after [n] frames. *)
Fixpoint remaining (n : nat) : Q :=
  match n with
  | O => 1
  | S n' => (9 # 10) * remaining n'
  end.
End IntroLoader.

(** ** [MagneticButton] (button.tsx) *)

Module MagneticButton.
Local Open Scope Q_scope.


(** The state of the component: [hover], [selected], the motion values
    [mx], [my], and the number of calls made to [onSelect]. *)
Record state := State {
  hover : bool;
  selected : bool;
  mx : Q;
  my : Q;
  selects : nat
}.

Definition initial : state := State false false 0 0 0.


(** [onMouseEnter]. *)
Definition onMouseEnter (st : state) : state :=
  State true (selected st) (mx st) (my st) (selects st).


(** [toggle()], for the props [selectable] and whether [onSelect] is
    given. *)
Definition toggle (selectable has_onSelect : bool) (st : state) : state :=
  if selectable then
    State (hover st) (negb (selected st)) (mx st) (my st)
          (if has_onSelect then S (selects st) else selects st)
  else st.
End MagneticButton.

(** ** [FitPlane] of the peel demo *)

Module PeelDemo.
Local Open Scope Q_scope.

(** [tex.image]: each size is a number or is not there. *)
Record image := Image {
  naturalWidth : option Q;
  width : option Q;
  naturalHeight : option Q;
  height : option Q
}.

(** A number that counts as true. *)
Definition truthy (a : option Q) : bool :=
  match a with
  | Some q => negb (Qeq_bool q 0)
  | None => false
  end.

(** [a || b]. *)
Definition or_else (a b : option Q) : option Q := if truthy a then a else b.

(** [img && (a || b) ? (a || b) : fallback]. *)
Definition size_or (img : option image) (a b : image -> option Q) (fallback : Q)
    : Q :=
  match img with
  | Some i =>
      match or_else (a i) (b i) with
      | Some q => if truthy (Some q) then q else fallback
      | None => fallback
      end
  | None => fallback
  end.

(** The [args] of the plane geometry: its width and height, for the image
    of the texture and the width of the viewport. *)
Definition FitPlane (img : option image) (viewport_width : Q) : Q * Q :=
  let w := size_or img naturalWidth width 3 in
  let h := size_or img naturalHeight height 2 in
  let ratio := w / h in
  let width := viewport_width * (7 # 10) in
  let height := width / ratio in
  (width, height).

(** The sizes that are there are not negative. *)
Definition sizes_ok (img : option image) : Prop :=
  match img with
  | Some i =>
      forall q, In (Some q) [naturalWidth i; width i; naturalHeight i; height i] ->
                0 <= q
  | None => True
  end.
End PeelDemo.

(** ** [Button] (reference.js) *)

Module Button.
(** The element a button is made for: the attributes and sizes the
    constructor reads, the children it looks for, and the listeners on
    it, in the order they were added. *)
Record element := Element {
  href : option string;
  dataset_btn : option string;
  dataset_togglecontent : option string;
  clientWidth : Q;
  clientHeight : Q;
  inner : option nat;     (* [querySelector(".js-btn-inner")] *)
  content : option nat;
  icon : option nat;
  listeners : list (string * nat)
}.

Definition with_listeners (l : list (string * nat)) (el : element) : element :=
  Element (href el) (dataset_btn el) (dataset_togglecontent el)
          (clientWidth el) (clientHeight el) (inner el) (content el) (icon el) l.

(** [addEventListener]: a listener that is there already is not added
    again. *)
Definition addEventListener (type : string) (fn : nat) (el : element) : element :=
  if bool_decide ((type, fn) ∈ listeners el) then el
  else with_listeners (listeners el ++ [(type, fn)]) el.

Definition removeEventListener (type : string) (fn : nat) (el : element)
    : element :=
  with_listeners
    (List.filter (fun l => negb (bool_decide (l = (type, fn)))) (listeners el)) el.

(** [s || fallback] for a string that may be missing. *)
Definition string_or (s : option string) (fallback : string) : string :=
  match s with
  | Some EmptyString | None => fallback
  | Some s => s
  end.

(** The fields of a button; the three handlers are the functions made by
    [bind] in [_addEvents], named by their identity. *)
Record button := MkButton {
  buttonType : string;
  togglecontent : string;
  dom_inner : option nat;   (* [None]: the element itself *)
  btnWidth : Q;
  btnHeight : Q;
  _mouseEnter : nat;
  _mouseLeave : nat;
  _onClick : nat
}.

(** Whether [_addEvents] listens to clicks: [!href || href.startsWith("#")]. *)
Definition intercepts_click (el : element) : bool :=
  let h := string_or (href el) EmptyString in
  match h with
  | EmptyString => true
  | _ => String.prefix "#" h
  end.

(** [new Button(el)]; [next] is the first function identity not in use.
    Given back: the button, the element with its listeners, and the next
    identity. *)
Definition create (next : nat) (el : element) : button * element * nat :=
  let b := MkButton (string_or (dataset_btn el) "border")
                    (string_or (dataset_togglecontent el) "none")
                    (inner el) (clientWidth el) (clientHeight el)
                    next (S next) (S (S next)) in
  let el1 := addEventListener "mouseenter" (_mouseEnter b) el in
  let el2 := addEventListener "mouseleave" (_mouseLeave b) el1 in
  let el3 := if intercepts_click el
             then addEventListener "click" (_onClick b) el2 else el2 in
  (b, el3, S (S (S next))).

(** [destroy()]. *)
Definition destroy (b : button) (el : element) : element :=
  removeEventListener "click" (_onClick b)
    (removeEventListener "mouseleave" (_mouseLeave b)
       (removeEventListener "mouseenter" (_mouseEnter b) el)).
End Button.

(** * Properties of the model *)

(** ** The sort *)

Section SortFacts.
Context {A : Type}.
Variable comparefn : A -> A -> Z.

Lemma find_insertion_point_range fuel pivot (a : list A) left right :
  (left <= right)%nat ->
  (left <= JsArray.find_insertion_point comparefn fuel pivot a left right
        <= right)%nat.
Proof.
  revert left right.
  induction fuel as [|fuel IH]; intros left right Hlr;
    cbn [JsArray.find_insertion_point]; [lia|].
  destruct (Nat.ltb_spec left right) as [Hlt|]; [|lia].
  assert (Hmid : (left <= left + (right - left) / 2 < right)%nat).
  { split; [lia|].
    assert ((right - left) / 2 < right - left)%nat
      by (apply Nat.div_lt; lia).
    lia. }
  cbv zeta. set (mid := (left + (right - left) / 2)%nat) in *.
  destruct (a !! mid) as [e|]; [|lia].
  destruct (comparefn pivot e <? 0).
  - specialize (IH left mid). lia.
  - specialize (IH (S mid) right). lia.
Qed.

Lemma insert_pivot_Permutation (a : list A) start :
  JsArray.insert_pivot comparefn a start ≡ₚ a.
Proof.
  unfold JsArray.insert_pivot.
  destruct (a !! start) as [pivot|] eqn:Hp; [|done].
  set (left := JsArray.find_insertion_point _ _ _ _ _ _).
  rewrite <-(take_drop_middle a start pivot Hp) at 4.
  rewrite <-(take_drop left (take start a)) at 2.
  rewrite take_take.
  assert (left <= start)%nat as Hle
    by (pose proof (find_insertion_point_range start pivot a 0 start); lia).
  rewrite Nat.min_l by done.
  rewrite <-!app_assoc. f_equiv.
  by rewrite Permutation_middle.
Qed.

Lemma insertion_rounds_Permutation n start (a : list A) :
  JsArray.insertion_rounds comparefn n start a ≡ₚ a.
Proof.
  revert start a. induction n as [|n IH]; intros start a; simpl; [done|].
  by rewrite IH, insert_pivot_Permutation.
Qed.

Lemma CountAndMakeRun_Permutation (a : list A) :
  (JsArray.CountAndMakeRun comparefn a).1 ≡ₚ a.
Proof.
  destruct a as [|x [|y rest]]; [done..|].
  unfold JsArray.CountAndMakeRun.
  destruct (comparefn y x <? 0); [|done].
  cbn [fst]. by rewrite reverse_Permutation, take_drop.
Qed.

(** The sort returns a rearrangement of its input, whatever the
    comparator answers. *)
Lemma sort_Permutation (a : list A) : JsArray.sort comparefn a ≡ₚ a.
Proof.
  unfold JsArray.sort.
  destruct (length a <? 2)%nat; [done|].
  pose proof (CountAndMakeRun_Permutation a) as Hrun.
  destruct (JsArray.CountAndMakeRun comparefn a) as [a1 n]; simpl in Hrun.
  destruct (n <? length a)%nat; [|done].
  unfold JsArray.BinaryInsertionSort.
  by rewrite insertion_rounds_Permutation.
Qed.
End SortFacts.

(** Sortedness.  [Rin] is an order the input is already in (the order of
    registration), [Rout] the order claimed for the output.  The three
    hypotheses say what an answer of the comparator lets one conclude; both
    comparators of the repository meet them, each for its own [Rout]. *)
Section SortSorted.
Context {A : Type}.
Variable comparefn : A -> A -> Z.
Variables Rin Rout : relation A.
Context `{!Transitive Rout}.
Hypothesis ge_after : forall e p, Rin e p -> 0 <= comparefn p e -> Rout e p.
Hypothesis lt_before : forall e p, Rin e p -> comparefn p e < 0 -> Rout p e.
Hypothesis lt_mono :
  forall p e e', Rout e e' -> comparefn p e < 0 -> comparefn p e' < 0.

Lemma StronglySorted_lookup_lt (T : relation A) (l : list A) i j x y :
  StronglySorted T l -> (i < j)%nat ->
  l !! i = Some x -> l !! j = Some y -> T x y.
Proof.
  intros Hl Hij Hi Hj.
  rewrite <-(take_drop j l) in Hl.
  apply (StronglySorted_app_1_elem_of _ _ _ _ _ Hl).
  - apply elem_of_take. eauto.
  - apply list_elem_of_lookup. exists 0%nat.
    by rewrite lookup_drop, Nat.add_0_r.
Qed.

Lemma find_insertion_point_split pivot (a : list A) start :
  (start <= length a)%nat ->
  StronglySorted Rout (take start a) ->
  forall fuel left right,
    (left <= right <= start)%nat -> (right - left <= fuel)%nat ->
    (forall j e, (j < left)%nat -> a !! j = Some e ->
                 0 <= comparefn pivot e) ->
    (forall j e, (right <= j < start)%nat -> a !! j = Some e ->
                 comparefn pivot e < 0) ->
    let k := JsArray.find_insertion_point comparefn fuel pivot a left right in
    (forall j e, (j < k)%nat -> a !! j = Some e -> 0 <= comparefn pivot e) /\
    (forall j e, (k <= j < start)%nat -> a !! j = Some e ->
                 comparefn pivot e < 0).
Proof.
  intros Hlen Hsorted.
  assert (Hord : forall i j x y, (i < j < start)%nat ->
            a !! i = Some x -> a !! j = Some y -> Rout x y).
  { intros i j x y [Hij Hj] Hx Hy.
    apply (StronglySorted_lookup_lt Rout (take start a) i j); [done..| |];
      rewrite lookup_take_lt by lia; done. }
  induction fuel as [|fuel IH]; intros left right Hlr Hfuel Hlo Hhi;
    cbn [JsArray.find_insertion_point].
  { cbv zeta. split; [done|]. intros j e Hj. apply Hhi. lia. }
  destruct (Nat.ltb_spec left right) as [Hlt|Hge].
  2:{ cbv zeta. split; [done|]. intros j e Hj. apply Hhi. lia. }
  assert (Hmid : (left <= left + (right - left) / 2 < right)%nat).
  { split; [lia|].
    assert ((right - left) / 2 < right - left)%nat
      by (apply Nat.div_lt; lia).
    lia. }
  cbv zeta. set (mid := (left + (right - left) / 2)%nat) in *.
  destruct (lookup_lt_is_Some_2 a mid) as [e He]; [lia|].
  rewrite He.
  destruct (Z.ltb_spec (comparefn pivot e) 0) as [Hneg|Hpos].
  - apply IH; [lia|lia|done|].
    intros j e' Hj He'.
    destruct (decide (j = mid)) as [->|Hne]; [congruence|].
    apply (lt_mono pivot e e'); [|done].
    apply (Hord mid j); [lia|done..].
  - apply IH; [lia|lia| |done].
    intros j e' Hj He'.
    destruct (decide (j = mid)) as [->|Hne]; [congruence|].
    destruct (Z.ltb_spec (comparefn pivot e') 0) as [Hneg'|]; [|done].
    assert (comparefn pivot e < 0); [|lia].
    apply (lt_mono pivot e' e); [|done].
    apply (Hord j mid); [lia|done..].
Qed.

Local Abbreviation insertion_inv := (JsArray.insertion_inv Rin Rout).

Lemma insert_pivot_inv (a : list A) start :
  (start < length a)%nat ->
  insertion_inv start a ->
  insertion_inv (S start) (JsArray.insert_pivot comparefn a start).
Proof.
  intros Hlen (Hpre & Hpost & Hcross).
  unfold JsArray.insert_pivot.
  destruct (lookup_lt_is_Some_2 a start Hlen) as [pivot Hp]. rewrite Hp.
  set (left := JsArray.find_insertion_point _ _ _ _ _ _).
  assert (left <= start)%nat as Hle
    by (pose proof (find_insertion_point_range comparefn
                      start pivot a 0 start); lia).
  destruct (find_insertion_point_split pivot a start ltac:(lia) Hpre
              start 0%nat start) as [Hlo Hhi]; [lia|lia|lia|lia|].
  fold left in Hlo, Hhi.
  assert (Hdrop : drop start a = pivot :: drop (S start) a)
    by (by apply drop_S).
  rewrite Hdrop in Hpost, Hcross.
  apply StronglySorted_cons in Hpost as [Hpivot Hpost].
  rewrite Forall_forall in Hpivot.
  assert (Hsplit : take start a = take left a ++ drop left (take start a)).
  { rewrite <-(take_drop left (take start a)) at 1.
    by rewrite take_take, Nat.min_l. }
  assert (Hlen1 : length (take left a ++ pivot :: drop left (take start a))
                  = S start).
  { rewrite length_app; simpl.
    rewrite length_drop, !length_take. lia. }
  assert (Hbefore : forall e, e ∈ take left a -> Rout e pivot).
  { intros e (j & He & Hj)%elem_of_take.
    apply ge_after; [|by eapply Hlo].
    apply Hcross; [|by left].
    apply elem_of_take. exists j. split; [done|lia]. }
  assert (Hafter : forall e, e ∈ drop left (take start a) -> Rout pivot e).
  { intros e (j & He)%list_elem_of_lookup.
    rewrite lookup_drop in He.
    apply lookup_take_Some in He as [He Hj].
    apply lt_before; [|apply (Hhi (left + j)%nat); [lia|done]].
    apply Hcross; [|by left].
    apply elem_of_take. eauto. }
  rewrite Hsplit in Hpre. apply StronglySorted_app in Hpre as (H12 & H1 & H2).
  unfold JsArray.insertion_inv.
  replace (take left a ++ pivot :: drop left (take start a)
             ++ drop (S start) a)
    with ((take left a ++ pivot :: drop left (take start a))
            ++ drop (S start) a)
    by (by rewrite <-app_assoc).
  rewrite take_app_length', drop_app_length' by done.
  split_and!.
  - apply StronglySorted_app_2; [|done|].
    + intros x1 x2 Hx1 [->|Hx2]%elem_of_cons; [by apply Hbefore|].
      by apply H12.
    + apply StronglySorted_cons. split; [|done].
      by apply Forall_forall.
  - done.
  - intros x y [Hx|[->|Hx]%elem_of_cons]%elem_of_app Hy.
    + apply Hcross; [|by right]. rewrite Hsplit, elem_of_app. by left.
    + by apply Hpivot.
    + apply Hcross; [|by right]. rewrite Hsplit, elem_of_app. by right.
Qed.

Lemma insertion_rounds_inv n start (a : list A) :
  (start + n <= length a)%nat ->
  insertion_inv start a ->
  insertion_inv (start + n) (JsArray.insertion_rounds comparefn n start a).
Proof.
  revert start a. induction n as [|n IH]; intros start a Hlen Hinv; simpl.
  { by rewrite Nat.add_0_r. }
  replace (start + S n)%nat with (S start + n)%nat by lia.
  apply IH.
  - rewrite (Permutation_length (insert_pivot_Permutation comparefn a start)).
    lia.
  - apply insert_pivot_inv; [lia|done].
Qed.

Lemma run_tail_length isDescending prev (l : list A) :
  (JsArray.run_tail comparefn isDescending prev l <= length l)%nat.
Proof.
  revert prev. induction l as [|cur l IH]; intros prev; simpl; [lia|].
  specialize (IH cur).
  destruct isDescending; [destruct (0 <=? _)|destruct (_ <? 0)]; lia.
Qed.

Lemma run_tail_descending prev (l : list A) :
  StronglySorted Rin (prev :: l) ->
  Sorted (flip Rout)
    (prev :: take (JsArray.run_tail comparefn true prev l) l).
Proof.
  revert prev. induction l as [|cur l IH]; intros prev Hin; simpl.
  { repeat constructor. }
  apply StronglySorted_cons in Hin as [Hprev Hin].
  destruct (Z.leb_spec 0 (comparefn cur prev)); simpl.
  { repeat constructor. }
  constructor; [by apply IH|]. constructor.
  apply lt_before; [|done]. by apply Forall_cons in Hprev as [? _].
Qed.

Lemma run_tail_ascending prev (l : list A) :
  StronglySorted Rin (prev :: l) ->
  Sorted Rout (prev :: take (JsArray.run_tail comparefn false prev l) l).
Proof.
  revert prev. induction l as [|cur l IH]; intros prev Hin; simpl.
  { repeat constructor. }
  apply StronglySorted_cons in Hin as [Hprev Hin].
  destruct (Z.ltb_spec (comparefn cur prev) 0); simpl.
  { repeat constructor. }
  constructor; [by apply IH|]. constructor.
  apply ge_after; [|done]. by apply Forall_cons in Hprev as [? _].
Qed.

Lemma StronglySorted_flip_reverse (T : relation A) (l : list A) :
  StronglySorted (flip T) l -> StronglySorted T (reverse l).
Proof.
  induction 1 as [|x l Hl IH Hx]; [constructor|].
  rewrite reverse_cons. apply StronglySorted_app_2; [|done|].
  - intros x1 x2 Hx1 ->%list_elem_of_singleton.
    rewrite elem_of_reverse in Hx1.
    rewrite Forall_forall in Hx. by apply (Hx x1).
  - repeat constructor.
Qed.

Lemma CountAndMakeRun_inv (a : list A) :
  StronglySorted Rin a ->
  let '(a1, n) := JsArray.CountAndMakeRun comparefn a in
  (n <= length a)%nat /\ (2 <= length a -> 2 <= n)%nat /\
  insertion_inv n a1.
Proof.
  intros Hin. destruct a as [|hi [|lo rest]]; simpl.
  - split; [lia|]. split; [lia|].
    unfold JsArray.insertion_inv; simpl. split_and!; [constructor..|set_solver].
  - split; [lia|]. split; [lia|].
    unfold JsArray.insertion_inv; simpl.
    split_and!; [repeat constructor..|set_solver].
  - pose proof (run_tail_length (comparefn lo hi <? 0) lo rest) as Hn.
    set (n := JsArray.run_tail _ _ _ _) in *.
    split; [lia|]. split; [lia|].
    pose proof Hin as [Hhi Hlo]%StronglySorted_cons.
    apply Forall_cons in Hhi as [Hhilo _].
    pose proof Hin as Happ.
    rewrite <-(take_drop (S (S n)) (hi :: lo :: rest)) in Happ.
    apply StronglySorted_app in Happ as (Hcross & _ & Hpost).
    destruct (Z.ltb_spec (comparefn lo hi) 0) as [Hneg|Hpos].
    + assert (Hrun : StronglySorted Rout
                (reverse (hi :: lo :: take n rest))).
      { apply StronglySorted_flip_reverse, Sorted.Sorted_StronglySorted.
        { intros x y z Hxy Hyz. unfold flip in *. by transitivity y. }
        constructor; [by apply run_tail_descending|].
        constructor. by apply lt_before. }
      unfold JsArray.insertion_inv.
      rewrite take_app_length', drop_app_length'
        by (rewrite length_reverse; simpl; rewrite length_take; lia).
      split_and!; [done..|].
      intros x y Hx Hy. rewrite elem_of_reverse in Hx. by apply Hcross.
    + unfold JsArray.insertion_inv. split_and!; [|done..].
      apply Sorted_StronglySorted; [done|].
      simpl. constructor; [by apply run_tail_ascending|].
      constructor. by apply ge_after.
Qed.

(** An input in the order [Rin] comes out in the order [Rout]. *)
Lemma sort_StronglySorted (a : list A) :
  StronglySorted Rin a -> StronglySorted Rout (JsArray.sort comparefn a).
Proof.
  intros Hin. unfold JsArray.sort.
  destruct (Nat.ltb_spec (length a) 2) as [Hshort|Hlong].
  { destruct a as [|x [|y a]]; simpl in Hshort; [..|lia];
      repeat constructor. }
  pose proof (CountAndMakeRun_inv a Hin) as Hrun.
  pose proof (CountAndMakeRun_Permutation comparefn a) as Hperm.
  destruct (JsArray.CountAndMakeRun comparefn a) as [a1 n].
  destruct Hrun as (Hn & Hn2 & Hinv). simpl in Hperm.
  apply Permutation_length in Hperm.
  destruct (Nat.ltb_spec n (length a)) as [Hlt|Hge].
  - unfold JsArray.BinaryInsertionSort.
    destruct (Nat.eqb_spec n 0) as [->|_]; [lia|].
    pose proof (insertion_rounds_inv (length a - n) n a1
                  ltac:(lia) Hinv) as (Hsorted & _).
    rewrite take_ge in Hsorted; [done|].
    rewrite (Permutation_length
               (insertion_rounds_Permutation comparefn _ _ _)).
    lia.
  - destruct Hinv as (Hsorted & _).
    rewrite take_ge in Hsorted by lia. done.
Qed.
End SortSorted.

Lemma StronglySorted_weaken {A} (T T' : relation A) (l : list A) :
  (forall a b, T a b -> T' a b) -> StronglySorted T l -> StronglySorted T' l.
Proof.
  intros Himpl. induction 1 as [|a l Hl IH Ha]; constructor; [done|].
  eapply Forall_impl; [done|]. apply Himpl.
Qed.

(** ** The two comparators *)

Section Comparators.
Import RuntimeProvider.

#[local] Instance runs_before_trans : Transitive runs_before.
Proof. intros a b c. unfold runs_before. lia. Qed.

Lemma runs_before_antisym (a b : Entry) :
  runs_before a b -> runs_before b a -> a = b.
Proof. unfold runs_before. lia. Qed.

Lemma onRaf_sort_sorted (l : list Entry) :
  StronglySorted ties_in_order l ->
  StronglySorted runs_before (JsArray.sort compare l).
Proof.
  apply sort_StronglySorted; [apply _|..];
    unfold ties_in_order, runs_before, compare; intros; lia.
Qed.

Lemma add_sort_sorted (l : list RAFCollection.item) :
  StronglySorted (fun a b => RAFCollection.index a <= RAFCollection.index b)
    (JsArray.sort RAFCollection.compare l).
Proof.
  apply (sort_StronglySorted _ (fun _ _ => True)).
  - intros a b c. lia.
  - unfold RAFCollection.compare. intros e p _.
    destruct (Z.gtb_spec (RAFCollection.index p) (RAFCollection.index e)); lia.
  - unfold RAFCollection.compare. intros e p _.
    destruct (Z.gtb_spec (RAFCollection.index p) (RAFCollection.index e)); lia.
  - unfold RAFCollection.compare. intros p e e'.
    destruct (Z.gtb_spec (RAFCollection.index p) (RAFCollection.index e));
      destruct (Z.gtb_spec (RAFCollection.index p) (RAFCollection.index e'));
      lia.
  - induction l; constructor; [done|]. by apply Forall_forall.
Qed.
End Comparators.

(** ** The frame queue of [RuntimeProvider] *)

Section RuntimeQueue.
Import RuntimeProvider.

Lemma subs_onRaf c i st :
  (subs_current st < length (arrays st))%nat ->
  subs (onRaf c i st).1 =
    JsArray.sort compare (subs st ++ [MkEntry (next_eid st) i c]).
Proof.
  intros Hr. unfold subs, array_at, onRaf; simpl.
  by rewrite list_lookup_insert_eq.
Qed.

Lemma subs_unsubscribe h st :
  subs (unsubscribe h st) =
    List.filter (fun x => negb (eid x =? h)%nat) (subs st).
Proof.
  unfold subs at 1, array_at, unsubscribe; simpl.
  by rewrite lookup_app_r, Nat.sub_diag.
Qed.

Lemma queue_ok_initial : queue_ok initial.
Proof. unfold queue_ok; simpl. split_and!; [lia|constructor..]. Qed.

Lemma queue_ok_onRaf c i st : queue_ok st -> queue_ok (onRaf c i st).1.
Proof.
  intros (Hr & Hsorted & Hfresh).
  unfold queue_ok. rewrite subs_onRaf by done.
  split_and!.
  - simpl. by rewrite length_insert.
  - apply onRaf_sort_sorted, StronglySorted_app_2.
    + intros a b Ha ->%list_elem_of_singleton.
      rewrite Forall_forall in Hfresh. intros _. simpl. by apply Hfresh.
    + eapply StronglySorted_weaken; [|done].
      unfold runs_before, ties_in_order. intros; lia.
    + repeat constructor.
  - rewrite (sort_Permutation compare). simpl.
    apply Forall_app. split.
    + eapply Forall_impl; [done|]. simpl. lia.
    + constructor; [simpl; lia|constructor].
Qed.

Lemma onRaf_all_from (regs : list (nat * Z)) st :
  queue_ok st ->
  let st' := foldl (fun st r => (onRaf r.1 r.2 st).1) st regs in
  queue_ok st' /\ subs st' ≡ₚ subs st ++ entries_from (next_eid st) regs.
Proof.
  revert st. induction regs as [|[c i] regs IH]; intros st Hok; simpl.
  { by rewrite app_nil_r. }
  destruct (IH (onRaf c i st).1 (queue_ok_onRaf c i st Hok)) as [Hok' Hperm].
  split; [done|]. rewrite Hperm.
  rewrite subs_onRaf by apply Hok. rewrite (sort_Permutation compare).
  by rewrite <-app_assoc.
Qed.

(** A tick in which a callback may throw but none subscribes or
    unsubscribes: the callbacks of the queue are called in the order of
    the array, up to the first that throws. *)
Lemma for_of_throwing throws t r st fuel i :
  (length (array_at r st) - i < fuel)%nat ->
  for_of (throwing throws) fuel r i t st =
    Some (State (arrays st) (subs_current st) (next_eid st)
            (invoked st ++
               ((fun c => (c, t)) <$>
                  until_throw throws (cb <$> drop i (array_at r st)))),
          if existsb throws (cb <$> drop i (array_at r st))
          then Threw else Returned).
Proof.
  revert i st. induction fuel as [|fuel IH]; intros i st Hfuel.
  { lia. }
  cbn [for_of].
  destruct (array_at r st !! i) as [e|] eqn:He.
  - pose proof (lookup_lt_Some _ _ _ He) as Hlt.
    rewrite (drop_S _ _ _ He). cbn [fmap list_fmap until_throw existsb].
    change (throwing throws (cb e) t)
      with (if throws (cb e) then [Throw] else []).
    destruct (throws (cb e)); cbn [run orb].
    + by destruct st.
    + change (array_at r st) with (array_at r (record (cb e) t st)) in *.
      rewrite IH by lia.
      simpl. by rewrite <-app_assoc.
  - apply lookup_ge_None in He. rewrite drop_ge by lia.
    destruct st. simpl. by rewrite app_nil_r.
Qed.
End RuntimeQueue.

(** ** [RAFCollection] *)

Section Collection.
Import RAFCollection.

Lemma callbacks_sorted (regs : list (nat * Z)) :
  StronglySorted (fun a b => index a <= index b) (callbacks (add_all regs)).
Proof.
  unfold add_all.
  destruct regs as [|r regs _] using rev_ind; [constructor|].
  rewrite foldl_app. simpl. apply add_sort_sorted.
Qed.

(** [_onRAF] when no callback adds or removes: every callback of the
    array is called, whether or not one before it has thrown. *)
Lemma _onRAF_from_throwing throws t st fuel i :
  (length (callbacks st) - i < fuel)%nat ->
  _onRAF_from (throwing throws) fuel i t st =
    Some (State (callbacks st)
            (invoked st ++ ((fun c => (c, t)) <$> (cb <$> drop i (callbacks st))))).
Proof.
  revert i st. induction fuel as [|fuel IH]; intros i st Hfuel; [lia|].
  cbn [_onRAF_from].
  destruct (callbacks st !! i) as [it|] eqn:Hit.
  - pose proof (lookup_lt_Some _ _ _ Hit) as Hlt.
    rewrite (drop_S _ _ _ Hit). cbn [fmap list_fmap].
    change (throwing throws (cb it) t)
      with (if throws (cb it) then [Throw] else []).
    destruct (throws (cb it)); cbn [run];
      (rewrite IH by (simpl; lia)); simpl; by rewrite <-app_assoc.
  - apply lookup_ge_None in Hit. rewrite drop_ge by lia.
    destruct st. simpl. by rewrite app_nil_r.
Qed.
End Collection.

Section RuntimeTick.
Import RuntimeProvider.

Lemma run_unsubscribing_arrays (hs : list nat) st :
  let st' := (run (Unsubscribe <$> hs) st).1 in
  (run (Unsubscribe <$> hs) st).2 = Returned /\
  invoked st' = invoked st /\
  (exists more, arrays st' = arrays st ++ more) /\
  (subs_current st < length (arrays st) ->
   subs_current st' < length (arrays st'))%nat /\
  (forall e, e ∈ subs st' -> e ∈ subs st /\ eid e ∉ hs).
Proof.
  revert st. induction hs as [|h hs IH]; intros st.
  { simpl.
    split_and!; [done..|by exists []; rewrite app_nil_r|done|set_solver]. }
  rewrite fmap_cons. cbn [run].
  destruct (IH (unsubscribe h st)) as (Hret & Hinv & [more Harr] & Hcur & Hsubs).
  cbv zeta in *.
  split; [done|]. split; [done|]. split; [|split].
  - exists ([List.filter (fun x => negb (eid x =? h)%nat) (subs st)] ++ more).
    rewrite Harr. simpl. by rewrite <-app_assoc.
  - intros _. apply Hcur. simpl. rewrite length_app. simpl. lia.
  - intros e He. apply Hsubs in He as [He Hnot].
    rewrite subs_unsubscribe in He.
    apply list_elem_of_In, List.filter_In in He as [He Hne].
    apply list_elem_of_In in He.
    apply negb_true_iff, Nat.eqb_neq in Hne.
    split; [done|]. by apply not_elem_of_cons.
Qed.

(** A tick in which the callbacks only unsubscribe: the loop goes through
    the array it started on, which no closure changes. *)
Lemma for_of_unsubscribing handles t r fuel i st :
  (r < length (arrays st))%nat ->
  (subs_current st < length (arrays st))%nat ->
  (length (array_at r st) - i < fuel)%nat ->
  exists st',
    for_of (unsubscribing handles) fuel r i t st = Some (st', Returned) /\
    invoked st' =
      invoked st ++ ((fun e => (cb e, t)) <$> drop i (array_at r st)) /\
    (forall e, e ∈ subs st' ->
       e ∈ subs st /\
       forall d, d ∈ drop i (array_at r st) -> eid e ∉ handles (cb d) t).
Proof.
  revert i st. induction fuel as [|fuel IH]; intros i st Hr Hcur Hfuel; [lia|].
  cbn [for_of].
  destruct (array_at r st !! i) as [e|] eqn:He.
  - pose proof (lookup_lt_Some _ _ _ He) as Hlt.
    rewrite (drop_S _ _ _ He). unfold unsubscribing at 1.
    destruct (run_unsubscribing_arrays (handles (cb e) t) (record (cb e) t st))
      as (Hret & Hinv & [more Harr] & Hcur' & Hsubs).
    destruct (run _ _) as [st1 o] eqn:Hrun. simpl in *. subst o.
    assert (Harr1 : array_at r st1 = array_at r st).
    { unfold array_at. rewrite Harr. by rewrite lookup_app_l. }
    destruct (IH (S i) st1) as (st' & Hfor & Hinv' & Hsubs').
    { rewrite Harr, length_app. lia. }
    { by apply Hcur'. }
    { rewrite Harr1. lia. }
    exists st'. split; [done|]. split.
    + rewrite Hinv', Hinv, Harr1. by rewrite <-app_assoc.
    + intros e' He'. apply Hsubs' in He' as [He' Hrest].
      apply Hsubs in He' as [He' Hnot]. split; [done|].
      intros d [->|Hd]%elem_of_cons; [done|].
      apply Hrest. by rewrite Harr1.
  - apply lookup_ge_None in He. rewrite drop_ge by lia.
    exists st. split; [done|]. split; [by rewrite app_nil_r|].
    intros e' He'. split; [done|]. intros d Hd. by apply elem_of_nil in Hd.
Qed.
End RuntimeTick.

(** ** The frame dispatchers: order, faults, unsubscribing *)

Section Dispatchers.

Lemma add_all_from (regs : list (nat * Z)) (st : RAFCollection.state) :
  let st' := foldl (fun st r => RAFCollection.add r.1 r.2 st) st regs in
  RAFCollection.callbacks st' ≡ₚ
    RAFCollection.callbacks st ++ ((fun r => RAFCollection.Item r.1 r.2) <$> regs) /\
  RAFCollection.invoked st' = RAFCollection.invoked st.
Proof.
  revert st. induction regs as [|r regs IH]; intros st; simpl.
  { by rewrite app_nil_r. }
  destruct (IH (RAFCollection.add r.1 r.2 st)) as [Hperm Hinv].
  split; [|done]. rewrite Hperm. simpl.
  rewrite (sort_Permutation RAFCollection.compare).
  by rewrite <-app_assoc.
Qed.

(** The order of the queue is the only one that puts the registered
    entries lower priority first and equal priorities by registration:
    whatever stable sort the engine uses gives the same array. *)
Lemma queue_order_unique (l l' : list RuntimeProvider.Entry) :
  StronglySorted RuntimeProvider.runs_before l ->
  StronglySorted RuntimeProvider.runs_before l' ->
  l' ≡ₚ l -> l' = l.
Proof.
  intros Hl Hl' Hperm.
  apply (StronglySorted_unique_strong RuntimeProvider.runs_before); [|done..].
  intros a b _ _. apply runs_before_antisym.
Qed.

Lemma onRaf_all_invoked (regs : list (nat * Z)) (st : RuntimeProvider.state) :
  RuntimeProvider.invoked
    (foldl (fun st r => (RuntimeProvider.onRaf r.1 r.2 st).1) st regs)
  = RuntimeProvider.invoked st.
Proof.
  revert st. induction regs as [|r regs IH]; intros st; simpl; [done|].
  by rewrite IH.
Qed.

Lemma until_throw_never (cs : list nat) :
  until_throw (fun _ => false) cs = cs.
Proof. induction cs as [|c cs IH]; simpl; [done|]. by rewrite IH. Qed.

Lemma entries_from_length n (regs : list (nat * Z)) :
  length (RuntimeProvider.entries_from n regs) = length regs.
Proof.
  revert n. induction regs as [|r regs IH]; intros n; simpl; [done|].
  by rewrite IH.
Qed.

(** C1.  In [RuntimeProvider], after any sequence of [onRaf] calls the
    queue holds exactly the registered entries, lower priority first and
    equal priorities in the order of registration, and a tick calls them
    in that order.  In [RAFCollection], after any sequence of [add] calls
    the callbacks are in non-decreasing priority and a tick calls them in
    the order of the array; but the comparator of [add] never answers 0,
    and two callbacks added with the same priority are called in the
    reverse of the order in which they were registered. *)
Theorem C1_priority_order_and_ties :
  (forall (regs : list (nat * Z)) (t : Q),
      let st := RuntimeProvider.onRaf_all regs in
      StronglySorted RuntimeProvider.runs_before (RuntimeProvider.subs st) /\
      RuntimeProvider.subs st ≡ₚ RuntimeProvider.entries_from 0 regs /\
      (forall l', StronglySorted RuntimeProvider.runs_before l' ->
                  l' ≡ₚ RuntimeProvider.entries_from 0 regs ->
                  l' = RuntimeProvider.subs st) /\
      (fun r => RuntimeProvider.invoked r.1.1) <$>
        RuntimeProvider.loop (RuntimeProvider.throwing (fun _ => false))
          (S (length regs)) t st
      = Some ((fun e => (RuntimeProvider.cb e, t)) <$> RuntimeProvider.subs st)) /\
  (forall (regs : list (nat * Z)) (t : Q),
      let st := RAFCollection.add_all regs in
      StronglySorted
        (fun a b => RAFCollection.index a <= RAFCollection.index b)
        (RAFCollection.callbacks st) /\
      RAFCollection.callbacks st ≡ₚ
        (fun r => RAFCollection.Item r.1 r.2) <$> regs /\
      RAFCollection.invoked <$>
        RAFCollection._onRAF (RAFCollection.throwing (fun _ => false))
          (S (length regs)) t st
      = Some ((fun it => (RAFCollection.cb it, t)) <$> RAFCollection.callbacks st)) /\
  (forall t : Q,
      let st := RAFCollection.add_all [(1%nat, 0); (2%nat, 0)] in
      RAFCollection.compare (RAFCollection.Item 1 0) (RAFCollection.Item 2 0) = -1 /\
      RAFCollection.compare (RAFCollection.Item 2 0) (RAFCollection.Item 1 0) = -1 /\
      RAFCollection.callbacks st
        = [RAFCollection.Item 2 0; RAFCollection.Item 1 0] /\
      RAFCollection.invoked <$>
        RAFCollection._onRAF (fun _ _ => []) 3 t st
      = Some [(2%nat, t); (1%nat, t)]).
Proof.
  split_and!.
  - intros regs t st.
    destruct (onRaf_all_from regs RuntimeProvider.initial queue_ok_initial)
      as [(Hcur & Hsorted & _) Hperm].
    fold (RuntimeProvider.onRaf_all regs) in Hcur, Hsorted, Hperm. fold st in Hcur, Hsorted, Hperm.
    simpl in Hperm.
    split; [done|]. split; [done|]. split.
    { intros l' Hl' Hperm'. apply queue_order_unique; [done..|].
      by rewrite Hperm. }
    unfold RuntimeProvider.loop.
    rewrite for_of_throwing.
    2:{ fold (RuntimeProvider.subs st).
        rewrite Hperm, entries_from_length. lia. }
    simpl. unfold st at 1, RuntimeProvider.onRaf_all.
    rewrite onRaf_all_invoked. simpl. f_equal.
    fold (RuntimeProvider.subs st). rewrite drop_0.
    by rewrite until_throw_never, <-list_fmap_compose.
  - intros regs t st.
    destruct (add_all_from regs RAFCollection.empty) as [Hperm Hinv].
    fold (RAFCollection.add_all regs) in Hperm, Hinv. fold st in Hperm, Hinv.
    simpl in Hperm, Hinv.
    split; [apply callbacks_sorted|]. split; [done|].
    unfold RAFCollection._onRAF.
    rewrite _onRAF_from_throwing
      by (rewrite Hperm, length_fmap; lia).
    simpl. rewrite Hinv, drop_0. simpl. f_equal.
    by rewrite <-list_fmap_compose.
  - intros t. cbv zeta. split_and!; reflexivity.
Qed.

(** C2.  In [RAFCollection] every call is wrapped in [try]/[catch]: a
    tick calls every callback of the array whichever of them throw, and
    the loop of [bootRuntime] then requests the next frame.  The loop of
    [RuntimeProvider] has requested the next frame before it calls the
    callbacks, but it does not catch: it stops at the first callback that
    throws, so that with callback 1 (priority 0) throwing, callback 2
    (priority 1) is not called in that tick. *)
Theorem C2_fault_isolation :
  (forall (throws : nat -> bool) (st : RAFCollection.state) (t : Q),
      RAFCollection.loop (RAFCollection.throwing throws)
        (S (length (RAFCollection.callbacks st))) t st
      = Some (RAFCollection.State (RAFCollection.callbacks st)
                (RAFCollection.invoked st ++
                   ((fun it => (RAFCollection.cb it, t)) <$>
                      RAFCollection.callbacks st)),
              true)) /\
  (forall (throws : nat -> bool) (st : RuntimeProvider.state) (t : Q),
      RuntimeProvider.loop (RuntimeProvider.throwing throws)
        (S (length (RuntimeProvider.subs st))) t st
      = Some (RuntimeProvider.State (RuntimeProvider.arrays st)
                (RuntimeProvider.subs_current st) (RuntimeProvider.next_eid st)
                (RuntimeProvider.invoked st ++
                   ((fun c => (c, t)) <$>
                      until_throw throws
                        (RuntimeProvider.cb <$> RuntimeProvider.subs st))),
              if existsb throws (RuntimeProvider.cb <$> RuntimeProvider.subs st)
              then Threw else Returned,
              true)) /\
  (forall t : Q,
      let st := RuntimeProvider.onRaf_all [(1%nat, 0); (2%nat, 1)] in
      RuntimeProvider.cb <$> RuntimeProvider.subs st = [1%nat; 2%nat] /\
      (fun r => (RuntimeProvider.invoked r.1.1, r.1.2, r.2)) <$>
        RuntimeProvider.loop
          (RuntimeProvider.throwing (fun c => (c =? 1)%nat)) 3 t st
      = Some ([(1%nat, t)], Threw, true)).
Proof.
  split_and!.
  - intros throws st t. unfold RAFCollection.loop, RAFCollection._onRAF.
    rewrite _onRAF_from_throwing by lia.
    by rewrite drop_0, <-list_fmap_compose.
  - intros throws st t. unfold RuntimeProvider.loop.
    fold (RuntimeProvider.subs st).
    rewrite for_of_throwing by (fold (RuntimeProvider.subs st); lia).
    fold (RuntimeProvider.subs st). by rewrite drop_0.
  - intros t. cbv zeta. split; reflexivity.
Qed.

(** C3.  In [RuntimeProvider] a closure returned by [onRaf] puts a new
    array in [subs.current] and leaves alone the one the running loop
    goes through: when the callbacks only unsubscribe, a tick calls every
    entry of the queue as it was when the tick began, and no entry whose
    closure was called is in the queue afterwards.  [RAFCollection._onRAF]
    reads [this.callbacks] at every round: when the first of three
    callbacks removes itself, the second one is not called in that
    tick. *)
Theorem C3_unsubscribe_during_tick :
  (forall (regs : list (nat * Z)) (handles : nat -> Q -> list nat) (t : Q),
      let st := RuntimeProvider.onRaf_all regs in
      exists st',
        RuntimeProvider.loop (RuntimeProvider.unsubscribing handles)
          (S (length regs)) t st = Some (st', Returned, true) /\
        RuntimeProvider.invoked st'
          = (fun e => (RuntimeProvider.cb e, t)) <$> RuntimeProvider.subs st /\
        (forall e, e ∈ RuntimeProvider.subs st' ->
           e ∈ RuntimeProvider.subs st /\
           forall d, d ∈ RuntimeProvider.subs st ->
             RuntimeProvider.eid e ∉ handles (RuntimeProvider.cb d) t)) /\
  (forall (st : RAFCollection.state) (c : nat),
      Forall (fun it => RAFCollection.cb it <> c)
        (RAFCollection.callbacks (RAFCollection.remove c st))) /\
  (forall t : Q,
      let st := RAFCollection.add_all [(1%nat, 0); (2%nat, 1); (3%nat, 2)] in
      RAFCollection.cb <$> RAFCollection.callbacks st = [1%nat; 2%nat; 3%nat] /\
      RAFCollection._onRAF
        (fun c _ => if (c =? 1)%nat then [RAFCollection.Remove 1] else [])
        4 t st
      = Some (RAFCollection.State
                [RAFCollection.Item 2 1; RAFCollection.Item 3 2]
                [(1%nat, t); (3%nat, t)])).
Proof.
  split_and!.
  - intros regs handles t st.
    destruct (onRaf_all_from regs RuntimeProvider.initial queue_ok_initial)
      as [(Hcur & _ & _) Hperm].
    fold (RuntimeProvider.onRaf_all regs) in Hcur, Hperm. fold st in Hcur, Hperm.
    simpl in Hperm.
    destruct (for_of_unsubscribing handles t (RuntimeProvider.subs_current st)
                (S (length regs)) 0 st) as (st' & Hfor & Hinv & Hsubs);
      [done|done|..].
    { fold (RuntimeProvider.subs st).
      rewrite Hperm, entries_from_length. lia. }
    exists st'. unfold RuntimeProvider.loop. rewrite Hfor.
    fold (RuntimeProvider.subs st) in Hinv, Hsubs. rewrite drop_0 in Hinv, Hsubs.
    split; [done|]. split; [|done].
    rewrite Hinv. unfold st at 1, RuntimeProvider.onRaf_all.
    by rewrite onRaf_all_invoked.
  - intros st c. simpl. apply Forall_forall. intros it Hit.
    apply list_elem_of_In, List.filter_In in Hit as [_ Hne].
    by apply negb_true_iff, Nat.eqb_neq in Hne.
  - intros t. cbv zeta. split; reflexivity.
Qed.

Lemma filter_all_true {A} (f : A -> bool) (l : list A) :
  Forall (fun a => f a = true) l -> List.filter f l = l.
Proof.
  induction 1 as [|a l Ha Hl IH]; simpl; [done|]. by rewrite Ha, IH.
Qed.

Lemma filter_keeps_true {A} (f g : A -> bool) (l : list A) :
  Forall (fun a => f a = true) l ->
  Forall (fun a => f a = true) (List.filter g l).
Proof.
  induction 1 as [|a l Ha Hl IH]; simpl; [constructor|].
  destruct (g a); [by constructor|done].
Qed.

Lemma filter_true_after {A} (f : A -> bool) (l : list A) :
  Forall (fun a => f a = true) (List.filter f l).
Proof.
  induction l as [|a l IH]; simpl; [constructor|].
  destruct (f a) eqn:Ha; [by constructor|done].
Qed.

(** C6.  Calling the closure returned by [onRaf] again, right after the
    first call or after other closures have been called in between, leaves
    the queue as it is, and so does a second [RAFCollection.remove] of the
    same callback; neither call throws. *)
Theorem C6_unsubscribe_idempotent :
  (forall (st : RuntimeProvider.state) (h : nat) (others : list nat),
      let st1 := RuntimeProvider.unsubscribe h st in
      let st2 := foldl (fun s k => RuntimeProvider.unsubscribe k s) st1 others in
      RuntimeProvider.subs (RuntimeProvider.unsubscribe h st1)
        = RuntimeProvider.subs st1 /\
      RuntimeProvider.subs (RuntimeProvider.unsubscribe h st2)
        = RuntimeProvider.subs st2 /\
      (RuntimeProvider.run
         [RuntimeProvider.Unsubscribe h; RuntimeProvider.Unsubscribe h] st).2
        = Returned) /\
  (forall (st : RAFCollection.state) (c : nat),
      RAFCollection.remove c (RAFCollection.remove c st)
        = RAFCollection.remove c st /\
      (RAFCollection.run [RAFCollection.Remove c; RAFCollection.Remove c] st).2
        = Returned).
Proof.
  split.
  - intros st h others st1 st2.
    assert (Hgone : forall s,
              Forall (fun x => negb (RuntimeProvider.eid x =? h)%nat = true)
                (RuntimeProvider.subs s) ->
              RuntimeProvider.subs (RuntimeProvider.unsubscribe h s)
                = RuntimeProvider.subs s).
    { intros s Hs. rewrite subs_unsubscribe. by apply filter_all_true. }
    assert (H1 : Forall (fun x => negb (RuntimeProvider.eid x =? h)%nat = true)
                   (RuntimeProvider.subs st1)).
    { unfold st1. rewrite subs_unsubscribe. apply filter_true_after. }
    split_and!; [by apply Hgone| |done].
    apply Hgone. unfold st2. clear st2. clearbody st1. clear Hgone.
    revert st1 H1. induction others as [|k others IH]; intros st1 H1; [done|].
    simpl. apply IH. rewrite subs_unsubscribe. by apply filter_keeps_true.
  - intros st c. split; [|done].
    unfold RAFCollection.remove. simpl. f_equal.
    apply filter_all_true, filter_true_after.
Qed.
End Dispatchers.

(** ** The pointer trackers *)

Section Pointer.
Local Open Scope Q_scope.

(** The cases of [_onPointerMove]: dragging or not, and how its emits
    end. *)
Ltac pointer_move_cases im :=
  unfold InputManager._onPointerMove, InputManager.emit;
  destruct (InputManager.origMousePos im), (InputManager.prevMousePos im);
  cbn [InputManager.dragging InputManager.bus InputManager.emits];
  destruct (InputManager.bus im (InputManager.emits im));
  [destruct (InputManager.dragging im);
   [destruct (InputManager.bus im (S (InputManager.emits im)))|]|];
  simpl.

(** [G.mouse] is written before anything is emitted: what the
    subscribers do does not change it. *)
Lemma move_writes_mouse (x y : Q) (g : InputManager.Global)
    (im : InputManager.state) :
  (InputManager._onPointerMove x y g im).1.1 = InputManager.set_mouse x y g.
Proof. pointer_move_cases im; reflexivity. Qed.

(** A move right after a resize is normalised with the new viewport. *)
Lemma move_after_resize (innerWidth innerHeight x y : Q)
    (g : InputManager.Global) (im : InputManager.state) :
  let g1 := (InputManager._onResize innerWidth innerHeight g).1 in
  InputManager.mouse (InputManager._onPointerMove x y g1 im).1.1
  = InputManager.mouse
      (InputManager._onPointerMove x y
         (InputManager.MkG (InputManager.MkWindow innerWidth innerHeight)
            (InputManager.mouse g)) im).1.1.
Proof. reflexivity. Qed.

(** When no subscriber throws, a drag is reported only between a pointer
    down and the next pointer up. *)
Lemma drag_only_while_dragging (x y x' y' : Q)
    (g : InputManager.Global) (im : InputManager.state) :
  (forall k, InputManager.bus im k = Returned) ->
  let down := InputManager._onPointerDown x y g im in
  let up := InputManager._onPointerUp down.1.1 down.1.2 in
  (InputManager._onPointerMove x' y' down.1.1 down.1.2).2
    = [InputManager.MOUSEMOVE (Vec x' y');
       InputManager.MOUSEDRAG x x x' y y y'] /\
  (InputManager._onPointerMove x' y' up.1.1 up.1.2).2
    = [InputManager.MOUSEMOVE (Vec x' y')].
Proof.
  intros Hbus.
  unfold InputManager._onPointerDown, InputManager._onPointerUp,
    InputManager._onPointerMove, InputManager.emit.
  repeat (cbn [InputManager.dragging InputManager.bus InputManager.emits
               InputManager.mousePos InputManager.prevMousePos
               InputManager.origMousePos fst snd];
          rewrite ?Hbus).
  split; reflexivity.
Qed.

Lemma onMove_consistent (x y w h now : Q) (st : RuntimePointer.state) :
  RuntimePointer.consistent w h
    (RuntimePointer.pointer (RuntimePointer.onMove x y w h now st)).
Proof.
  unfold RuntimePointer.consistent, vec_eq; simpl.
  split_and!; unfold Qdiv; ring.
Qed.

(** The sample of the specification, in both trackers. *)
Lemma pointer_sample_100_50 (now : Q) (st : RuntimePointer.state)
    (m0 : InputManager.Mouse) (im : InputManager.state) :
  let p := RuntimePointer.pointer
             (RuntimePointer.onMove 100 50 200 100 now st) in
  let g := InputManager.MkG (InputManager.MkWindow 200 100) m0 in
  let m := InputManager.mouse (InputManager._onPointerMove 100 50 g im).1.1 in
  vec_eq (RuntimePointer.screen p) (Vec (1 # 2) (1 # 2)) /\
  vec_eq (RuntimePointer.ndc p) (Vec 0 0) /\
  vec_eq (RuntimePointer.gl p) (Vec 0 0) /\
  (exists a, InputManager.glScreenSpace m = Some a /\ vec_eq a (Vec (1 # 2) (1 # 2))) /\
  (exists a, InputManager.glNormalized m = Some a /\ vec_eq a (Vec 0 0)) /\
  (exists a, InputManager.gl m = Some a /\ vec_eq a (Vec 0 0)).
Proof.
  cbv zeta. pointer_move_cases im;
    (split_and!; try (eexists; split; [reflexivity|]); split; reflexivity).
Qed.

(** C4, as amended.  For a viewport of positive width and height,
    [onMove] of [RuntimeProvider] writes the three spaces with the
    formulas of the specification.  [InputManager._onPointerMove] writes
    the centered pixels and the device-normalized coordinates with the
    same formulas, but its screen space [glScreenSpace] is
    [(x / w, 1 - y / h)], with the y axis pointing up.  On the sample
    x=100, y=50 in a 200 by 100 viewport both give (1/2, 1/2), (0, 0) and
    (0, 0). *)
Theorem C4_coordinate_spaces (x y w h now : Q)
    (st : RuntimePointer.state)
    (m0 : InputManager.Mouse) (im : InputManager.state) :
  0 < w -> 0 < h ->
  let p := RuntimePointer.pointer (RuntimePointer.onMove x y w h now st) in
  let g := InputManager.MkG (InputManager.MkWindow w h) m0 in
  let m := InputManager.mouse (InputManager._onPointerMove x y g im).1.1 in
  (vec_eq (RuntimePointer.screen p) (RuntimePointer.screenNormalized x y w h) /\
   vec_eq (RuntimePointer.ndc p) (RuntimePointer.deviceNormalized x y w h) /\
   vec_eq (RuntimePointer.gl p) (RuntimePointer.centeredPixels x y w h)) /\
  (exists a, InputManager.glScreenSpace m = Some a /\
             vec_eq a (Vec (x / w) (1 - y / h))) /\
  (exists a, InputManager.glNormalized m = Some a /\
             vec_eq a (RuntimePointer.deviceNormalized x y w h)) /\
  (exists a, InputManager.gl m = Some a /\
             vec_eq a (RuntimePointer.centeredPixels x y w h)) /\
  (let p := RuntimePointer.pointer
              (RuntimePointer.onMove 100 50 200 100 now st) in
   let g := InputManager.MkG (InputManager.MkWindow 200 100) m0 in
   let m := InputManager.mouse (InputManager._onPointerMove 100 50 g im).1.1 in
   vec_eq (RuntimePointer.screen p) (Vec (1 # 2) (1 # 2)) /\
   vec_eq (RuntimePointer.ndc p) (Vec 0 0) /\
   vec_eq (RuntimePointer.gl p) (Vec 0 0) /\
   (exists a, InputManager.glScreenSpace m = Some a /\ vec_eq a (Vec (1 # 2) (1 # 2))) /\
   (exists a, InputManager.glNormalized m = Some a /\ vec_eq a (Vec 0 0)) /\
   (exists a, InputManager.gl m = Some a /\ vec_eq a (Vec 0 0))).
Proof.
  intros Hw Hh p g m. split; [apply onMove_consistent|].
  split_and!; [| | |apply pointer_sample_100_50].
  all: unfold m, g; pointer_move_cases im;
    eexists; (split; [reflexivity|]);
    unfold vec_eq; simpl; split; unfold Qdiv; ring.
Qed.

Lemma C4_coordinate_spaces_witness :
  0 < 200 /\ 0 < 100 /\
  let p := RuntimePointer.pointer
             (RuntimePointer.onMove 100 50 200 100 5 (RuntimePointer.mounted 0)) in
  vec_eq (RuntimePointer.screen p) (RuntimePointer.screenNormalized 100 50 200 100) /\
  vec_eq (RuntimePointer.ndc p) (RuntimePointer.deviceNormalized 100 50 200 100) /\
  vec_eq (RuntimePointer.gl p) (RuntimePointer.centeredPixels 100 50 200 100).
Proof.
  split; [reflexivity|]. split; [reflexivity|].
  exact (proj1 (C4_coordinate_spaces 100 50 200 100 5 (RuntimePointer.mounted 0)
                  InputManager.initial_mouse InputManager.initial
                  eq_refl eq_refl)).
Defined.

(** C4 as stated fails for [InputManager._onPointerMove]: at x=0, y=0 in
    a 200 by 100 viewport its screen space is (0, 1), not (x/w, y/h) =
    (0, 0). *)
Lemma C4_counterexample :
  let g := InputManager.MkG (InputManager.MkWindow 200 100)
             InputManager.initial_mouse in
  let m := InputManager.mouse
             (InputManager._onPointerMove 0 0 g InputManager.initial).1.1 in
  InputManager.glScreenSpace m = Some (Vec (0 / 200) (1 - 0 / 100)) /\
  ~ vec_eq (Vec (0 / 200) (1 - 0 / 100))
      (RuntimePointer.screenNormalized 0 0 200 100).
Proof.
  cbv zeta. split; [reflexivity|].
  intros [_ Hy]. vm_compute in Hy. discriminate Hy.
Qed.

(** C5.  After two samples handled by [onMove], the velocity is the
    difference of the two positions over the elapsed time, the elapsed
    time being taken as 1 when it is less; for x=0 at t=0 then x=10 at
    t=5 the x velocity is 2. *)
Theorem C5_velocity (x0 y0 w0 h0 t0 x1 y1 w1 h1 t1 : Q)
    (st : RuntimePointer.state) :
  RuntimePointer.v
    (RuntimePointer.pointer
       (RuntimePointer.onMove x1 y1 w1 h1 t1
          (RuntimePointer.onMove x0 y0 w0 h0 t0 st)))
  = RuntimePointer.velocity x0 y0 t0 x1 y1 t1 /\
  x (RuntimePointer.v
       (RuntimePointer.pointer
          (RuntimePointer.onMove 10 y1 w1 h1 5
             (RuntimePointer.onMove 0 y0 w0 h0 0 st)))) == 2.
Proof. split; reflexivity. Qed.

(** C7, as amended.  [onMove] of [RuntimeProvider] writes all five
    spaces from the sample of the event, the viewport read in the handler
    and the previous sample: nothing of the previous pointer state is
    left.  [InputManager._onPointerMove] writes the pixels and its three
    spaces from the sample and the viewport kept in [G.window]; it keeps
    no velocity, and it leaves [smooth.glNormalized] as it was. *)
Theorem C7_spaces_recomputed_together (x y w h now : Q) :
  (forall (p p' : RuntimePointer.PointerSpaces) (l : RuntimePointer.Last),
      let q := RuntimePointer.pointer
                 (RuntimePointer.onMove x y w h now (RuntimePointer.State p l)) in
      q = RuntimePointer.pointer
            (RuntimePointer.onMove x y w h now (RuntimePointer.State p' l)) /\
      RuntimePointer.px q = Vec x y /\
      RuntimePointer.consistent w h q /\
      RuntimePointer.v q
        = RuntimePointer.velocity (RuntimePointer.last_x l)
            (RuntimePointer.last_y l) (RuntimePointer.last_t l) x y now) /\
  (forall (m0 m0' : InputManager.Mouse) (im : InputManager.state),
      let g := InputManager.MkG (InputManager.MkWindow w h) m0 in
      let g' := InputManager.MkG (InputManager.MkWindow w h) m0' in
      let m := InputManager.mouse (InputManager._onPointerMove x y g im).1.1 in
      let m' := InputManager.mouse (InputManager._onPointerMove x y g' im).1.1 in
      (InputManager.mouse_x m, InputManager.mouse_y m) = (x, y) /\
      (InputManager.mouse_x m, InputManager.mouse_y m, InputManager.gl m,
       InputManager.glNormalized m, InputManager.glScreenSpace m)
      = (InputManager.mouse_x m', InputManager.mouse_y m', InputManager.gl m',
         InputManager.glNormalized m', InputManager.glScreenSpace m') /\
      InputManager.gl m = Some (Vec (x - w / 2) (- (y - h / 2))) /\
      InputManager.glNormalized m
        = Some (Vec ((x / w) * 2 - 1) (- (y / h) * 2 + 1)) /\
      InputManager.glScreenSpace m = Some (Vec (x / w) (1 - y / h)) /\
      InputManager.smooth_glNormalized m = InputManager.smooth_glNormalized m0).
Proof.
  split.
  - intros p p' l q. split_and!; [reflexivity|reflexivity| |reflexivity].
    apply onMove_consistent.
  - intros m0 m0' im g g' m m'. unfold m, m'.
    pointer_move_cases im; split_and!; reflexivity.
Qed.

(** C7 as stated fails for [InputManager._onPointerMove]: whether the
    pointer came from (0, 0) or was already at (10, 0), the handler
    leaves the same [G] and the same manager state, while the velocities
    of the two moves differ; no velocity is kept. *)
Lemma C7_counterexample :
  let g0 := InputManager.MkG (InputManager.MkWindow 200 100)
              InputManager.initial_mouse in
  let a := InputManager._onPointerMove 0 0 g0 InputManager.initial in
  let a' := InputManager._onPointerMove 10 0 a.1.1 a.1.2 in
  let b := InputManager._onPointerMove 10 0 g0 InputManager.initial in
  let b' := InputManager._onPointerMove 10 0 b.1.1 b.1.2 in
  a'.1 = b'.1 /\
  ~ vec_eq (RuntimePointer.velocity 0 0 0 10 0 5)
           (RuntimePointer.velocity 10 0 0 10 0 5).
Proof.
  cbv zeta. split; [reflexivity|].
  intros [Hx _]. vm_compute in Hx. discriminate Hx.
Qed.

(** C10.  Before the first move the pointer is px=(0,0), screen=(0,0),
    ndc=(-1,-1), gl=(0,0), v=(0,0).  For a viewport of positive width and
    height the device-normalized coordinates of the pixel (0,0) are
    (-1, 1), so the initial [ndc] disagrees with the stored pixels, while
    after any move handled by [onMove] the spaces agree. *)
Theorem C10_initial_pointer (now w h : Q) :
  0 < w -> 0 < h ->
  let p := RuntimePointer.pointer (RuntimePointer.mounted now) in
  p = RuntimePointer.Spaces (Vec 0 0) (Vec 0 0) (Vec (-1) (-1)) (Vec 0 0) (Vec 0 0) /\
  vec_eq (RuntimePointer.deviceNormalized
            (x (RuntimePointer.px p)) (y (RuntimePointer.px p)) w h)
         (Vec (-1) 1) /\
  ~ vec_eq (RuntimePointer.ndc p)
      (RuntimePointer.deviceNormalized
         (x (RuntimePointer.px p)) (y (RuntimePointer.px p)) w h) /\
  ~ RuntimePointer.consistent w h p /\
  (forall (cx cy t : Q) (st : RuntimePointer.state),
      RuntimePointer.consistent w h
        (RuntimePointer.pointer (RuntimePointer.onMove cx cy w h t st))).
Proof.
  intros Hw Hh p.
  assert (Hndc : vec_eq (RuntimePointer.deviceNormalized 0 0 w h) (Vec (-1) 1)).
  { unfold vec_eq; simpl. split; unfold Qdiv; ring. }
  assert (Hne : ~ vec_eq (RuntimePointer.ndc p)
                   (RuntimePointer.deviceNormalized 0 0 w h)).
  { intros [_ Hy]. destruct Hndc as [_ Hy']. simpl in Hy, Hy'.
    rewrite Hy' in Hy. vm_compute in Hy. discriminate Hy. }
  split_and!; [reflexivity|exact Hndc|exact Hne| |].
  - intros (_ & Hc & _). by apply Hne.
  - intros cx cy t st. apply onMove_consistent.
Qed.

Lemma C10_initial_pointer_witness :
  0 < 200 /\ 0 < 100 /\
  let p := RuntimePointer.pointer (RuntimePointer.mounted 0) in
  p = RuntimePointer.Spaces (Vec 0 0) (Vec 0 0) (Vec (-1) (-1)) (Vec 0 0) (Vec 0 0) /\
  vec_eq (RuntimePointer.deviceNormalized
            (x (RuntimePointer.px p)) (y (RuntimePointer.px p)) 200 100)
         (Vec (-1) 1) /\
  ~ vec_eq (RuntimePointer.ndc p)
      (RuntimePointer.deviceNormalized
         (x (RuntimePointer.px p)) (y (RuntimePointer.px p)) 200 100) /\
  ~ RuntimePointer.consistent 200 100 p /\
  (forall (cx cy t : Q) (st : RuntimePointer.state),
      RuntimePointer.consistent 200 100
        (RuntimePointer.pointer (RuntimePointer.onMove cx cy 200 100 t st))).
Proof.
  split; [reflexivity|]. split; [reflexivity|].
  exact (C10_initial_pointer 0 200 100 eq_refl eq_refl).
Defined.
End Pointer.

(** ** The event bus *)

Section Bus.
Context {Payload : Type}.
Import Emitter.

Lemma members_app (d1 d2 : SetData) :
  members (d1 ++ d2) = members d1 ++ members d2.
Proof. unfold members. by rewrite omap_app. Qed.

Lemma elem_of_members (c : nat) (d : SetData) : c ∈ members d <-> Some c ∈ d.
Proof.
  unfold members. rewrite list_elem_of_omap. split.
  - intros ([c'|] & Hin & Heq); simpl in Heq; [|done]. by simplify_eq.
  - intros Hin. by exists (Some c).
Qed.

Lemma members_set_add (c : nat) (d : SetData) :
  members (set_add c d) =
    if bool_decide (c ∈ members d) then members d else members d ++ [c].
Proof.
  unfold set_add.
  rewrite (bool_decide_ext (c ∈ members d) (Some c ∈ d))
    by apply elem_of_members.
  destruct (bool_decide (Some c ∈ d)); [done|].
  by rewrite members_app.
Qed.

Lemma members_set_delete (c : nat) (d : SetData) :
  members (set_delete c d) = List.filter (fun k => negb (k =? c)%nat) (members d).
Proof.
  unfold set_delete, members.
  induction d as [|e d IH]; [done|].
  rewrite fmap_cons. case_bool_decide as Hk; simplify_eq; simpl.
  - rewrite Nat.eqb_refl. simpl. apply IH.
  - destruct e as [k|]; simpl; [|apply IH].
    destruct (Nat.eqb_spec k c) as [->|_]; [done|]. simpl. f_equal. apply IH.
Qed.

Lemma NoDup_filter_bool {A} (f : A -> bool) (l : list A) :
  NoDup l -> NoDup (List.filter f l).
Proof.
  induction 1 as [|a l Ha Hl IH]; simpl; [constructor|].
  destruct (f a); [|done]. constructor; [|done].
  rewrite list_elem_of_In, List.filter_In, <-list_elem_of_In. tauto.
Qed.

Lemma sets_ok_on evt c (st : state Payload) : sets_ok st -> sets_ok (on evt c st).
Proof.
  intros Hok evt' d. unfold on; simpl.
  destruct (decide (evt = evt')) as [->|Hne].
  - rewrite lookup_insert_eq. intros [= <-].
    rewrite members_set_add. case_bool_decide as Hin.
    + destruct (handlers st !! evt') as [d0|] eqn:Hd; simpl in *;
        [by eapply Hok|constructor].
    + destruct (handlers st !! evt') as [d0|] eqn:Hd; simpl in *.
      * apply NoDup_app. split_and!; [by eapply Hok| |apply NoDup_singleton].
        intros k Hk ->%list_elem_of_singleton. done.
      * apply NoDup_singleton.
  - rewrite lookup_insert_ne by done. apply Hok.
Qed.

Lemma sets_ok_off evt c (st : state Payload) : sets_ok st -> sets_ok (off evt c st).
Proof.
  intros Hok evt' d. unfold off.
  destruct (handlers st !! evt) as [d0|] eqn:Hd; [|apply Hok]. simpl.
  destruct (decide (evt = evt')) as [->|Hne].
  - rewrite lookup_insert_eq. intros [= <-].
    rewrite members_set_delete. apply NoDup_filter_bool. by eapply Hok.
  - rewrite lookup_insert_ne by done. apply Hok.
Qed.

Lemma sets_ok_run (cs : list call) (st : state Payload) :
  sets_ok st -> sets_ok (run cs st).1.
Proof.
  revert st. induction cs as [|[evt c|evt c|] cs IH]; intros st Hok; simpl;
    auto using sets_ok_on, sets_ok_off.
Qed.

Lemma sets_ok_initial : sets_ok (@initial Payload).
Proof. intros evt d. unfold initial; simpl. by rewrite lookup_empty. Qed.

Variable body : nat -> Payload -> list call.

(** An [emit] in which no handler of the topic calls the emitter or
    throws: the members of the set are called in order. *)
Lemma deliver_inert evt payload fuel i (st : state Payload) :
  let d := default [] (handlers st !! evt) in
  (forall c, c ∈ members (drop i d) -> body c payload = []) ->
  (length d - i < fuel)%nat ->
  deliver body fuel evt i payload st =
    Some (State (handlers st)
            (delivered st ++ ((fun c => (c, payload)) <$> members (drop i d))),
          Returned).
Proof.
  revert i st. induction fuel as [|fuel IH]; intros i st d Hinert Hfuel; [lia|].
  cbn [deliver]. fold d.
  destruct (d !! i) as [[c|]|] eqn:Hi.
  - pose proof (lookup_lt_Some _ _ _ Hi) as Hlt.
    rewrite (drop_S _ _ _ Hi) in Hinert |- *.
    rewrite (Hinert c) by (unfold members; simpl; by left).
    cbn [run]. rewrite IH.
    + unfold members; simpl. by rewrite <-app_assoc.
    + intros k Hk. apply Hinert. unfold members in *; simpl. by right.
    + simpl. fold d. lia.
  - pose proof (lookup_lt_Some _ _ _ Hi) as Hlt.
    rewrite (drop_S _ _ _ Hi) in Hinert |- *.
    rewrite IH; [done| |fold d; lia].
    intros k Hk. by apply Hinert.
  - apply lookup_ge_None in Hi. rewrite drop_ge by lia.
    destruct st. simpl. by rewrite app_nil_r.
Qed.
End Bus.

Section BusQuiet.
Context {Payload : Type}.
Import Emitter.
Variable body : nat -> Payload -> list call.

Lemma run_delivered (cs : list call) (st : state Payload) :
  delivered (run cs st).1 = delivered st.
Proof.
  revert st. induction cs as [|[e c|e c|] cs IH]; intros st; simpl; [done| | |done].
  - by rewrite IH.
  - rewrite IH. unfold off. by destruct (handlers st !! e).
Qed.

Lemma handled_delivered (payload : Payload) (cs : list nat)
    (st : state Payload) :
  delivered (handled body payload cs st)
  = delivered st ++ ((fun c => (c, payload)) <$> cs).
Proof.
  revert st. induction cs as [|c cs IH]; intros st; simpl.
  - by rewrite app_nil_r.
  - unfold handled in *. simpl. rewrite IH, run_delivered. simpl.
    by rewrite <- app_assoc.
Qed.

Lemma set_delete_absent (c : nat) (d : SetData) :
  Some c ∉ d -> set_delete c d = d.
Proof.
  intros Hc. unfold set_delete. induction d as [|e d IH]; [done|].
  apply not_elem_of_cons in Hc as [Hne Hc]. rewrite fmap_cons, IH by done.
  by rewrite bool_decide_eq_false_2 by congruence.
Qed.

(** Harmless calls return and leave the part of the set that is still
    to be iterated as it is. *)
Lemma calls_harmless_keep (evt : string) (i : nat) (cs : list call)
    (st : state Payload) :
  calls_harmless evt i cs st = true ->
  (run cs st).2 = Returned /\
  drop (S i) (default [] (handlers (run cs st).1 !! evt))
  = drop (S i) (default [] (handlers st !! evt)) /\
  length (default [] (handlers (run cs st).1 !! evt))
  = length (default [] (handlers st !! evt)).
Proof.
  revert st. induction cs as [|[e c|e c|] cs IH]; intros st Hq;
    cbn [calls_harmless run] in *; [done| | |done].
  - apply andb_prop in Hq as [Hc Hq].
    destruct (IH _ Hq) as (-> & -> & ->).
    split; [done|].
    assert (E : default [] (handlers (on e c st) !! evt)
                = default [] (handlers st !! evt)).
    { unfold on; simpl. apply orb_prop in Hc as [Hc|Hc].
      - apply bool_decide_eq_true in Hc. by rewrite lookup_insert_ne.
      - apply bool_decide_eq_true in Hc.
        destruct (decide (e = evt)) as [->|Hne];
          [|by rewrite lookup_insert_ne].
        rewrite lookup_insert_eq. simpl. unfold registered in Hc.
        apply elem_of_members in Hc. unfold set_add.
        by rewrite bool_decide_eq_true_2. }
    by rewrite E.
  - apply andb_prop in Hq as [Hc Hq].
    destruct (IH _ Hq) as (-> & -> & ->).
    split; [done|].
    unfold off. destruct (handlers st !! e) as [d|] eqn:Hd; [|done]. simpl.
    destruct (decide (e = evt)) as [->|Hne].
    + unfold SetData in *. rewrite lookup_insert_eq, Hd. simpl.
      apply orb_prop in Hc as [Hc|Hc];
        apply bool_decide_eq_true in Hc; [done|].
      rewrite Hd in Hc. simpl in Hc.
      split; [|unfold set_delete; by rewrite length_fmap].
      unfold set_delete. rewrite <- fmap_drop.
      by apply set_delete_absent.
    + by rewrite lookup_insert_ne.
Qed.

(** An [emit] all of whose calls are harmless calls the members of the
    set in order. *)
Lemma deliver_quiet (evt : string) (payload : Payload) (fuel i : nat)
    (st : state Payload) :
  let d := default [] (handlers st !! evt) in
  quiet body fuel evt i payload st = true ->
  (length d - i < fuel)%nat ->
  deliver body fuel evt i payload st
  = Some (handled body payload (members (drop i d)) st, Returned).
Proof.
  revert i st. induction fuel as [|fuel IH]; intros i st d Hq Hfuel; [lia|].
  cbn [deliver quiet] in *. fold d in Hq |- *.
  destruct (d !! i) as [[c|]|] eqn:Hi.
  - pose proof (lookup_lt_Some _ _ _ Hi) as Hlt.
    apply andb_prop in Hq as [Hc Hq].
    destruct (calls_harmless_keep evt i _ _ Hc) as (Hret & Hdrop & Hlen).
    simpl in Hdrop, Hlen. fold d in Hdrop, Hlen.
    rewrite (drop_S _ _ _ Hi).
    destruct (run (body c payload) (record c payload st)) as [st1 o] eqn:Hrun.
    simpl in Hret, Hdrop, Hlen, Hq. subst o.
    rewrite (IH (S i) st1 Hq) by lia.
    rewrite Hdrop. unfold handled, members. simpl. by rewrite Hrun.
  - pose proof (lookup_lt_Some _ _ _ Hi) as Hlt.
    rewrite (drop_S _ _ _ Hi).
    rewrite (IH (S i) st Hq) by (fold d; lia). done.
  - apply lookup_ge_None in Hi. by rewrite drop_ge by lia.
Qed.
End BusQuiet.

Section BusClaims.
Import Emitter.

(** C8, as amended.  In a registry built by [on] and [off], a handler is
    registered for a topic at most once and [on] puts a new handler last.
    When no handler, while it runs during the [emit], throws, registers
    for the topic a handler that is not registered for it at that moment,
    or unregisters from the topic a handler that is still to be called,
    [emit] returns after calling exactly the handlers registered for the
    topic when it was called, once each, in the order of registration:
    its effect is that of their bodies run in that order.  The handlers
    may call [on] and [off] for other topics, unregister themselves or
    handlers called before them, and register again a handler that is
    registered.  With no handler for the topic [emit] returns at once and
    changes nothing. *)
Theorem C8_emit_delivery {Payload : Type} (body : nat -> Payload -> list call)
    (cs : list call) (evt : string) (payload : Payload) (fuel : nat) :
  let st := (run cs (@initial Payload)).1 in
  quiet body fuel evt 0 payload st = true ->
  (length (default [] (handlers st !! evt)) < fuel)%nat ->
  emit body fuel evt payload st
    = Some (handled body payload (registered evt st) st, Returned) /\
  delivered (handled body payload (registered evt st) st)
    = delivered st ++ ((fun c => (c, payload)) <$> registered evt st) /\
  NoDup (registered evt st) /\
  (registered evt st = [] -> emit body fuel evt payload st = Some (st, Returned)) /\
  (forall c, registered evt (on evt c st)
             = if bool_decide (c ∈ registered evt st)
               then registered evt st else registered evt st ++ [c]).
Proof.
  intros st Hquiet Hfuel.
  assert (Hemit : emit body fuel evt payload st
    = Some (handled body payload (registered evt st) st, Returned)).
  { unfold emit, registered.
    destruct (handlers st !! evt) as [d|] eqn:Hd; [|done].
    rewrite (deliver_quiet body evt payload fuel 0 st Hquiet);
      rewrite ?drop_0, ?Hd; simpl; [done|simpl in Hfuel; lia]. }
  split_and!.
  - exact Hemit.
  - apply handled_delivered.
  - unfold registered.
    destruct (handlers st !! evt) as [d|] eqn:Hd; simpl; [|constructor].
    eapply (sets_ok_run cs initial sets_ok_initial), Hd.
  - intros Hnone. by rewrite Hemit, Hnone.
  - intros c. unfold registered, on; simpl. rewrite lookup_insert_eq. simpl.
    apply members_set_add.
Qed.

Lemma C8_emit_delivery_witness :
  let body := fun (c : nat) (_ : Z) =>
                if (c =? 1)%nat then [On "other" 9%nat; Off "tick" 1%nat]
                else if (c =? 2)%nat then [On "tick" 3%nat; Off "tick" 1%nat]
                else [] in
  let st := (run [On "tick" 1%nat; On "tick" 2%nat; On "tick" 3%nat]
               (@initial Z)).1 in
  quiet body 4 "tick" 0 7 st = true /\
  (length (default [] (handlers st !! "tick")) < 4)%nat /\
  registered "tick" st = [1%nat; 2%nat; 3%nat] /\
  delivered (handled body 7 (registered "tick" st) st)
  = delivered st ++ ((fun c => (c, 7)) <$> registered "tick" st).
Proof.
  assert (Hquiet :
    quiet (fun (c : nat) (_ : Z) =>
             if (c =? 1)%nat then [On "other" 9%nat; Off "tick" 1%nat]
             else if (c =? 2)%nat then [On "tick" 3%nat; Off "tick" 1%nat]
             else [])
          4 "tick" 0 7
          (run [On "tick" 1%nat; On "tick" 2%nat; On "tick" 3%nat]
             (@initial Z)).1 = true)
    by (vm_compute; reflexivity).
  assert (Hfuel : (length (default []
                     (handlers (run [On "tick" 1%nat; On "tick" 2%nat;
                                     On "tick" 3%nat] (@initial Z)).1
                        !! "tick")) < 4)%nat)
    by (vm_compute; lia).
  split; [exact Hquiet|]. split; [exact Hfuel|]. split; [reflexivity|].
  exact (proj1 (proj2 (C8_emit_delivery
                  (fun (c : nat) (_ : Z) =>
                     if (c =? 1)%nat then [On "other" 9%nat; Off "tick" 1%nat]
                     else if (c =? 2)%nat
                          then [On "tick" 3%nat; Off "tick" 1%nat]
                     else [])
                  [On "tick" 1%nat; On "tick" 2%nat; On "tick" 3%nat]
                  "tick" 7 4%nat Hquiet Hfuel))).
Defined.

(** C8 as stated fails when a handler registers another one for the
    topic while it runs: the new handler is called in the same [emit],
    though it was not registered when [emit] was called.  It fails, too,
    when a handler throws, for the handlers after it are not called and
    [emit] does not return; and when a handler unregisters one that is
    still to be called, for that one is not called.  These are the three
    kinds of call that are not harmless. *)
Lemma C8_counterexample :
  (let body := fun (c : nat) (_ : Z) =>
                 if (c =? 1)%nat then [On "tick" 2%nat] else [] in
   let st := on "tick" 1%nat (@initial Z) in
   registered "tick" st = [1%nat] /\
   (fun r => (delivered r.1, r.2)) <$> emit body 3 "tick" 7 st
     = Some ([(1%nat, 7); (2%nat, 7)], Returned) /\
   quiet body 3 "tick" 0 7 st = false) /\
  (let body := fun (c : nat) (_ : Z) =>
                 if (c =? 1)%nat then [Throw] else [] in
   let st := on "tick" 2%nat (on "tick" 1%nat (@initial Z)) in
   registered "tick" st = [1%nat; 2%nat] /\
   (fun r => (delivered r.1, r.2)) <$> emit body 3 "tick" 7 st
     = Some ([(1%nat, 7)], Threw) /\
   quiet body 3 "tick" 0 7 st = false) /\
  (let body := fun (c : nat) (_ : Z) =>
                 if (c =? 1)%nat then [Off "tick" 2%nat] else [] in
   let st := on "tick" 2%nat (on "tick" 1%nat (@initial Z)) in
   registered "tick" st = [1%nat; 2%nat] /\
   (fun r => (delivered r.1, r.2)) <$> emit body 3 "tick" 7 st
     = Some ([(1%nat, 7)], Returned) /\
   quiet body 3 "tick" 0 7 st = false).
Proof. cbv zeta. split_and!; vm_compute; reflexivity. Qed.
End BusClaims.

(** ** The component manager *)

Section Components.
Context {Element Instance : Type}.
Import ComponentManager.

(** C9.  When the component class defines no static [selector], the
    constructor throws its error at once, before any component
    constructor is called; when the class defines one, that error is not
    thrown. *)
Theorem C9_selector_required
    (all : string -> option (list Element))
    (C : @Component Element Instance) :
  match selector C with
  | None => new all C = ([], inl (Error (selector_message (name C))))
  | Some _ => forall message, (new all C).2 <> inl (Error message)
  end.
Proof.
  unfold new. destruct (selector C) as [sel|]; [|done].
  intros message. destruct (all sel) as [nodes|]; [|done].
  by destruct (make_each C nodes) as [called [components|]].
Qed.
End Components.

(** * Further properties *)

(** ** The event bus: [on], [off] and re-entrant handlers *)

Section BusMore.
Context {Payload : Type}.
Import Emitter.

Lemma registered_on_other evt evt' c (st : state Payload) :
  evt <> evt' -> registered evt' (on evt c st) = registered evt' st.
Proof. intros Hne. unfold registered, on; simpl. by rewrite lookup_insert_ne. Qed.

Lemma registered_off evt c (st : state Payload) :
  registered evt (off evt c st)
  = List.filter (fun k => negb (k =? c)%nat) (registered evt st).
Proof.
  unfold registered, off.
  destruct (handlers st !! evt) as [d|] eqn:Hd.
  - simpl. rewrite lookup_insert_eq. simpl. apply members_set_delete.
  - unfold SetData in *. by rewrite Hd.
Qed.

Lemma registered_off_other evt evt' c (st : state Payload) :
  evt <> evt' -> registered evt' (off evt c st) = registered evt' st.
Proof.
  intros Hne. unfold registered, off.
  destruct (handlers st !! evt) as [d|]; [|done]. simpl.
  by rewrite lookup_insert_ne.
Qed.

Lemma registered_on evt c (st : state Payload) :
  registered evt (on evt c st)
  = if bool_decide (c ∈ registered evt st)
    then registered evt st else registered evt st ++ [c].
Proof.
  unfold registered, on; simpl. rewrite lookup_insert_eq. simpl.
  apply members_set_add.
Qed.

Lemma filter_bool_app {A} (f : A -> bool) (l1 l2 : list A) :
  List.filter f (l1 ++ l2) = List.filter f l1 ++ List.filter f l2.
Proof. induction l1 as [|a l1 IH]; simpl; [done|]. destruct (f a); simpl; by rewrite IH. Qed.

Lemma filter_bool_id {A} (f : A -> bool) (l : list A) :
  (forall a, a ∈ l -> f a = true) -> List.filter f l = l.
Proof.
  intros Hall. induction l as [|a l IH]; simpl; [done|].
  rewrite Hall by (by left). f_equal. apply IH. intros b Hb. apply Hall. by right.
Qed.

(** X1.  [off] takes the handler out of the topic's list and leaves the
    other handlers of the topic in their order and the other topics as they
    are; for a topic or a handler that is not registered it changes
    nothing.  Registering a handler that was not registered and removing it
    again gives back the list there was. *)
Theorem X1_off_removes_one_handler (st : state Payload) (evt evt' : string)
    (c : nat) :
  registered evt (off evt c st)
    = List.filter (fun k => negb (k =? c)%nat) (registered evt st) /\
  (c ∉ registered evt (off evt c st)) /\
  (evt <> evt' -> registered evt' (off evt c st) = registered evt' st) /\
  (c ∉ registered evt st ->
   registered evt (off evt c st) = registered evt st /\
   registered evt (off evt c (on evt c st)) = registered evt st).
Proof.
  split_and!.
  - apply registered_off.
  - rewrite registered_off, list_elem_of_In, List.filter_In.
    intros [_ Hne]. by rewrite Nat.eqb_refl in Hne.
  - apply registered_off_other.
  - intros Hnot.
    assert (Hid : List.filter (fun k => negb (k =? c)%nat) (registered evt st)
                  = registered evt st).
    { apply filter_bool_id. intros k Hk.
      apply negb_true_iff, Nat.eqb_neq. by intros ->. }
    split; [by rewrite registered_off|].
    rewrite registered_off, registered_on.
    rewrite bool_decide_eq_false_2 by done.
    rewrite filter_bool_app, Hid. simpl. rewrite Nat.eqb_refl. simpl.
    by rewrite app_nil_r.
Qed.

(** X2.  A handler is kept once per topic: registering it again changes
    nothing, and it keeps its place.  Removing it and registering it anew
    puts it after all the others. *)
Theorem X2_on_registers_once (st : state Payload) (evt : string) (c : nat) :
  registered evt (on evt c (on evt c st)) = registered evt (on evt c st) /\
  (c ∈ registered evt st -> registered evt (on evt c st) = registered evt st) /\
  registered evt (on evt c (off evt c st))
    = List.filter (fun k => negb (k =? c)%nat) (registered evt st) ++ [c].
Proof.
  split_and!.
  - rewrite (registered_on evt c (on evt c st)).
    rewrite bool_decide_eq_true_2; [done|].
    rewrite registered_on. case_bool_decide; [done|].
    apply elem_of_app. right. by left.
  - intros Hin. rewrite registered_on. by rewrite bool_decide_eq_true_2.
  - rewrite registered_on, registered_off.
    rewrite bool_decide_eq_false_2; [done|].
    rewrite list_elem_of_In, List.filter_In. intros [_ Hne].
    by rewrite Nat.eqb_refl in Hne.
Qed.

(** [emit] when no handler calls the emitter: the handlers of the set are
    called in order up to the first that throws. *)
Lemma deliver_throwing throws evt payload fuel i (st : state Payload) :
  let d := default [] (handlers st !! evt) in
  (length d - i < fuel)%nat ->
  deliver (throwing throws) fuel evt i payload st =
    Some (State (handlers st)
            (delivered st ++
               ((fun c => (c, payload)) <$> until_throw throws (members (drop i d)))),
          if existsb throws (members (drop i d)) then Threw else Returned).
Proof.
  revert i st. induction fuel as [|fuel IH]; intros i st d Hfuel; [lia|].
  cbn [deliver]. fold d.
  destruct (d !! i) as [[c|]|] eqn:Hi.
  - pose proof (lookup_lt_Some _ _ _ Hi) as Hlt.
    rewrite (drop_S _ _ _ Hi).
    change (members (Some c :: drop (S i) d)) with (c :: members (drop (S i) d)).
    cbn [until_throw existsb].
    change (throwing throws c payload) with (if throws c then [Throw] else []).
    destruct (throws c); cbn [run orb].
    + by destruct st.
    + rewrite IH by (simpl; fold d; lia). simpl. fold d.
      by rewrite <-app_assoc.
  - pose proof (lookup_lt_Some _ _ _ Hi) as Hlt.
    rewrite (drop_S _ _ _ Hi).
    change (members (None :: drop (S i) d)) with (members (drop (S i) d)).
    rewrite IH by (fold d; lia). done.
  - apply lookup_ge_None in Hi. rewrite drop_ge by lia.
    destruct st. simpl. by rewrite app_nil_r.
Qed.

(** X3.  [emit] does not catch: when a handler throws, the handlers
    registered after it are not called and the exception leaves [emit];
    the registry is as it was. *)
Theorem X3_emit_stops_at_throw (throws : nat -> bool) (st : state Payload)
    (evt : string) (payload : Payload) :
  emit (throwing throws) (S (length (default [] (handlers st !! evt))))
    evt payload st
  = Some (State (handlers st)
            (delivered st ++
               ((fun c => (c, payload)) <$>
                  until_throw throws (registered evt st))),
          if existsb throws (registered evt st) then Threw else Returned).
Proof.
  unfold emit, registered.
  destruct (handlers st !! evt) as [d|] eqn:Hd.
  - rewrite deliver_throwing; unfold SetData in *; rewrite ?Hd; simpl; [|lia].
    by rewrite drop_0.
  - unfold SetData in *. rewrite ?Hd. cbn. rewrite app_nil_r. by destruct st.
Qed.

Lemma without_nil (d : SetData) : without [] d = d.
Proof.
  unfold without. induction d as [|[c|] d IH]; [done|..]; rewrite fmap_cons;
    f_equal; try done.
Qed.

Lemma without_length rs (d : SetData) : length (without rs d) = length d.
Proof. unfold without. by rewrite length_fmap. Qed.

Lemma set_delete_without c rs (d : SetData) :
  set_delete c (without rs d) = without (c :: rs) d.
Proof.
  unfold set_delete, without. rewrite <-list_fmap_compose.
  apply list_fmap_ext. intros _ [k|] _; simpl.
  2: done.
  destruct (decide (k ∈ rs)) as [Hin|Hnot].
  - rewrite (bool_decide_eq_true_2 (k ∈ rs)) by done.
    rewrite (bool_decide_eq_true_2 (k ∈ c :: rs)) by (by right).
    by rewrite bool_decide_eq_false_2.
  - rewrite (bool_decide_eq_false_2 (k ∈ rs)) by done.
    destruct (decide (k = c)) as [->|Hne].
    + rewrite bool_decide_eq_true_2 by done.
      by rewrite bool_decide_eq_true_2 by (by left).
    + rewrite bool_decide_eq_false_2 by congruence.
      rewrite bool_decide_eq_false_2; [done|].
      rewrite elem_of_cons. tauto.
Qed.

Lemma run_off_without evt (hs rs : list nat) (d : SetData) (st : state Payload) :
  handlers st !! evt = Some (without rs d) ->
  let r := run (Off evt <$> hs) st in
  r.2 = Returned /\ delivered r.1 = delivered st /\
  handlers r.1 !! evt = Some (without (reverse hs ++ rs) d).
Proof.
  revert rs st. induction hs as [|h hs IH]; intros rs st Hd.
  { simpl. by rewrite Hd. }
  rewrite fmap_cons. cbn [run].
  assert (Hoff : handlers (off evt h st) !! evt = Some (without (h :: rs) d)).
  { unfold off. rewrite Hd. simpl. rewrite lookup_insert_eq.
    by rewrite set_delete_without. }
  destruct (IH (h :: rs) (off evt h st) Hoff) as (Hret & Hdel & Hh).
  cbv zeta. split; [done|]. split.
  - rewrite Hdel. unfold off. by rewrite Hd.
  - rewrite Hh. by rewrite reverse_cons, <-app_assoc.
Qed.

Lemma deliver_removing evt hs payload (d : SetData) fuel i rs (st : state Payload) :
  handlers st !! evt = Some (without rs d) ->
  (length d - i < fuel)%nat ->
  exists st',
    deliver (removing evt hs) fuel evt i payload st = Some (st', Returned) /\
    delivered st' =
      delivered st ++
        ((fun c => (c, payload)) <$> called_removing hs rs (drop i d)).
Proof.
  revert i rs st. induction fuel as [|fuel IH]; intros i rs st Hd Hfuel; [lia|].
  cbn [deliver]. unfold SetData in *. rewrite Hd. simpl.
  unfold without at 1. rewrite list_lookup_fmap.
  destruct (d !! i) as [[c|]|] eqn:Hi; simpl.
  - pose proof (lookup_lt_Some _ _ _ Hi) as Hlt.
    rewrite (drop_S _ _ _ Hi). cbn [called_removing].
    case_bool_decide as Hin.
    + apply IH; [done|lia].
    + unfold removing at 1.
      destruct (run_off_without evt (hs c) rs d (record c payload st) Hd)
        as (Hret & Hdel & Hh).
      destruct (run _ _) as [st1 o]. simpl in *. subst o.
      destruct (IH (S i) (reverse (hs c) ++ rs) st1 Hh ltac:(lia))
        as (st' & Hdeliver & Hdel').
      exists st'. split; [done|].
      rewrite Hdel', Hdel. by rewrite <-app_assoc.
  - pose proof (lookup_lt_Some _ _ _ Hi) as Hlt.
    rewrite (drop_S _ _ _ Hi). cbn [called_removing].
    apply IH; [done|lia].
  - apply lookup_ge_None in Hi. rewrite drop_ge by lia.
    exists st. split; [done|]. simpl. by rewrite app_nil_r.
Qed.

Lemma called_removing_elem hs rs (d : SetData) c :
  c ∈ called_removing hs rs d -> c ∈ members d /\ c ∉ rs.
Proof.
  revert rs. induction d as [|[k|] d IH]; intros rs; simpl.
  - intros Hin. by apply elem_of_nil in Hin.
  - change (members (Some k :: d)) with (k :: members d).
    case_bool_decide as Hk.
    + intros [? ?]%IH. split; [by right|done].
    + intros [->|Hin]%elem_of_cons; [split; [by left|done]|].
      apply IH in Hin as [? Hnot]. split; [by right|].
      intros Hrs. apply Hnot, elem_of_app. by right.
  - change (members (None :: d)) with (members d). apply IH.
Qed.

Lemma called_removing_later hs rs (d : SetData) l1 c' l2 :
  called_removing hs rs d = l1 ++ c' :: l2 ->
  forall c, c ∈ l2 -> c ∉ hs c'.
Proof.
  revert rs l1. induction d as [|[k|] d IH]; intros rs l1; simpl.
  - by destruct l1.
  - case_bool_decide as Hk; [apply IH|].
    destruct l1 as [|k' l1]; simpl; intros [= -> Hrest].
    + intros c Hc. rewrite <-Hrest in Hc.
      apply called_removing_elem in Hc as [_ Hnot].
      intros Hin. apply Hnot, elem_of_app. left. by apply elem_of_reverse.
    + by eapply IH.
  - apply IH.
Qed.

Lemma called_removing_complete hs rs (d : SetData) c :
  c ∈ members d -> c ∉ rs ->
  (forall c', c' ∈ members d -> c ∉ hs c') ->
  c ∈ called_removing hs rs d.
Proof.
  revert rs. induction d as [|[k|] d IH]; intros rs; simpl.
  - intros Hin. by apply elem_of_nil in Hin.
  - change (members (Some k :: d)) with (k :: members d).
    intros Hin Hnot Hkeep.
    case_bool_decide as Hk.
    + apply IH; [|done|].
      * apply elem_of_cons in Hin as [->|Hin]; done.
      * intros c' Hc'. apply Hkeep. by right.
    + apply elem_of_cons in Hin as [->|Hin]; [by left|]. right.
      apply IH; [done| |].
      * rewrite elem_of_app, elem_of_reverse. intros [Hin'|Hin']; [|done].
        by apply (Hkeep k); [left|].
      * intros c' Hc'. apply Hkeep. by right.
  - change (members (None :: d)) with (members d). apply IH.
Qed.

(** X4.  [emit] goes through the live set: when the handlers only call
    [off] for the topic, every handler called was registered when [emit]
    began, a handler removed by one called before it is not called, and a
    registered handler that none removes is called. *)
Theorem X4_emit_skips_removed (hs : nat -> list nat) (st : state Payload)
    (evt : string) (payload : Payload) :
  exists st' called,
    emit (removing evt hs) (S (length (default [] (handlers st !! evt))))
      evt payload st = Some (st', Returned) /\
    delivered st' = delivered st ++ ((fun c => (c, payload)) <$> called) /\
    (forall c, c ∈ called -> c ∈ registered evt st) /\
    (forall l1 c' l2, called = l1 ++ c' :: l2 ->
       forall c, c ∈ l2 -> c ∉ hs c') /\
    (forall c, c ∈ registered evt st ->
       (forall c', c' ∈ registered evt st -> c ∉ hs c') -> c ∈ called).
Proof.
  unfold emit, registered.
  destruct (handlers st !! evt) as [d|] eqn:Hd.
  - destruct (deliver_removing evt hs payload d (S (length d)) 0 [] st)
      as (st' & Hdeliver & Hdel).
    { by rewrite without_nil. }
    { lia. }
    rewrite drop_0 in Hdel.
    exists st', (called_removing hs [] d).
    unfold SetData in *. rewrite ?Hd. simpl.
    split_and!; [done|done| | |].
    + intros c Hc. by apply called_removing_elem in Hc as [? _].
    + apply called_removing_later.
    + intros c Hc Hkeep. apply called_removing_complete; [done| |done].
      apply not_elem_of_nil.
  - exists st, []. unfold SetData in *. rewrite ?Hd. simpl.
    split_and!; [done|by rewrite app_nil_r| | |].
    + intros c Hc. by apply elem_of_nil in Hc.
    + intros l1 c' l2 Heq. by destruct l1.
    + intros c Hc. by apply elem_of_nil in Hc.
Qed.
End BusMore.

Section BusWitnesses.
Import Emitter.

Lemma X1_off_removes_one_handler_witness :
  let st := on "resize" 1%nat (on "resize" 2%nat (@initial Z)) in
  (3%nat ∉ registered "resize" st) /\
  registered "resize" (off "resize" 3%nat (on "resize" 3%nat st))
    = registered "resize" st.
Proof.
  assert (Hnot : 3%nat ∉ registered "resize"
                   (on "resize" 1%nat (on "resize" 2%nat (@initial Z)))).
  { intros Hin%list_elem_of_In. vm_compute in Hin. intuition discriminate. }
  split; [exact Hnot|].
  exact (proj2 (proj2 (proj2 (proj2 (X1_off_removes_one_handler
           (on "resize" 1%nat (on "resize" 2%nat (@initial Z)))
           "resize" "resize" 3%nat))) Hnot)).
Defined.

Lemma X2_on_registers_once_witness :
  let st := on "resize" 1%nat (on "resize" 2%nat (@initial Z)) in
  2%nat ∈ registered "resize" st /\
  registered "resize" (on "resize" 2%nat st) = registered "resize" st.
Proof.
  assert (Hin : 2%nat ∈ registered "resize"
                  (on "resize" 1%nat (on "resize" 2%nat (@initial Z)))).
  { apply list_elem_of_In. vm_compute. tauto. }
  split; [exact Hin|].
  exact (proj1 (proj2 (X2_on_registers_once
           (on "resize" 1%nat (on "resize" 2%nat (@initial Z)))
           "resize" 2%nat)) Hin).
Defined.
End BusWitnesses.

(** ** The frame dispatchers under any sequence of calls *)

Section DispatchersMore.

Lemma StronglySorted_filter_bool {A} (T : relation A) (f : A -> bool) (l : list A) :
  StronglySorted T l -> StronglySorted T (List.filter f l).
Proof.
  induction 1 as [|a l Hl IH Ha]; simpl; [constructor|].
  destruct (f a); [|done]. constructor; [done|].
  clear Hl IH. induction Ha as [|b l' Hb Hl' IH']; simpl; [constructor|].
  destruct (f b); [by constructor|done].
Qed.

Lemma filter_bool_Permutation {A} (f : A -> bool) (l l' : list A) :
  l ≡ₚ l' -> List.filter f l ≡ₚ List.filter f l'.
Proof.
  induction 1 as [|a l l' Hp IH|a b l|l l' l'' Hp IH Hp' IH']; simpl.
  - done.
  - destruct (f a); [by constructor|done].
  - destruct (f a), (f b); try done. apply perm_swap.
  - by etransitivity.
Qed.

Lemma filter_bool_fmap {A B} (g : A -> B) (f : B -> bool) (l : list A) :
  List.filter f (g <$> l) = g <$> List.filter (fun a => f (g a)) l.
Proof.
  induction l as [|a l IH]; [done|].
  rewrite fmap_cons. simpl. destruct (f (g a)); rewrite IH; by try rewrite fmap_cons.
Qed.

Lemma collection_run_sorted (cs : list RAFCollection.call)
    (st : RAFCollection.state) :
  StronglySorted (fun a b => RAFCollection.index a <= RAFCollection.index b)
    (RAFCollection.callbacks st) ->
  StronglySorted (fun a b => RAFCollection.index a <= RAFCollection.index b)
    (RAFCollection.callbacks (RAFCollection.run cs st).1).
Proof.
  revert st. induction cs as [|[c i|c|] cs IH]; intros st Hst; simpl; [done|..|done].
  - apply IH. simpl. apply add_sort_sorted.
  - apply IH. simpl. by apply StronglySorted_filter_bool.
Qed.

(** X5.  Whatever [add] and [remove] calls have been made, in whatever
    order, the callbacks of a [RAFCollection] are in non-decreasing
    priority. *)
Theorem X5_collection_always_in_priority_order (cs : list RAFCollection.call) :
  StronglySorted (fun a b => RAFCollection.index a <= RAFCollection.index b)
    (RAFCollection.callbacks (RAFCollection.run cs RAFCollection.empty).1).
Proof. apply collection_run_sorted. constructor. Qed.

(** X6.  [remove(cb)] takes out every registration of the callback at
    once, with whatever priorities it was added, and no other: after any
    sequence of [add] calls, what is left is the registrations of the other
    callbacks. *)
Theorem X6_remove_takes_every_registration (regs : list (nat * Z)) (c : nat) :
  let st := RAFCollection.remove c (RAFCollection.add_all regs) in
  RAFCollection.callbacks st ≡ₚ
    (fun r => RAFCollection.Item r.1 r.2) <$>
      List.filter (fun r => negb (r.1 =? c)%nat) regs.
Proof.
  cbv zeta. unfold RAFCollection.remove. simpl.
  destruct (add_all_from regs RAFCollection.empty) as [Hperm _].
  fold (RAFCollection.add_all regs) in Hperm. simpl in Hperm.
  rewrite (filter_bool_Permutation _ _ _ Hperm).
  by rewrite filter_bool_fmap.
Qed.

Lemma add_length c i (st : RAFCollection.state) :
  length (RAFCollection.callbacks (RAFCollection.add c i st))
  = S (length (RAFCollection.callbacks st)).
Proof.
  simpl. rewrite (Permutation_length (sort_Permutation _ _)).
  rewrite length_app. simpl. lia.
Qed.

(** X7.  [_onRAF] reads the length of [this.callbacks] at every round:
    if every callback adds a callback when it runs, the array grows as fast
    as the loop advances and a tick of a collection that is not empty never
    ends. *)
Theorem X7_tick_of_adding_callbacks_never_ends
    (body : nat -> Q -> list RAFCollection.call) (t : Q)
    (st : RAFCollection.state) :
  (forall c, exists c' k, body c t = [RAFCollection.Add c' k]) ->
  RAFCollection.callbacks st <> [] ->
  forall fuel, RAFCollection._onRAF body fuel t st = None.
Proof.
  intros Hadd Hne fuel. unfold RAFCollection._onRAF.
  assert (Hlt : (0 < length (RAFCollection.callbacks st))%nat)
    by (destruct (RAFCollection.callbacks st); [done|simpl; lia]).
  clear Hne. revert Hlt. generalize 0%nat as i. revert st.
  induction fuel as [|fuel IH]; intros st i Hlt; [done|].
  cbn [RAFCollection._onRAF_from].
  destruct (lookup_lt_is_Some_2 _ _ Hlt) as [it Hit]. rewrite Hit.
  destruct (Hadd (RAFCollection.cb it)) as (c' & k & ->). cbn [RAFCollection.run].
  apply IH. rewrite add_length. simpl. lia.
Qed.

Lemma X7_tick_of_adding_callbacks_never_ends_witness :
  let body := fun (c : nat) (_ : Q) => [RAFCollection.Add c 0] in
  let st := RAFCollection.add_all [(1%nat, 0)] in
  RAFCollection.callbacks st <> [] /\
  forall fuel, RAFCollection._onRAF body fuel 0%Q st = None.
Proof.
  assert (Hne : RAFCollection.callbacks (RAFCollection.add_all [(1%nat, 0)]) <> [])
    by (vm_compute; discriminate).
  split; [exact Hne|].
  exact (X7_tick_of_adding_callbacks_never_ends
           (fun c _ => [RAFCollection.Add c 0]) 0%Q
           (RAFCollection.add_all [(1%nat, 0)])
           (fun c => ex_intro _ c (ex_intro _ 0 eq_refl)) Hne).
Defined.

Lemma onRaf_array_length c i r (st : RuntimeProvider.state) :
  (RuntimeProvider.subs_current st < length (RuntimeProvider.arrays st))%nat ->
  let st' := (RuntimeProvider.onRaf c i st).1 in
  RuntimeProvider.subs_current st' = RuntimeProvider.subs_current st /\
  length (RuntimeProvider.arrays st') = length (RuntimeProvider.arrays st) /\
  (r = RuntimeProvider.subs_current st ->
   length (RuntimeProvider.array_at r st')
   = S (length (RuntimeProvider.array_at r st))).
Proof.
  intros Hr. simpl. split; [done|]. split; [by rewrite length_insert|].
  intros ->. unfold RuntimeProvider.array_at at 1. simpl.
  rewrite list_lookup_insert_eq by done. simpl.
  rewrite (Permutation_length (sort_Permutation _ _)).
  rewrite length_app. unfold RuntimeProvider.subs. simpl. lia.
Qed.

Lemma for_of_growing (body : nat -> Q -> list RuntimeProvider.call) (t : Q) :
  (forall c, exists c' k, body c t = [RuntimeProvider.OnRaf c' k]) ->
  forall fuel st i,
    (RuntimeProvider.subs_current st < length (RuntimeProvider.arrays st))%nat ->
    (i < length (RuntimeProvider.subs st))%nat ->
    RuntimeProvider.for_of body fuel (RuntimeProvider.subs_current st) i t st
    = None.
Proof.
  intros Hadd. induction fuel as [|fuel IH]; intros st i Hr Hlt; [done|].
  cbn [RuntimeProvider.for_of]. fold (RuntimeProvider.subs st).
  destruct (lookup_lt_is_Some_2 _ _ Hlt) as [e He]. rewrite He.
  destruct (Hadd (RuntimeProvider.cb e)) as (c' & k & ->).
  cbn [RuntimeProvider.run].
  set (st1 := RuntimeProvider.record (RuntimeProvider.cb e) t st).
  destruct (onRaf_array_length c' k (RuntimeProvider.subs_current st1) st1)
    as (Hcur & Hlen & Harr); [done|].
  change (RuntimeProvider.subs_current st)
    with (RuntimeProvider.subs_current st1).
  rewrite <-Hcur. apply IH.
  - rewrite Hlen, Hcur. done.
  - unfold RuntimeProvider.subs. rewrite Hcur, Harr by done.
    change (RuntimeProvider.array_at (RuntimeProvider.subs_current st1) st1)
      with (RuntimeProvider.subs st). lia.
Qed.

(** X8.  The loop of [RuntimeProvider] iterates the array that [onRaf]
    pushes to: if every callback subscribes a callback when it runs, a
    frame with a queue that is not empty never ends. *)
Theorem X8_frame_of_subscribing_callbacks_never_ends
    (body : nat -> Q -> list RuntimeProvider.call) (t : Q)
    (st : RuntimeProvider.state) :
  (forall c, exists c' k, body c t = [RuntimeProvider.OnRaf c' k]) ->
  (RuntimeProvider.subs_current st < length (RuntimeProvider.arrays st))%nat ->
  RuntimeProvider.subs st <> [] ->
  forall fuel, RuntimeProvider.loop body fuel t st = None.
Proof.
  intros Hadd Hr Hne fuel. unfold RuntimeProvider.loop.
  rewrite (for_of_growing body t Hadd); [done|done|].
  destruct (RuntimeProvider.subs st); [done|simpl; lia].
Qed.

Lemma X8_frame_of_subscribing_callbacks_never_ends_witness :
  let body := fun (c : nat) (_ : Q) => [RuntimeProvider.OnRaf c 2] in
  let st := RuntimeProvider.onRaf_all [(1%nat, 2%Z)] in
  (RuntimeProvider.subs_current st < length (RuntimeProvider.arrays st))%nat /\
  RuntimeProvider.subs st <> [] /\
  forall fuel, RuntimeProvider.loop body fuel 0%Q st = None.
Proof.
  assert (Hr : (RuntimeProvider.subs_current (RuntimeProvider.onRaf_all [(1%nat, 2%Z)])
                < length (RuntimeProvider.arrays
                            (RuntimeProvider.onRaf_all [(1%nat, 2%Z)])))%nat)
    by (vm_compute; lia).
  assert (Hne : RuntimeProvider.subs (RuntimeProvider.onRaf_all [(1%nat, 2%Z)]) <> [])
    by (vm_compute; discriminate).
  split; [exact Hr|]. split; [exact Hne|].
  exact (X8_frame_of_subscribing_callbacks_never_ends
           (fun c _ => [RuntimeProvider.OnRaf c 2]) 0%Q
           (RuntimeProvider.onRaf_all [(1%nat, 2%Z)])
           (fun c => ex_intro _ c (ex_intro _ 2 eq_refl)) Hr Hne).
Defined.

Lemma NoDup_fmap_filter_bool {A B} (g : A -> B) (f : A -> bool) (l : list A) :
  NoDup (g <$> l) -> NoDup (g <$> List.filter f l).
Proof.
  induction l as [|a l IH]; [done|]. rewrite fmap_cons. simpl.
  intros [Hnot Hl]%NoDup_cons. destruct (f a); [|by apply IH].
  rewrite fmap_cons. apply NoDup_cons. split; [|by apply IH].
  intros (b & Hb & Hin)%list_elem_of_fmap. apply Hnot.
  apply list_elem_of_fmap. exists b. split; [done|].
  apply list_elem_of_In, List.filter_In in Hin as [Hin _].
  by apply list_elem_of_In.
Qed.

Lemma queue_wf_initial : RuntimeProvider.queue_wf RuntimeProvider.initial.
Proof. split; [apply queue_ok_initial|constructor]. Qed.

Lemma queue_wf_onRaf c i (st : RuntimeProvider.state) :
  RuntimeProvider.queue_wf st ->
  RuntimeProvider.queue_wf (RuntimeProvider.onRaf c i st).1.
Proof.
  intros [Hok Hnodup]. split; [by apply queue_ok_onRaf|].
  destruct Hok as (Hr & _ & Hfresh).
  rewrite subs_onRaf by done.
  rewrite (sort_Permutation RuntimeProvider.compare).
  rewrite fmap_app. apply NoDup_app. split_and!; [done| |apply NoDup_singleton].
  intros k (e & -> & He)%list_elem_of_fmap Heq%list_elem_of_singleton.
  rewrite Forall_forall in Hfresh. specialize (Hfresh e He). simpl in *. lia.
Qed.

Lemma queue_wf_unsubscribe h (st : RuntimeProvider.state) :
  RuntimeProvider.queue_wf st ->
  RuntimeProvider.queue_wf (RuntimeProvider.unsubscribe h st).
Proof.
  intros [(Hr & Hsorted & Hfresh) Hnodup].
  unfold RuntimeProvider.queue_wf, RuntimeProvider.queue_ok.
  rewrite subs_unsubscribe. split_and!.
  - simpl. rewrite length_app. simpl. lia.
  - by apply StronglySorted_filter_bool.
  - simpl. apply Forall_forall. intros e He.
    apply list_elem_of_In, List.filter_In in He as [He _].
    rewrite Forall_forall in Hfresh. apply Hfresh. by apply list_elem_of_In.
  - by apply NoDup_fmap_filter_bool.
Qed.

Lemma queue_wf_run (cs : list RuntimeProvider.call) (st : RuntimeProvider.state) :
  RuntimeProvider.queue_wf st ->
  RuntimeProvider.queue_wf (RuntimeProvider.run cs st).1.
Proof.
  revert st. induction cs as [|[c i|h|] cs IH]; intros st Hwf; simpl;
    [done| | |done]; apply IH.
  - by apply queue_wf_onRaf.
  - by apply queue_wf_unsubscribe.
Qed.

(** X9.  Whatever [onRaf] calls and closure calls have been made, in
    whatever order, the queue of [RuntimeProvider] is in priority order
    with equal priorities in the order of registration, and every entry
    in it is a different object. *)
Theorem X9_queue_always_in_order (cs : list RuntimeProvider.call) :
  let st := (RuntimeProvider.run cs RuntimeProvider.initial).1 in
  StronglySorted RuntimeProvider.runs_before (RuntimeProvider.subs st) /\
  NoDup (RuntimeProvider.eid <$> RuntimeProvider.subs st).
Proof.
  destruct (queue_wf_run cs _ queue_wf_initial) as [(_ & Hsorted & _) Hnodup].
  by split.
Qed.

Lemma unsubscribed_run h (cs : list RuntimeProvider.call)
    (st : RuntimeProvider.state) :
  (RuntimeProvider.subs_current st < length (RuntimeProvider.arrays st))%nat ->
  (h < RuntimeProvider.next_eid st)%nat ->
  Forall (fun e => RuntimeProvider.eid e <> h) (RuntimeProvider.subs st) ->
  Forall (fun e => RuntimeProvider.eid e <> h)
    (RuntimeProvider.subs (RuntimeProvider.run cs st).1).
Proof.
  revert st. induction cs as [|[c i|k|] cs IH]; intros st Hr Hh Hgone;
    cbn [RuntimeProvider.run fst]; [done|..|done].
  - destruct (onRaf_array_length c i 0 st Hr) as (Hcur & Hlen & _).
    apply IH.
    + by rewrite Hcur, Hlen.
    + simpl. lia.
    + rewrite subs_onRaf by done.
      rewrite (sort_Permutation RuntimeProvider.compare).
      apply Forall_app. split; [done|].
      constructor; [simpl; lia|constructor].
  - apply IH.
    + simpl. rewrite length_app. simpl. lia.
    + done.
    + rewrite subs_unsubscribe. apply Forall_forall. intros e He.
      apply list_elem_of_In, List.filter_In in He as [He _].
      rewrite Forall_forall in Hgone. apply Hgone. by apply list_elem_of_In.
Qed.

(** X10.  Once the closure returned by an [onRaf] call has been called, the
    entry of that call is in no later queue, whatever is subscribed or
    unsubscribed afterwards. *)
Theorem X10_unsubscribed_entry_never_returns
    (before after : list RuntimeProvider.call) (h : nat) :
  let st := (RuntimeProvider.run before RuntimeProvider.initial).1 in
  (h < RuntimeProvider.next_eid st)%nat ->
  Forall (fun e => RuntimeProvider.eid e <> h)
    (RuntimeProvider.subs
       (RuntimeProvider.run after (RuntimeProvider.unsubscribe h st)).1).
Proof.
  intros st Hh.
  destruct (queue_wf_run before _ queue_wf_initial) as [(Hr & _ & _) _].
  fold st in Hr.
  apply unsubscribed_run.
  - simpl. rewrite length_app. simpl. lia.
  - done.
  - rewrite subs_unsubscribe. apply Forall_forall. intros e He.
    apply list_elem_of_In, List.filter_In in He as [_ Hne].
    by apply negb_true_iff, Nat.eqb_neq in Hne.
Qed.

Lemma X10_unsubscribed_entry_never_returns_witness :
  let st := (RuntimeProvider.run
               [RuntimeProvider.OnRaf 1 0; RuntimeProvider.OnRaf 2 1]
               RuntimeProvider.initial).1 in
  (0 < RuntimeProvider.next_eid st)%nat /\
  Forall (fun e => RuntimeProvider.eid e <> 0%nat)
    (RuntimeProvider.subs
       (RuntimeProvider.run [RuntimeProvider.OnRaf 1 0]
          (RuntimeProvider.unsubscribe 0 st)).1).
Proof.
  assert (Hh : (0 < RuntimeProvider.next_eid
                      (RuntimeProvider.run
                         [RuntimeProvider.OnRaf 1 0; RuntimeProvider.OnRaf 2 1]
                         RuntimeProvider.initial).1)%nat)
    by (vm_compute; lia).
  split; [exact Hh|].
  exact (X10_unsubscribed_entry_never_returns
           [RuntimeProvider.OnRaf 1 0; RuntimeProvider.OnRaf 2 1]
           [RuntimeProvider.OnRaf 1 0] 0%nat Hh).
Defined.

Lemma filter_out_one (l : list RuntimeProvider.Entry) (e : RuntimeProvider.Entry) :
  NoDup (RuntimeProvider.eid <$> l) -> e ∈ l ->
  l ≡ₚ e :: List.filter
             (fun x => negb (RuntimeProvider.eid x =? RuntimeProvider.eid e)%nat) l.
Proof.
  induction l as [|a l IH]; [by intros _ ?%elem_of_nil|].
  rewrite fmap_cons. intros [Hnot Hl]%NoDup_cons Hin. simpl.
  apply elem_of_cons in Hin as [->|Hin].
  - rewrite Nat.eqb_refl. simpl. f_equiv.
    rewrite filter_bool_id; [done|].
    intros b Hb. apply negb_true_iff, Nat.eqb_neq. intros Heq.
    apply Hnot. rewrite <-Heq. by apply list_elem_of_fmap_2.
  - destruct (Nat.eqb_spec (RuntimeProvider.eid a) (RuntimeProvider.eid e))
      as [Heq|_]; simpl.
    + exfalso. apply Hnot. rewrite Heq. by apply list_elem_of_fmap_2.
    + rewrite (IH Hl Hin) at 1. apply perm_swap.
Qed.

(** X11.  A closure returned by [onRaf] removes the entry of its own call
    and nothing else: the other entries stay, also those made for the same
    callback function by other [onRaf] calls. *)
Theorem X11_unsubscribe_removes_own_entry_only
    (cs : list RuntimeProvider.call) (e : RuntimeProvider.Entry) :
  let st := (RuntimeProvider.run cs RuntimeProvider.initial).1 in
  e ∈ RuntimeProvider.subs st ->
  RuntimeProvider.subs st ≡ₚ
    e :: RuntimeProvider.subs
           (RuntimeProvider.unsubscribe (RuntimeProvider.eid e) st).
Proof.
  intros st He.
  destruct (queue_wf_run cs _ queue_wf_initial) as [_ Hnodup]. fold st in Hnodup.
  rewrite subs_unsubscribe. by apply filter_out_one.
Qed.

Lemma X11_unsubscribe_removes_own_entry_only_witness :
  let st := (RuntimeProvider.run
               [RuntimeProvider.OnRaf 7 2; RuntimeProvider.OnRaf 7 2]
               RuntimeProvider.initial).1 in
  RuntimeProvider.MkEntry 0 2 7 ∈ RuntimeProvider.subs st /\
  RuntimeProvider.subs st ≡ₚ
    RuntimeProvider.MkEntry 0 2 7
      :: RuntimeProvider.subs (RuntimeProvider.unsubscribe 0 st).
Proof.
  assert (He : RuntimeProvider.MkEntry 0 2 7 ∈
                 RuntimeProvider.subs
                   (RuntimeProvider.run
                      [RuntimeProvider.OnRaf 7 2; RuntimeProvider.OnRaf 7 2]
                      RuntimeProvider.initial).1)
    by (apply list_elem_of_In; vm_compute; tauto).
  split; [exact He|].
  exact (X11_unsubscribe_removes_own_entry_only
           [RuntimeProvider.OnRaf 7 2; RuntimeProvider.OnRaf 7 2]
           (RuntimeProvider.MkEntry 0 2 7) He).
Defined.
End DispatchersMore.


(** ** The pointer spaces: ranges and conversions *)

Section PointerMore.
Local Open Scope Q_scope.

Lemma ratio_in_unit (a b : Q) : 0 <= a -> a <= b -> 0 < b -> 0 <= a / b /\ a / b <= 1.
Proof.
  intros Ha Hab Hb. split.
  - apply Qle_shift_div_l; [done|]. lra.
  - apply Qle_shift_div_r; [done|]. lra.
Qed.

(** X12.  For a sample inside a viewport of positive size, [onMove] leaves
    the screen space in [0, 1], the device space in [-1, 1] and the
    centered pixels within half the viewport on each side. *)
Theorem X12_onMove_ranges (cx cy w h now : Q) (st : RuntimePointer.state) :
  0 < w -> 0 < h -> 0 <= cx -> cx <= w -> 0 <= cy -> cy <= h ->
  let p := RuntimePointer.pointer (RuntimePointer.onMove cx cy w h now st) in
  (0 <= x (RuntimePointer.screen p) /\ x (RuntimePointer.screen p) <= 1) /\
  (0 <= y (RuntimePointer.screen p) /\ y (RuntimePointer.screen p) <= 1) /\
  (-1 <= x (RuntimePointer.ndc p) /\ x (RuntimePointer.ndc p) <= 1) /\
  (-1 <= y (RuntimePointer.ndc p) /\ y (RuntimePointer.ndc p) <= 1) /\
  (- (w / 2) <= x (RuntimePointer.gl p) /\ x (RuntimePointer.gl p) <= w / 2) /\
  (- (h / 2) <= y (RuntimePointer.gl p) /\ y (RuntimePointer.gl p) <= h / 2).
Proof.
  intros Hw Hh Hx0 Hx1 Hy0 Hy1 p. unfold p.
  cbn [RuntimePointer.pointer RuntimePointer.onMove RuntimePointer.screen
       RuntimePointer.ndc RuntimePointer.gl x y].
  destruct (ratio_in_unit cx w Hx0 Hx1 Hw) as [Hxa Hxb].
  destruct (ratio_in_unit cy h Hy0 Hy1 Hh) as [Hya Hyb].
  revert Hxa Hxb Hya Hyb. generalize (cx / w), (cy / h). intros qx qy ????.
  assert (Hw2 : w / 2 + w / 2 == w) by field.
  assert (Hh2 : h / 2 + h / 2 == h) by field.
  revert Hw2 Hh2. generalize (w / 2), (h / 2). intros hw hh ??.
  repeat split; lra.
Qed.

Lemma X12_onMove_ranges_witness :
  0 < 200 /\ 0 < 100 /\ 0 <= 30 /\ 30 <= 200 /\ 0 <= 100 /\ 100 <= 100 /\
  let p := RuntimePointer.pointer
             (RuntimePointer.onMove 30 100 200 100 5 (RuntimePointer.mounted 0)) in
  -1 <= y (RuntimePointer.ndc p) /\ y (RuntimePointer.ndc p) <= 1.
Proof.
  assert (H1 : 0 < 200) by reflexivity. assert (H2 : 0 < 100) by reflexivity.
  assert (H3 : 0 <= 30) by (vm_compute; discriminate).
  assert (H4 : 30 <= 200) by (vm_compute; discriminate).
  assert (H5 : 0 <= 100) by (vm_compute; discriminate).
  assert (H6 : 100 <= 100) by (vm_compute; discriminate).
  split_and!; [done..|].
  exact (proj1 (proj2 (proj2 (proj2
           (X12_onMove_ranges 30 100 200 100 5 (RuntimePointer.mounted 0)
              H1 H2 H3 H4 H5 H6))))).
Defined.

(** X13.  The velocity written by [onMove] is never larger than the
    distance moved since the previous sample, on either axis, whatever the
    two timestamps are (the elapsed time is taken as at least 1); a sample
    at the previous position gives velocity 0. *)
Theorem X13_velocity_bounded_by_displacement (cx cy w h now : Q)
    (st : RuntimePointer.state) :
  let l := RuntimePointer.last st in
  let v := RuntimePointer.v
             (RuntimePointer.pointer (RuntimePointer.onMove cx cy w h now st)) in
  Qabs (x v) <= Qabs (cx - RuntimePointer.last_x l) /\
  Qabs (y v) <= Qabs (cy - RuntimePointer.last_y l) /\
  x (RuntimePointer.v
       (RuntimePointer.pointer
          (RuntimePointer.onMove (RuntimePointer.last_x l) cy w h now st))) == 0.
Proof.
  intros l v. unfold v.
  cbn [RuntimePointer.v RuntimePointer.pointer RuntimePointer.onMove x y].
  fold l.
  set (dt := Qmax 1 (now - RuntimePointer.last_t l)).
  assert (Hdt : 1 <= dt) by apply Q.le_max_l.
  assert (Hbound : forall a, Qabs (a / dt) <= Qabs a).
  { intros a. unfold Qdiv. rewrite Qabs_Qmult.
    assert (Hinv : Qabs (/ dt) <= 1).
    { rewrite Qabs_pos by (apply Qinv_le_0_compat; lra).
      apply Qle_shift_inv_r; lra. }
    pose proof (Qabs_nonneg a) as Ha.
    pose proof (Qabs_nonneg (/ dt)) as Hk.
    revert Ha Hk Hinv. generalize (Qabs a), (Qabs (/ dt)). intros u k ???.
    nra. }
  split_and!; [apply Hbound..|].
  unfold Qdiv. ring.
Qed.



(** X15.  For a sample inside a viewport of positive size,
    [InputManager._onPointerMove] leaves [glNormalized] in [-1, 1] and
    [glScreenSpace] in [0, 1] on both axes, whether the pointer is down
    or not and whether or not a subscriber of the bus throws. *)
Theorem X15_input_manager_ranges (cx cy w h : Q)
    (m0 : InputManager.Mouse) (im : InputManager.state) :
  0 < w -> 0 < h -> 0 <= cx -> cx <= w -> 0 <= cy -> cy <= h ->
  let g := InputManager.MkG (InputManager.MkWindow w h) m0 in
  let m := InputManager.mouse (InputManager._onPointerMove cx cy g im).1.1 in
  exists n s,
    InputManager.glNormalized m = Some n /\
    InputManager.glScreenSpace m = Some s /\
    (-1 <= x n /\ x n <= 1) /\ (-1 <= y n /\ y n <= 1) /\
    (0 <= x s /\ x s <= 1) /\ (0 <= y s /\ y s <= 1).
Proof.
  intros Hw Hh Hx0 Hx1 Hy0 Hy1 g m.
  destruct (ratio_in_unit cx w Hx0 Hx1 Hw) as [Hxa Hxb].
  destruct (ratio_in_unit cy h Hy0 Hy1 Hh) as [Hya Hyb].
  revert Hxa Hxb Hya Hyb.
  unfold m, g. rewrite move_writes_mouse. unfold InputManager.set_mouse.
  cbn [fst snd InputManager.mouse InputManager.window InputManager.w
       InputManager.h InputManager.glNormalized InputManager.glScreenSpace].
  generalize (cx / w), (cy / h); intros qx qy ????.
  eexists; eexists; split; [reflexivity|]; split; [reflexivity|].
  cbn [x y]; repeat split; lra.
Qed.

Lemma X15_input_manager_ranges_witness :
  0 < 200 /\ 0 < 100 /\ 0 <= 30 /\ 30 <= 200 /\ 0 <= 100 /\ 100 <= 100 /\
  let g := InputManager.MkG (InputManager.MkWindow 200 100)
             InputManager.initial_mouse in
  let m := InputManager.mouse
             (InputManager._onPointerMove 30 100 g InputManager.initial).1.1 in
  exists n s,
    InputManager.glNormalized m = Some n /\
    InputManager.glScreenSpace m = Some s /\
    (-1 <= x n /\ x n <= 1) /\ (-1 <= y n /\ y n <= 1) /\
    (0 <= x s /\ x s <= 1) /\ (0 <= y s /\ y s <= 1).
Proof.
  assert (H1 : 0 < 200) by reflexivity. assert (H2 : 0 < 100) by reflexivity.
  assert (H3 : 0 <= 30) by (vm_compute; discriminate).
  assert (H4 : 30 <= 200) by (vm_compute; discriminate).
  assert (H5 : 0 <= 100) by (vm_compute; discriminate).
  assert (H6 : 100 <= 100) by (vm_compute; discriminate).
  split_and!; [done..|].
  exact (X15_input_manager_ranges 30 100 200 100
           InputManager.initial_mouse InputManager.initial H1 H2 H3 H4 H5 H6).
Defined.
End PointerMore.

(** ** The input manager as a state machine *)

Section Dragging.
Import InputManager.

Lemma drags_app (out1 out2 : list emitted) :
  drags (out1 ++ out2) = (drags out1 + drags out2)%nat.
Proof. unfold drags. by rewrite List.filter_app, length_app. Qed.

(** The handlers leave the bus alone and count their emits. *)
Lemma handle_bus (e : event) (g : Global) (st : state) :
  bus (handle e g st).1.2 = bus st /\
  emits (handle e g st).1.2 = (emits st + length (handle e g st).2)%nat.
Proof.
  destruct st as [dr mp [ppx ppy] [opx opy] b n].
  destruct e as [mx my|mx my| |rw rh];
    cbn [handle _onPointerMove _onPointerDown _onPointerUp _onResize emit
         dragging mousePos prevMousePos origMousePos bus emits fst snd].
  - destruct (b n); [destruct dr; [destruct (b (S n))|]|];
      simpl; (split; [done|lia]).
  - destruct (b n); simpl; (split; [done|lia]).
  - destruct (b n); simpl; (split; [done|lia]).
  - simpl. split; [done|lia].
Qed.

(** One event, when none of the emits made for it throws. *)
Lemma handle_returned (e : event) (g : Global) (st : state)
    (rest : list emitted) (es : list event) :
  (forall k, (emits st <= k < emits st + length (handle e g st).2)%nat ->
             bus st k = Returned) ->
  let st1 := (handle e g st).1.2 in
  (drags_ok (if dragging st1 then Some (origMousePos st1) else None)
     (prevMousePos st1) (mousePos st1) rest ->
   drags_ok (if dragging st then Some (origMousePos st) else None)
     (prevMousePos st) (mousePos st) ((handle e g st).2 ++ rest)) /\
  moves_while_down (dragging st) (e :: es)
  = (drags (handle e g st).2 + moves_while_down (dragging st1) es)%nat.
Proof.
  destruct st as [dr mp [ppx ppy] [opx opy] b n].
  destruct e as [mx my|mx my| |rw rh];
    cbn [handle _onPointerMove _onPointerDown _onPointerUp _onResize emit
         dragging mousePos prevMousePos origMousePos bus emits fst snd].
  - destruct (b n) eqn:E0.
    + destruct dr.
      * destruct (b (S n)) eqn:E1.
        -- intros _. cbn [fst snd dragging mousePos prevMousePos origMousePos
                          app drags_ok moves_while_down]. split; done.
        -- intros H. cbn [fst snd length] in H.
           specialize (H (S n) ltac:(lia)). congruence.
      * intros _. cbn [fst snd dragging mousePos prevMousePos origMousePos
                       app drags_ok moves_while_down]. split; done.
    + intros H. cbn [fst snd length] in H.
      specialize (H n ltac:(lia)). congruence.
  - destruct (b n) eqn:E0.
    + intros _. cbn [fst snd dragging mousePos prevMousePos origMousePos
                     app drags_ok moves_while_down]. split; done.
    + intros H. cbn [fst snd length] in H.
      specialize (H n ltac:(lia)). congruence.
  - destruct (b n) eqn:E0.
    + intros _. cbn [fst snd dragging mousePos prevMousePos origMousePos
                     app drags_ok moves_while_down]. split; done.
    + intros H. cbn [fst snd length] in H.
      specialize (H n ltac:(lia)). congruence.
  - intros _. cbn [fst snd dragging mousePos prevMousePos origMousePos
                   app drags_ok moves_while_down]. split; done.
Qed.

Lemma handle_all_drags (es : list event) (g : Global) (st : state) :
  let out := (handle_all es g st).2 in
  (forall k, (emits st <= k < emits st + length out)%nat ->
             bus st k = Returned) ->
  drags_ok (if dragging st then Some (origMousePos st) else None)
    (prevMousePos st) (mousePos st) out /\
  drags out = moves_while_down (dragging st) es.
Proof.
  revert g st. induction es as [|e es IH]; intros g st; [done|].
  cbn [handle_all].
  destruct (handle_bus e g st) as [Hb He].
  pose proof (handle_returned e g st) as Hstep.
  specialize (IH (handle e g st).1.1 (handle e g st).1.2).
  destruct (handle e g st) as [[g1 st1] out1]. cbn [fst snd] in *.
  destruct (handle_all es g1 st1) as [[g2 st2] out2].
  cbn [fst snd] in *. intros H.
  destruct IH as [IH1 IH2].
  { intros k Hk. rewrite Hb. apply H. rewrite length_app. lia. }
  destruct (Hstep out2 es) as [Hs1 Hs2].
  { intros k Hk. apply H. rewrite length_app. lia. }
  split; [by apply Hs1|].
  rewrite drags_app, IH2, Hs2. done.
Qed.

(** X16.  Whatever events the manager receives, from the state its
    constructor sets: when none of the emits made on the way throws,
    every [MOUSEDRAG] it emits comes while the pointer is down, after the
    [MOUSEMOVE] of the same sample, and carries the position where the
    pointer went down, the previous sample of that drag and the present
    one; and it emits one for each move made while the pointer is down,
    and none for the others.  A throw from a subscriber ends the handler
    before it updates [dragging]: when the emit of [MOUSEUP] throws, the
    manager stays in a drag, and the next move emits a [MOUSEDRAG] though
    the pointer is up; when the emit of [MOUSEDOWN] throws, no drag
    starts. *)
Theorem X16_drag_events (b : nat -> outcome) (es : list event) (g : Global) :
  let out := (handle_all es g (initial_on b)).2 in
  ((forall k, (k < length out)%nat -> b k = Returned) ->
   drags_ok None (Vec 0 0) (Vec 0 0) out /\
   drags out = moves_while_down false es) /\
  (forall (st : state) (g' : Global),
      bus st (emits st) = Threw ->
      dragging (_onPointerUp g' st).1.2 = dragging st /\
      (forall dx dy,
          dragging (_onPointerDown dx dy g' st).1.2 = dragging st)) /\
  (forall dx dy ux uy,
      b 0%nat = Returned -> b 1%nat = Threw ->
      b 2%nat = Returned -> b 3%nat = Returned ->
      (handle_all [Down dx dy; Up; Move ux uy] g (initial_on b)).2
      = [MOUSEDOWN (Vec dx dy); MOUSEUP; MOUSEMOVE (Vec ux uy);
         MOUSEDRAG dx dx ux dy dy uy]).
Proof.
  cbv zeta. split_and!.
  - intros H. apply (handle_all_drags es g (initial_on b)).
    intros k Hk. apply H. cbn [emits initial_on] in Hk. lia.
  - intros st g' Hthrew. unfold _onPointerUp, _onPointerDown, emit.
    cbn [dragging mousePos prevMousePos origMousePos bus emits].
    rewrite Hthrew. done.
  - intros dx dy ux uy H0 H1 H2 H3.
    cbn [handle_all handle _onPointerMove _onPointerDown _onPointerUp emit
         initial_on dragging mousePos prevMousePos origMousePos bus emits
         fst snd].
    rewrite H0. cbn [dragging mousePos prevMousePos origMousePos bus emits
                     fst snd].
    rewrite H1. cbn [dragging mousePos prevMousePos origMousePos bus emits
                     fst snd].
    unfold _onPointerMove, emit.
    cbn [dragging mousePos prevMousePos origMousePos bus emits fst snd].
    rewrite H2. cbn [dragging mousePos prevMousePos origMousePos bus emits
                     fst snd].
    rewrite H3. reflexivity.
Qed.
End Dragging.

Lemma X16_drag_events_witness :
  let b := fun _ : nat => Returned in
  let es := [InputManager.Down 10 20; InputManager.Move 30 40;
             InputManager.Up; InputManager.Move 50 60] in
  let g := InputManager.MkG (InputManager.MkWindow 200 100)
             InputManager.initial_mouse in
  (forall k, (k < length (InputManager.handle_all es g
                            (InputManager.initial_on b)).2)%nat ->
             b k = Returned) /\
  InputManager.drags
    (InputManager.handle_all es g (InputManager.initial_on b)).2
  = 1%nat.
Proof.
  assert (H : forall k : nat,
             (k < length (InputManager.handle_all
                            [InputManager.Down 10 20; InputManager.Move 30 40;
                             InputManager.Up; InputManager.Move 50 60]
                            (InputManager.MkG (InputManager.MkWindow 200 100)
                               InputManager.initial_mouse)
                            (InputManager.initial_on
                               (fun _ : nat => Returned))).2)%nat ->
             (fun _ : nat => Returned) k = Returned)
    by (intros k _; reflexivity).
  split; [exact H|].
  exact (proj2 (proj1 (X16_drag_events (fun _ : nat => Returned)
           [InputManager.Down 10 20; InputManager.Move 30 40;
            InputManager.Up; InputManager.Move 50 60]
           (InputManager.MkG (InputManager.MkWindow 200 100)
              InputManager.initial_mouse)) H)).
Defined.

(** ** The component manager: construction and lifecycle *)

Section ComponentsMore.
Context {Element Instance : Type}.
Import ComponentManager.

Lemma make_each_ok (C : @Component Element Instance) (nodes : list Element) :
  let r := make_each C nodes in
  match r.2 with
  | Some cs => r.1 = nodes /\ Forall2 (fun n c => construct C n = Some c) nodes cs
  | None => exists before n after,
      nodes = before ++ n :: after /\ r.1 = before ++ [n] /\
      construct C n = None /\
      Forall (fun k => construct C k <> None) before
  end.
Proof.
  induction nodes as [|n nodes IH]; simpl; [by split; [|constructor]|].
  destruct (construct C n) as [c|] eqn:Hn; simpl.
  - destruct (make_each C nodes) as [called [cs|]]; simpl in *.
    + destruct IH as [-> IH]. split; [done|]. by constructor.
    + destruct IH as (before & k & after & -> & -> & Hk & Hbefore).
      exists (n :: before), k, after. split_and!; [done..|].
      constructor; [congruence|done].
  - exists [], n, nodes. split_and!; [done..|constructor].
Qed.

(** X17.  When the class has a selector and the query succeeds, the
    constructor calls the component constructor on the matched elements in
    document order.  If none throws, there is one component per matched
    element, in that order.  If one throws, the exception leaves the
    constructor: the elements before it were given a component, the
    elements after it were not looked at, and there is no manager. *)
Theorem X17_one_component_per_element
    (all : string -> option (list Element))
    (C : @Component Element Instance) (sel : string) (nodes : list Element) :
  selector C = Some sel -> all sel = Some nodes ->
  match new all C with
  | (called, inr cs) =>
      called = nodes /\ Forall2 (fun n c => construct C n = Some c) nodes cs
  | (called, inl e) =>
      e = ComponentThrew /\
      exists before n after,
        nodes = before ++ n :: after /\ called = before ++ [n] /\
        construct C n = None /\
        Forall (fun k => construct C k <> None) before
  end.
Proof.
  intros Hsel Hall. unfold new. rewrite Hsel, Hall.
  pose proof (make_each_ok C nodes) as Hmk.
  destruct (make_each C nodes) as [called [cs|]]; simpl in *; [done|].
  by split.
Qed.
End ComponentsMore.

Lemma X17_one_component_per_element_witness :
  let C := ComponentManager.MkComponent "Button" (Some ".js-btn")
             (fun n : nat => if (n =? 2)%nat then None else Some (n * 10)%nat) in
  let all := fun _ : string => Some [1%nat; 2%nat; 3%nat] in
  ComponentManager.selector C = Some ".js-btn" /\
  all ".js-btn" = Some [1%nat; 2%nat; 3%nat] /\
  match ComponentManager.new all C with
  | (called, inr cs) =>
      called = [1%nat; 2%nat; 3%nat] /\
      Forall2 (fun n c => ComponentManager.construct C n = Some c)
        [1%nat; 2%nat; 3%nat] cs
  | (called, inl e) =>
      e = ComponentManager.ComponentThrew /\
      exists before n after,
        [1%nat; 2%nat; 3%nat] = before ++ n :: after /\ called = before ++ [n] /\
        ComponentManager.construct C n = None /\
        Forall (fun k => ComponentManager.construct C k <> None) before
  end.
Proof.
  split; [reflexivity|]. split; [reflexivity|].
  exact (X17_one_component_per_element
           (fun _ : string => Some [1%nat; 2%nat; 3%nat])
           (ComponentManager.MkComponent "Button" (Some ".js-btn")
              (fun n : nat => if (n =? 2)%nat then None else Some (n * 10)%nat))
           ".js-btn" [1%nat; 2%nat; 3%nat] eq_refl eq_refl).
Defined.

Section Lifecycle.
Context {Instance : Type}.
Variable invoke : Instance -> string -> option outcome.
Import ComponentManager.

Lemma call_each_no_throw method (cs : list Instance) log :
  Forall (fun c => invoke c method <> Some Threw) cs ->
  call_each invoke method cs log
  = (log ++ ((fun c => (c, method)) <$> having invoke method cs), Returned).
Proof.
  intros Hcs. revert log. induction Hcs as [|c cs Hc Hcs IH]; intros log; simpl.
  { by rewrite app_nil_r. }
  unfold having in *. simpl.
  destruct (invoke c method) as [[|]|]; [|done|].
  - rewrite IH. rewrite fmap_cons. by rewrite <-app_assoc.
  - apply IH.
Qed.

Lemma call_each_throw method (before after : list Instance) c log :
  Forall (fun c => invoke c method <> Some Threw) before ->
  invoke c method = Some Threw ->
  call_each invoke method (before ++ c :: after) log
  = (log ++ ((fun c => (c, method)) <$> having invoke method before)
         ++ [(c, method)], Threw).
Proof.
  intros Hb Hc. revert log. induction Hb as [|b before Hb Hbefore IH]; intros log; simpl.
  { by rewrite Hc. }
  unfold having in *. simpl.
  destruct (invoke b method) as [[|]|]; [|done|].
  - rewrite IH. rewrite fmap_cons. by rewrite <-!app_assoc.
  - apply IH.
Qed.

(** X18.  When no [destroy] method throws, [destroy()] calls [destroy] on
    every component that has one, once and in order, skips the others and
    drops all the components; a second [destroy()] calls nothing. *)
Theorem X18_destroy_calls_each_once (m : @manager Instance) :
  Forall (fun c => invoke c "destroy" <> Some Threw) (components m) ->
  let m' := Manager []
              (calls m ++ ((fun c => (c, "destroy"%string)) <$>
                             having invoke "destroy" (components m))) in
  destroy invoke m = (m', Returned) /\
  destroy invoke m' = (m', Returned).
Proof.
  intros Hm m'. unfold destroy, callAll.
  rewrite call_each_no_throw by done. by split.
Qed.

(** X19.  [destroy()] does not catch: if the [destroy] method of a
    component throws, the components after it are not destroyed and the
    manager keeps all its components. *)
Theorem X19_destroy_stops_at_throw (before after : list Instance)
    (c : Instance) (log : list (Instance * string)) :
  Forall (fun c => invoke c "destroy" <> Some Threw) before ->
  invoke c "destroy" = Some Threw ->
  destroy invoke (Manager (before ++ c :: after) log)
  = (Manager (before ++ c :: after)
       (log ++ ((fun c => (c, "destroy"%string)) <$>
                  having invoke "destroy" before)
            ++ [(c, "destroy"%string)]),
     Threw).
Proof.
  intros Hb Hc. unfold destroy, callAll. simpl.
  by rewrite call_each_throw.
Qed.
End Lifecycle.

Lemma X18_destroy_calls_each_once_witness :
  let invoke := fun (c : nat) (method : string) =>
                  if (c =? 2)%nat then None else Some Returned in
  let m := ComponentManager.Manager [1%nat; 2%nat; 3%nat] [] in
  Forall (fun c => invoke c "destroy" <> Some Threw) (ComponentManager.components m) /\
  ComponentManager.destroy invoke m
  = (ComponentManager.Manager []
       [(1%nat, "destroy"%string); (3%nat, "destroy"%string)], Returned).
Proof.
  assert (H : Forall (fun c : nat =>
                        (if (c =? 2)%nat then None else Some Returned) <> Some Threw)
                [1%nat; 2%nat; 3%nat])
    by (repeat constructor; discriminate).
  split; [exact H|].
  exact (proj1 (X18_destroy_calls_each_once
                  (fun (c : nat) (_ : string) =>
                     if (c =? 2)%nat then None else Some Returned)
                  (ComponentManager.Manager [1%nat; 2%nat; 3%nat] []) H)).
Defined.

Lemma X19_destroy_stops_at_throw_witness :
  let invoke := fun (c : nat) (method : string) =>
                  if (c =? 2)%nat then Some Threw else Some Returned in
  Forall (fun c => invoke c "destroy" <> Some Threw) [1%nat] /\
  invoke 2%nat "destroy" = Some Threw /\
  ComponentManager.destroy invoke
    (ComponentManager.Manager [1%nat; 2%nat; 3%nat] [])
  = (ComponentManager.Manager [1%nat; 2%nat; 3%nat]
       [(1%nat, "destroy"%string); (2%nat, "destroy"%string)], Threw).
Proof.
  assert (H : Forall (fun c : nat =>
                        (if (c =? 2)%nat then Some Threw else Some Returned)
                        <> Some Threw) [1%nat])
    by (repeat constructor; discriminate).
  split; [exact H|]. split; [reflexivity|].
  exact (X19_destroy_stops_at_throw
           (fun (c : nat) (_ : string) =>
              if (c =? 2)%nat then Some Threw else Some Returned)
           [1%nat] [3%nat] 2%nat [] H eq_refl).
Defined.

(** ** The file loader *)

(** The last request sent is looked up, moved on and taken out of the
    requests in flight. *)
Ltac last_request :=
  repeat first
    [ rewrite lookup_app_r by done
    | rewrite Nat.sub_diag
    | rewrite list_lookup_insert_eq by (rewrite length_app; simpl; lia)
    | rewrite insert_app_r_alt by done
    | rewrite delete_middle
    | rewrite app_nil_r
    | progress cbn [lookup list_lookup insert list_insert fst snd
                    FileLoader.pending FileLoader.responseType
                    FileLoader.mimeType FileLoader.requestHeader
                    FileLoader.withCredentials FileLoader._cache
                    FileLoader.log] ].

Section Loading.
Import FileLoader.
Variable throws : nat -> bool.

(** X20.  Once a request for a URL that was not cached has been answered
    with an ok response and its body, a later [load] of that URL sends no
    request and leaves nothing in flight: it calls [onLoad] at once with
    the data the first request stored, whatever response type has been set
    in between. *)
Theorem X20_second_load_is_served_from_cache (st : loader) (u raw : string)
    (a b : nat) (ea eb : option nat) (status : nat) (rt : string) :
  _cache st !! u = None ->
  let k := length (pending st) in
  let st1 := (load throws u (Some (UserOnLoad a)) ea st).1 in
  let st2 := setResponseType rt
               (body throws k (Some raw) (respond k (Some (true, status)) st1)) in
  let d := if String.eqb (responseType st) "arraybuffer"
           then ArrayBuffer raw else Text raw in
  pending st2 = pending st /\
  load throws u (Some (UserOnLoad b)) eb st2
  = (with_log (log st2 ++ [OnLoad b (Data d)]) st2,
     if throws b then Threw else Returned).
Proof.
  intros Hmiss k st1 st2 d. unfold st2, st1, k, load. rewrite Hmiss.
  destruct st as [rt0 mt rh wc cache pend lg].
  unfold respond, body, setResponseType, with_log, call_onLoad. last_request.
  unfold body. last_request. fold d.
  rewrite lookup_insert_eq. split; [done|]. by destruct (throws a), (throws b).
Qed.

(** X21.  A request that fails stores nothing and is forgotten: when
    [fetch] rejects, when the response is not ok, or when the body cannot
    be read, [onError] is called once with the reason, [onLoad] is not
    called, and the cache and the other requests in flight are as they
    were, so that the next [load] of the URL sends a new request. *)
Theorem X21_failed_load_is_not_cached (st : loader) (u : string)
    (cb : option onload) (e : nat) (status : nat) :
  _cache st !! u = None ->
  let k := length (pending st) in
  let st1 := (load throws u cb (Some e) st).1 in
  let sent := log st ++ [Fetch u (requestHeader st)
                           (if withCredentials st then "include" else "same-origin")] in
  let failed err :=
    Loader (responseType st) (mimeType st) (requestHeader st)
      (withCredentials st) (_cache st) (pending st)
      (sent ++ [OnError e err]) in
  respond k None st1 = failed NetworkError /\
  respond k (Some (false, status)) st1 = failed (HTTP status) /\
  body throws k None (respond k (Some (true, status)) st1) = failed BodyError.
Proof.
  intros Hmiss k st1 sent failed. unfold failed, sent, st1, k, load.
  rewrite Hmiss. destruct st as [rt0 mt rh wc cache pend lg].
  unfold respond, body, call_onError. last_request.
  unfold body. last_request. done.
Qed.

(** X22.  The response type is read when the response arrives, not when
    [load] is called nor when the body has been read: the data stored and
    handed to [onLoad] is an [ArrayBuffer] exactly when the type set at
    that moment is "arraybuffer", whatever it was before or is after. *)
Theorem X22_response_type_read_on_response (st : loader) (u raw : string)
    (a : nat) (e : option nat) (status : nat) (rt rt' : string) :
  _cache st !! u = None ->
  throws a = false ->
  let k := length (pending st) in
  let st1 := (load throws u (Some (UserOnLoad a)) e st).1 in
  let st2 := body throws k (Some raw)
               (setResponseType rt'
                  (respond k (Some (true, status)) (setResponseType rt st1))) in
  let d := if String.eqb rt "arraybuffer" then ArrayBuffer raw else Text raw in
  _cache st2 !! u = Some d /\
  log st2 = log st1 ++ [OnLoad a (Data d)].
Proof.
  intros Hmiss Ha k st1 st2 d. unfold st2, st1, k, load. rewrite Hmiss.
  destruct st as [rt0 mt rh wc cache pend lg].
  unfold respond, body, setResponseType, call_onLoad. last_request.
  unfold body. last_request. fold d. rewrite Ha.
  by rewrite lookup_insert_eq.
Qed.

(** X23.  Requests in flight are not shared: a second [load] of a URL
    whose first request has not been answered yet sends a second request,
    and both stay in flight. *)
Theorem X23_loads_in_flight_are_not_shared (st : loader) (u : string)
    (cb1 cb2 : option onload) (e1 e2 : option nat) :
  _cache st !! u = None ->
  let st2 := (load throws u cb2 e2 (load throws u cb1 e1 st).1).1 in
  pending st2 = pending st ++ [Request u cb1 e1 Fetching; Request u cb2 e2 Fetching] /\
  fetches (log st2) = fetches (log st) ++ [u; u].
Proof.
  intros Hmiss st2. unfold st2, load. rewrite Hmiss.
  destruct st as [rt0 mt rh wc cache pend lg]. cbn in *. rewrite Hmiss. cbn.
  split; [by rewrite <-app_assoc|].
  unfold fetches. rewrite !omap_app. cbn. by rewrite <-app_assoc.
Qed.

(** X24.  When [onLoad] throws on the data of a request, [onError] is
    called too, with what [onLoad] threw; the data has been stored all the
    same. *)
Theorem X24_onLoad_throw_reaches_onError (st : loader) (u raw : string)
    (a e : nat) (status : nat) :
  _cache st !! u = None ->
  throws a = true ->
  let k := length (pending st) in
  let st1 := (load throws u (Some (UserOnLoad a)) (Some e) st).1 in
  let st2 := body throws k (Some raw) (respond k (Some (true, status)) st1) in
  let d := if String.eqb (responseType st) "arraybuffer"
           then ArrayBuffer raw else Text raw in
  _cache st2 !! u = Some d /\
  log st2 = log st1 ++ [OnLoad a (Data d); OnError e (Thrown a)].
Proof.
  intros Hmiss Ha k st1 st2 d. unfold st2, st1, k, load. rewrite Hmiss.
  destruct st as [rt0 mt rh wc cache pend lg].
  unfold respond, body, call_onLoad, call_onError. last_request.
  unfold body. last_request. fold d. rewrite Ha.
  rewrite lookup_insert_eq. split; [done|]. by rewrite <-!app_assoc.
Qed.

(** X25.  [GLTFLoader.load] makes a file loader of its own for each call,
    so it always sends a request.  When the response is ok and the body is
    read, [onLoad] is called with the scene; if it throws, [onError] is
    called with what it threw; and if [onError] throws as well, it is
    called a second time, by the file loader, with what it threw itself. *)
Theorem X25_gltf_load_outcomes (u raw : string) (l e : nat) (status : nat) :
  let st1 := (GLTFLoader.load throws u (Some l) (Some e)).1 in
  let st2 := body throws 0 (Some raw) (respond 0 (Some (true, status)) st1) in
  log st1 = [Fetch u [] "same-origin"] /\
  pending st2 = [] /\
  log st2 =
    [Fetch u [] "same-origin"; OnLoad l Scene] ++
    (if throws l
     then OnError e (Thrown l) ::
          (if throws e then [OnError e (Thrown e)] else [])
     else []).
Proof.
  cbv zeta. unfold GLTFLoader.load, load, create, setResponseType.
  cbn [_cache]. rewrite lookup_empty. split; [reflexivity|].
  unfold respond, body. cbn. unfold body. cbn.
  by destruct (throws l), (throws e).
Qed.
End Loading.

Section LoadingWitnesses.
Import FileLoader.

Lemma X20_second_load_is_served_from_cache_witness :
  let throws := fun _ : nat => false in
  @lookup string data (gmap string data) _ "a.glb" (_cache create) = None /\
  load throws "a.glb" (Some (UserOnLoad 2)) None
    (setResponseType "text"
       (body throws 0 (Some "bytes")
          (respond 0 (Some (true, 200%nat))
             (load throws "a.glb" (Some (UserOnLoad 1)) None create).1)))
  = (Loader "text" None [] false {[ "a.glb" := ArrayBuffer "bytes" ]} []
       [Fetch "a.glb" [] "same-origin";
        OnLoad 1 (Data (ArrayBuffer "bytes"));
        OnLoad 2 (Data (ArrayBuffer "bytes"))],
     Returned).
Proof.
  split; [reflexivity|].
  destruct (X20_second_load_is_served_from_cache (fun _ => false) create
              "a.glb" "bytes" 1%nat 2%nat None None 200%nat "text" eq_refl)
    as [_ H].
  cbv zeta in H. etransitivity; [exact H|]. reflexivity.
Defined.

Lemma X21_failed_load_is_not_cached_witness :
  let throws := fun _ : nat => false in
  @lookup string data (gmap string data) _ "a.glb" (_cache create) = None /\
  respond 0 (Some (false, 404%nat))
    (load throws "a.glb" (Some (UserOnLoad 1)) (Some 9%nat) create).1
  = Loader "arraybuffer" None [] false ∅ []
      [Fetch "a.glb" [] "same-origin"; OnError 9 (HTTP 404)].
Proof.
  split; [reflexivity|].
  exact (proj1 (proj2 (X21_failed_load_is_not_cached (fun _ => false) create
                         "a.glb" (Some (UserOnLoad 1)) 9%nat 404%nat eq_refl))).
Defined.

Lemma X22_response_type_read_on_response_witness :
  let throws := fun _ : nat => false in
  @lookup string data (gmap string data) _ "a.glb" (_cache create) = None /\
  throws 1%nat = false /\
  _cache
    (body throws 0 (Some "bytes")
       (setResponseType "arraybuffer"
          (respond 0 (Some (true, 200%nat))
             (setResponseType "text"
                (load throws "a.glb" (Some (UserOnLoad 1)) None create).1))))
    !! "a.glb" = Some (Text "bytes").
Proof.
  split; [reflexivity|]. split; [reflexivity|].
  exact (proj1 (X22_response_type_read_on_response (fun _ => false) create
                  "a.glb" "bytes" 1%nat None 200%nat "text" "arraybuffer"
                  eq_refl eq_refl)).
Defined.

Lemma X23_loads_in_flight_are_not_shared_witness :
  let throws := fun _ : nat => false in
  @lookup string data (gmap string data) _ "a.glb" (_cache create) = None /\
  fetches (log (load throws "a.glb" None None
                  (load throws "a.glb" None None create).1).1)
  = ["a.glb"; "a.glb"]%string.
Proof.
  split; [reflexivity|].
  exact (proj2 (X23_loads_in_flight_are_not_shared (fun _ => false) create
                  "a.glb" None None None None eq_refl)).
Defined.

Lemma X24_onLoad_throw_reaches_onError_witness :
  let throws := fun c : nat => (c =? 1)%nat in
  @lookup string data (gmap string data) _ "a.glb" (_cache create) = None /\
  throws 1%nat = true /\
  log (body throws 0 (Some "bytes")
         (respond 0 (Some (true, 200%nat))
            (load throws "a.glb" (Some (UserOnLoad 1)) (Some 9%nat) create).1))
  = [Fetch "a.glb" [] "same-origin";
     OnLoad 1 (Data (ArrayBuffer "bytes")); OnError 9 (Thrown 1)].
Proof.
  split; [reflexivity|]. split; [reflexivity|].
  exact (proj2 (X24_onLoad_throw_reaches_onError (fun c => (c =? 1)%nat) create
                  "a.glb" "bytes" 1%nat 9%nat 200%nat eq_refl eq_refl)).
Defined.
End LoadingWitnesses.

(** ** The eyes of the loader *)

Section Eyes.
Local Open Scope Q_scope.
Import IntroLoader.
Variable hypot : Q -> Q -> Q.

Lemma remaining_range n : 0 < remaining n /\ remaining n <= 1.
Proof.
  induction n as [|n [IH1 IH2]]; simpl; [split; [reflexivity|discriminate]|].
  split; lra.
Qed.

Lemma frames_last n (st : state) :
  frames hypot (S n) st = onRAF hypot (frames hypot n st).
Proof. revert st. induction n as [|n IH]; intros st; [done|]. simpl in *. by rewrite IH. Qed.

Lemma frames_keep n (st : state) :
  let st' := frames hypot n st in
  mouse st' = mouse st /\ maxMovementX st' = maxMovementX st /\
  maxMovementY st' = maxMovementY st /\ has_left st' = has_left st /\
  has_right st' = has_right st.
Proof.
  revert st. induction n as [|n IH]; intros st; [done|].
  simpl. destruct (IH (onRAF hypot st)) as (-> & -> & -> & -> & ->). done.
Qed.

(** X26.  While the pointer does not move, each frame brings the eyes a
    tenth of the remaining way towards their target (the pointer offset,
    capped at 3 downwards): after [n] frames the distance left is
    (9/10)^n of what it was, on both axes, so the eyes come closer at every
    frame and never pass the target; and the offset written to the eye
    elements is the eased position scaled by the largest movement. *)
Theorem X26_eyes_ease_towards_pointer (n : nat) (st : state) :
  let st' := frames hypot n st in
  let target := Vec (x (mouse st)) (Qmin (y (mouse st)) 3) in
  x (current st') - x target == remaining n * (x (current st) - x target) /\
  y (current st') - y target == remaining n * (y (current st) - y target) /\
  0 < remaining n /\ remaining n <= 1 /\ remaining (S n) < remaining n /\
  (has_left st = true ->
   left (frames hypot (S n) st)
   = Some (Vec (x (current (frames hypot (S n) st)) * maxMovementX st)
               (y (current (frames hypot (S n) st)) * maxMovementY st))).
Proof.
  cbv zeta. split_and!.
  - revert st. induction n as [|n IH]; intros st; simpl; [ring|].
    rewrite (IH (onRAF hypot st)). simpl. unfold lerp. ring.
  - revert st. induction n as [|n IH]; intros st; simpl; [ring|].
    rewrite (IH (onRAF hypot st)). simpl. unfold lerp. ring.
  - apply remaining_range.
  - apply remaining_range.
  - destruct (remaining_range n). simpl. lra.
  - intros Hl. rewrite frames_last.
    destruct (frames_keep n st) as (_ & HX & HY & HL & _).
    unfold onRAF at 1. cbn [left]. rewrite HL, Hl, HX, HY.
    unfold onRAF. cbn [current x y]. done.
Qed.

(** X27.  With the pointer and the centre of the enter button inside a
    viewport of positive size, [onPointerMove] leaves both coordinates of
    [mouse] between -2 and 2; the bound is reached when they are at
    opposite edges. *)
Theorem X27_loader_pointer_range (gx gy w h : Q) (st : state) :
  0 < w -> 0 < h ->
  0 <= gx -> gx <= w -> 0 <= gy -> gy <= h ->
  0 <= btnCenterX st -> btnCenterX st <= w ->
  0 <= btnCenterY st -> btnCenterY st <= h ->
  let m := mouse (onPointerMove gx gy w h st) in
  (-2 <= x m /\ x m <= 2) /\ (-2 <= y m /\ y m <= 2) /\
  (gx == w -> btnCenterX st == 0 -> x m == 2).
Proof.
  intros Hw Hh ? ? ? ? ? ? ? ? m. unfold m, onPointerMove. cbn [mouse x y].
  assert (Hx : -1 <= (gx - btnCenterX st) / w /\ (gx - btnCenterX st) / w <= 1).
  { split; [apply Qle_shift_div_l|apply Qle_shift_div_r]; lra. }
  assert (Hy : -1 <= (gy - btnCenterY st) / h /\ (gy - btnCenterY st) / h <= 1).
  { split; [apply Qle_shift_div_l|apply Qle_shift_div_r]; lra. }
  split_and!; try lra.
  intros Hgx Hc. rewrite Hgx, Hc. field. lra.
Qed.
End Eyes.

Lemma X26_eyes_ease_towards_pointer_witness :
  let st := IntroLoader.onPointerMove 150 50 200 100
              (IntroLoader.create true true) in
  IntroLoader.has_left st = true /\
  IntroLoader.left (IntroLoader.frames (fun _ _ => 0%Q) 2 st)
  = Some (Vec (x (IntroLoader.current
                    (IntroLoader.frames (fun _ _ => 0%Q) 2 st))
               * IntroLoader.maxMovementX st)
              (y (IntroLoader.current
                    (IntroLoader.frames (fun _ _ => 0%Q) 2 st))
               * IntroLoader.maxMovementY st)).
Proof.
  split; [reflexivity|].
  exact (proj2 (proj2 (proj2 (proj2 (proj2
           (X26_eyes_ease_towards_pointer (fun _ _ => 0%Q) 1%nat
              (IntroLoader.onPointerMove 150 50 200 100
                 (IntroLoader.create true true))))))) eq_refl).
Defined.

Lemma X27_loader_pointer_range_witness :
  let st := IntroLoader.getBtnCenter (Some (0, 40, 0, 20)%Q)
              (IntroLoader.create true true) in
  (0 < 200 /\ 0 < 100 /\ 0 <= 200 /\ 200 <= 200 /\ 0 <= 50 /\ 50 <= 100 /\
   0 <= IntroLoader.btnCenterX st /\ IntroLoader.btnCenterX st <= 200 /\
   0 <= IntroLoader.btnCenterY st /\ IntroLoader.btnCenterY st <= 100)%Q /\
  (x (IntroLoader.mouse (IntroLoader.onPointerMove 200 50 200 100 st)) == 2)%Q.
Proof.
  assert (H1 : (0 < 200)%Q) by reflexivity.
  assert (H2 : (0 < 100)%Q) by reflexivity.
  assert (H3 : (0 <= 200)%Q) by (vm_compute; discriminate).
  assert (H4 : (200 <= 200)%Q) by (vm_compute; discriminate).
  assert (H5 : (0 <= 50)%Q) by (vm_compute; discriminate).
  assert (H6 : (50 <= 100)%Q) by (vm_compute; discriminate).
  assert (H7 : (0 <= IntroLoader.btnCenterX
                       (IntroLoader.getBtnCenter (Some (0, 40, 0, 20)%Q)
                          (IntroLoader.create true true)))%Q)
    by (vm_compute; discriminate).
  assert (H8 : (IntroLoader.btnCenterX
                  (IntroLoader.getBtnCenter (Some (0, 40, 0, 20)%Q)
                     (IntroLoader.create true true)) <= 200)%Q)
    by (vm_compute; discriminate).
  assert (H9 : (0 <= IntroLoader.btnCenterY
                       (IntroLoader.getBtnCenter (Some (0, 40, 0, 20)%Q)
                          (IntroLoader.create true true)))%Q)
    by (vm_compute; discriminate).
  assert (H10 : (IntroLoader.btnCenterY
                   (IntroLoader.getBtnCenter (Some (0, 40, 0, 20)%Q)
                      (IntroLoader.create true true)) <= 100)%Q)
    by (vm_compute; discriminate).
  split; [split_and!; assumption|].
  apply (proj2 (proj2 (X27_loader_pointer_range 200 50 200 100
                  (IntroLoader.getBtnCenter (Some (0, 40, 0, 20)%Q)
                     (IntroLoader.create true true))
                  H1 H2 H3 H4 H5 H6 H7 H8 H9 H10))); reflexivity.
Defined.

(** ** The magnetic button *)

Section Magnet.
Local Open Scope Q_scope.
Import MagneticButton.

End Magnet.

(** ** The plane of the peel demo *)

Section Plane.
Local Open Scope Q_scope.
Import PeelDemo.

Lemma truthy_pos (q : Q) : truthy (Some q) = true -> 0 <= q -> 0 < q.
Proof.
  unfold truthy. intros Ht Hq.
  destruct (Qeq_bool q 0) eqn:E; [done|].
  apply Qeq_bool_neq in E. destruct (Qlt_le_dec 0 q) as [|Hle]; [done|].
  exfalso. apply E. lra.
Qed.

Lemma size_or_pos (img : option image) (a b : image -> option Q) (fb : Q) :
  0 < fb ->
  (forall i q, img = Some i -> a i = Some q \/ b i = Some q -> 0 <= q) ->
  0 < size_or img a b fb.
Proof.
  intros Hfb Hok. unfold size_or. destruct img as [i|]; [|done].
  destruct (or_else (a i) (b i)) as [q|] eqn:E; [|done].
  destruct (truthy (Some q)) eqn:Ht; [|done].
  apply truthy_pos; [done|]. apply (Hok i q eq_refl).
  unfold or_else in E. destruct (truthy (a i)); auto.
Qed.

(** X29.  For an image whose sizes, where it has them, are not negative,
    and a viewport of positive width, [FitPlane] never divides by zero:
    the width and height it takes for the image are positive (a size of 0
    or a missing size gives way to the other one, then to 3 by 2), the
    plane is 7/10 of the viewport wide, its height is positive, and it has
    the proportions of the image. *)
Theorem X29_plane_keeps_image_ratio (img : option image) (vw : Q) :
  sizes_ok img -> 0 < vw ->
  let w := size_or img naturalWidth width 3 in
  let h := size_or img naturalHeight height 2 in
  0 < w /\ 0 < h /\
  fst (FitPlane img vw) == vw * (7 # 10) /\
  0 < snd (FitPlane img vw) /\
  snd (FitPlane img vw) * w == fst (FitPlane img vw) * h.
Proof.
  intros Hok Hvw w h.
  assert (Hw : 0 < w).
  { apply size_or_pos; [reflexivity|]. intros i q -> Hq. apply Hok.
    destruct Hq as [<-| <-]; simpl; auto. }
  assert (Hh : 0 < h).
  { apply size_or_pos; [reflexivity|]. intros i q -> Hq. apply Hok.
    destruct Hq as [<-| <-]; simpl; auto 6. }
  unfold FitPlane. fold w h. cbn [fst snd].
  split_and!; try done.
  - assert (E : vw * (7 # 10) / (w / h) == vw * (7 # 10) * h / w)
      by (field; split; lra).
    rewrite E. apply Qlt_shift_div_l; [done|]. nra.
  - field. split; lra.
Qed.
End Plane.

Lemma X29_plane_keeps_image_ratio_witness :
  let img := Some (PeelDemo.Image (Some 0%Q) (Some 4%Q) None (Some 3%Q)) in
  PeelDemo.sizes_ok img /\ (0 < 10)%Q /\
  (snd (PeelDemo.FitPlane img 10) * 4 == fst (PeelDemo.FitPlane img 10) * 3)%Q.
Proof.
  assert (H1 : PeelDemo.sizes_ok
                 (Some (PeelDemo.Image (Some 0%Q) (Some 4%Q) None (Some 3%Q)))).
  { intros q Hq. simpl in Hq.
    destruct Hq as [Hq|[Hq|[Hq|[Hq|[]]]]]; inversion Hq; vm_compute;
      discriminate. }
  assert (H2 : (0 < 10)%Q) by reflexivity.
  split; [exact H1|]. split; [exact H2|].
  exact (proj2 (proj2 (proj2 (proj2 (X29_plane_keeps_image_ratio
           (Some (PeelDemo.Image (Some 0%Q) (Some 4%Q) None (Some 3%Q)))
           10 H1 H2))))).
Defined.

(** ** The listeners of a button *)

Section ButtonListeners.
Import Button.

Lemma filter_absent (p : string * nat) (l : list (string * nat)) :
  p ∉ l -> List.filter (fun q => negb (bool_decide (q = p))) l = l.
Proof.
  induction l as [|q l IH]; intros Hp; [done|]. simpl.
  apply not_elem_of_cons in Hp as [Hne Hp].
  rewrite bool_decide_eq_false_2 by congruence. simpl. by rewrite IH.
Qed.

Lemma filter_last (p : string * nat) (l : list (string * nat)) :
  p ∉ l -> List.filter (fun q => negb (bool_decide (q = p))) (l ++ [p]) = l.
Proof.
  intros Hp. rewrite List.filter_app, filter_absent by done. simpl.
  rewrite bool_decide_eq_true_2 by done. simpl. apply app_nil_r.
Qed.

Lemma add_fresh (t : string) (fn : nat) (el : element) :
  (t, fn) ∉ listeners el ->
  listeners (addEventListener t fn el) = listeners el ++ [(t, fn)].
Proof.
  intros Hp. unfold addEventListener. by rewrite bool_decide_eq_false_2.
Qed.

Lemma below_absent (t : string) (n next : nat) (l : list (string * nat)) :
  (forall q, q ∈ l -> (q.2 < next)%nat) -> (next <= n)%nat -> (t, n) ∉ l.
Proof. intros Hl Hn Hin. apply Hl in Hin. simpl in Hin. lia. Qed.

(** X30.  A button made for an element whose listeners are all older
    functions adds its own at the end: mouseenter, mouseleave, and click
    exactly when the element has no [href] or one that starts with a
    hash.  [destroy] then takes away what the constructor added and
    nothing else, whether or not a click listener was added, and a second
    [destroy] changes nothing. *)
Theorem X30_destroy_undoes_constructor (next : nat) (el : element) :
  (forall q, q ∈ listeners el -> (q.2 < next)%nat) ->
  let b := (create next el).1.1 in
  let el' := (create next el).1.2 in
  listeners el'
  = listeners el
    ++ [("mouseenter"%string, _mouseEnter b); ("mouseleave"%string, _mouseLeave b)]
    ++ (if intercepts_click el then [("click"%string, _onClick b)] else []) /\
  listeners (destroy b el') = listeners el /\
  destroy b (destroy b el') = destroy b el' /\
  (forall q, q ∈ listeners el' -> (q.2 < (create next el).2)%nat).
Proof.
  intros Hold. cbv zeta.
  assert (H0 : ("mouseenter"%string, next) ∉ listeners el)
    by (eapply below_absent; [exact Hold|lia]).
  assert (H1 : ("mouseleave"%string, S next)
               ∉ listeners el ++ [("mouseenter"%string, next)]).
  { intros [Hin|Hin]%elem_of_app.
    - apply Hold in Hin. simpl in Hin. lia.
    - apply list_elem_of_singleton in Hin. inversion Hin. }
  assert (H2 : ("click"%string, S (S next))
               ∉ (listeners el ++ [("mouseenter"%string, next)])
                 ++ [("mouseleave"%string, S next)]).
  { intros [[Hin|Hin]%elem_of_app|Hin]%elem_of_app.
    - apply Hold in Hin. simpl in Hin. lia.
    - apply list_elem_of_singleton in Hin. inversion Hin.
    - apply list_elem_of_singleton in Hin. inversion Hin. }
  assert (Hl : listeners (create next el).1.2
               = (listeners el ++ [("mouseenter"%string, next)]
                  ++ [("mouseleave"%string, S next)])
                 ++ (if intercepts_click el
                     then [("click"%string, S (S next))] else [])).
  { unfold create. cbn [fst snd _mouseEnter _mouseLeave _onClick].
    assert (E1 : listeners (addEventListener "mouseenter" next el)
                 = listeners el ++ [("mouseenter"%string, next)])
      by (by apply add_fresh).
    assert (E2 : listeners (addEventListener "mouseleave" (S next)
                              (addEventListener "mouseenter" next el))
                 = (listeners el ++ [("mouseenter"%string, next)])
                   ++ [("mouseleave"%string, S next)])
      by (rewrite add_fresh; rewrite E1; done).
    destruct (intercepts_click el).
    - rewrite add_fresh; rewrite E2; [|done]. by rewrite <- ?app_assoc.
    - rewrite E2, app_nil_r. by rewrite <- ?app_assoc. }
  assert (Hd : listeners (destroy (create next el).1.1 (create next el).1.2)
               = listeners el).
  { unfold destroy, removeEventListener. cbn [listeners with_listeners].
    rewrite Hl. unfold create.
    cbn [fst snd _mouseEnter _mouseLeave _onClick].
    rewrite !List.filter_app.
    rewrite (filter_absent ("mouseenter"%string, next)) by done.
    rewrite (filter_absent ("mouseleave"%string, S next)).
    2:{ intros Hin. apply H1, elem_of_app. by left. }
    rewrite (filter_absent ("click"%string, S (S next))).
    2:{ intros Hin. apply H2, elem_of_app. left. apply elem_of_app. by left. }
    destruct (intercepts_click el); simpl;
      rewrite ?bool_decide_eq_true_2 by done; simpl; by rewrite ?app_nil_r. }
  split_and!.
  - rewrite Hl. unfold create. cbn [fst snd _mouseEnter _mouseLeave _onClick].
    by rewrite <- !app_assoc.
  - exact Hd.
  - set (b := (create next el).1.1) in *. set (el' := (create next el).1.2) in *.
    assert (Hb : _mouseEnter b = next /\ _mouseLeave b = S next
                 /\ _onClick b = S (S next)) by done.
    destruct Hb as (Hb1 & Hb2 & Hb3).
    unfold destroy at 1. unfold removeEventListener.
    cbn [listeners with_listeners href dataset_btn dataset_togglecontent
         clientWidth clientHeight inner content icon].
    rewrite Hd, Hb1, Hb2, Hb3.
    rewrite (filter_absent ("mouseenter"%string, next)) by done.
    rewrite (filter_absent ("mouseleave"%string, S next)).
    2:{ intros Hin. apply H1, elem_of_app. by left. }
    rewrite (filter_absent ("click"%string, S (S next))).
    2:{ intros Hin. apply H2, elem_of_app. left. apply elem_of_app. by left. }
    rewrite <- Hd at 1. unfold destroy, removeEventListener.
    cbn [listeners with_listeners href dataset_btn dataset_togglecontent
         clientWidth clientHeight inner content icon].
    rewrite Hb1, Hb2, Hb3. unfold with_listeners.
    cbn [listeners href dataset_btn dataset_togglecontent
         clientWidth clientHeight inner content icon]. done.
  - intros q. rewrite Hl. unfold create. cbn [snd].
    intros [[Hin|Hin]%elem_of_app|Hin]%elem_of_app.
    + apply Hold in Hin. lia.
    + apply elem_of_cons in Hin as [->|Hin]; [simpl; lia|].
      apply list_elem_of_singleton in Hin as ->. simpl. lia.
    + destruct (intercepts_click el); [|by apply elem_of_nil in Hin].
      apply list_elem_of_singleton in Hin as ->. simpl. lia.
Qed.
End ButtonListeners.

Lemma X30_destroy_undoes_constructor_witness :
  let el := Button.Element (Some "#top"%string) None None 120 40 None None None
              [("click"%string, 0%nat); ("focus"%string, 1%nat)] in
  (forall q, q ∈ Button.listeners el -> (q.2 < 2)%nat) /\
  Button.listeners (Button.destroy (Button.create 2 el).1.1
                      (Button.create 2 el).1.2)
  = Button.listeners el.
Proof.
  assert (H : forall q, q ∈ Button.listeners
                (Button.Element (Some "#top"%string) None None 120 40 None None
                   None [("click"%string, 0%nat); ("focus"%string, 1%nat)]) ->
              (q.2 < 2)%nat).
  { intros q Hin. simpl in Hin.
    apply elem_of_cons in Hin as [->|Hin]; [simpl; lia|].
    apply list_elem_of_singleton in Hin as ->. simpl. lia. }
  split; [exact H|].
  exact (proj1 (proj2 (X30_destroy_undoes_constructor 2
           (Button.Element (Some "#top"%string) None None 120 40 None None None
              [("click"%string, 0%nat); ("focus"%string, 1%nat)]) H))).
Defined.
